(** * nanobananapro-ui: local-first persistence and cloud synchronisation

    A shallow embedding of the gallery's persistence engine:
    - [create-page/storage.ts]: the localforage document and blob store,
      reference strings, dehydrate ([persistGenerations], [savePending]),
      hydrate ([restoreGenerations], [loadPending]), the deletion of a
      record ([deleteGenerationData]), the orphan collector
      ([cleanOrphanedImages]) and the favourites document;
    - [create-page.tsx]: [loadState], the pending reconciliation effect, the
      cloud merge callbacks, [handleDeleteGeneration] and
      [handleToggleFavorite];
    - [lib/supabase/cloud-storage.ts]: the upload path to the remote tables,
      the loads, the deletion of a record, the settings and
      [syncLocalToCloud];
    - [create-page/use-cloud-sync.ts]: the sign-in merge, the debounced
      synchronisation effects and the image setting.

    Asynchronous code is read as the sequence of its effects: a
    [Promise.all] over [array.map(async ...)] is a left-to-right traversal
    in a state monad over the browser state. *)

From Stdlib Require Import Ascii String Sorted.
From stdpp Require Import gmap strings list pretty.

Open Scope string_scope.
Open Scope list_scope.

Set Warnings "-clear-no-such-hyp".

(** ** JavaScript string primitives

    Strings are byte strings; the ids, keys and URLs of the program are
    ASCII. *)

Module Js.

(** [s.startsWith(p)] *)
Definition startsWith (s p : string) : bool := String.prefix p s.

Fixpoint drop (n : nat) (s : string) : string :=
  match n, s with
  | O, _ => s
  | S n', String _ s' => drop n' s'
  | S _, EmptyString => EmptyString
  end.

(** [s.replace(pat, rep)] with a string pattern: the first occurrence only. *)
Fixpoint replace (pat rep s : string) : string :=
  if String.prefix pat s then rep +:+ drop (String.length pat) s
  else match s with
       | EmptyString => EmptyString
       | String c s' => String c (replace pat rep s')
       end.

(** [s.includes(sub)] *)
Fixpoint includes (s sub : string) : bool :=
  String.prefix sub s ||
  match s with
  | EmptyString => false
  | String _ s' => includes s' sub
  end.

(** [s.slice(a, b)] for [0 <= a <= b]. *)
Definition slice (a b : nat) (s : string) : string :=
  String.substring a (b - a) s.

(** The white space and line terminators of [String.prototype.trim] that are
    single bytes: TAB, LF, VT, FF, CR and SPACE. *)
Definition isWhiteSpace (c : Ascii.ascii) : bool :=
  let n := Ascii.nat_of_ascii c in
  (Nat.leb 9 n && Nat.leb n 13) || Nat.eqb n 32.

Fixpoint trimStart (s : string) : string :=
  match s with
  | String c s' => if isWhiteSpace c then trimStart s' else s
  | EmptyString => EmptyString
  end.

(** Right trim: a character is kept when something other than white space
    follows it or it is not white space itself. *)
Fixpoint trimEnd (s : string) : string :=
  match s with
  | EmptyString => EmptyString
  | String c s' =>
      match trimEnd s' with
      | EmptyString => if isWhiteSpace c then EmptyString else String c EmptyString
      | t => String c t
      end
  end.

Definition trim (s : string) : string := trimEnd (trimStart s).

(** [`${n}`] for an array index. *)
Definition ofIndex (n : nat) : string := pretty n.

(** Truthiness of a string: [!s] holds of the empty string only. *)
Definition truthy (s : string) : bool :=
  match s with EmptyString => false | _ => true end.

End Js.

(** ** Data model ([create-page/types]) *)

(** An input (reference) image of a generation. *)
Record InputImage := mkInputImage {
  ii_id : string;
  ii_name : string;
  ii_url : string;
  ii_width : option Z;
  ii_height : option Z
}.

(** A generation record; completed and pending records share the shape. *)
Record Generation := mkGeneration {
  id : string;
  prompt : string;
  aspect : string;
  quality : string;
  outputFormat : string;
  provider : string;
  createdAt : string;
  size_width : Z;
  size_height : Z;
  images : list string;
  inputImages : list InputImage
}.

(** [{ ...img, url }] *)
Definition withUrl (img : InputImage) (u : string) : InputImage :=
  {| ii_id := ii_id img; ii_name := ii_name img; ii_url := u;
     ii_width := ii_width img; ii_height := ii_height img |}.

(** [{ ...gen, images, inputImages }] *)
Definition withImages (gen : Generation) (imgs : list string)
    (inputs : list InputImage) : Generation :=
  {| id := id gen; prompt := prompt gen; aspect := aspect gen;
     quality := quality gen; outputFormat := outputFormat gen;
     provider := provider gen; createdAt := createdAt gen;
     size_width := size_width gen; size_height := size_height gen;
     images := imgs; inputImages := inputs |}.

(** [{ ...gen, id }] *)
Definition withId (gen : Generation) (i : string) : Generation :=
  {| id := i; prompt := prompt gen; aspect := aspect gen;
     quality := quality gen; outputFormat := outputFormat gen;
     provider := provider gen; createdAt := createdAt gen;
     size_width := size_width gen; size_height := size_height gen;
     images := images gen; inputImages := inputImages gen |}.

(** The fields of a record other than its image fields. *)
Definition sameMetadata (a b : Generation) : Prop :=
  id a = id b ∧ prompt a = prompt b ∧ aspect a = aspect b ∧
  quality a = quality b ∧ outputFormat a = outputFormat b ∧
  provider a = provider b ∧ createdAt a = createdAt b ∧
  size_width a = size_width b ∧ size_height a = size_height b.

(** The fields of a record other than its id. *)
Definition sameData (a b : Generation) : Prop :=
  prompt a = prompt b ∧ aspect a = aspect b ∧
  quality a = quality b ∧ outputFormat a = outputFormat b ∧
  provider a = provider b ∧ createdAt a = createdAt b ∧
  size_width a = size_width b ∧ size_height a = size_height b ∧
  images a = images b ∧ inputImages a = inputImages b.

#[global] Instance InputImage_eq_dec : EqDecision InputImage.
Proof. solve_decision. Defined.

#[global] Instance Generation_eq_dec : EqDecision Generation.
Proof. solve_decision. Defined.

(** A binary payload. *)
Record Blob := mkBlob { blob_type : string; blob_bytes : string }.

(** What a localforage key can hold: an image payload, an array of records
    (the completed and the pending documents), an array of strings (the
    favourites document), or some other truthy value that is no array.
    The empty array is [VGenerations []] as well as [VStrings []]. *)
Inductive StoreValue :=
| VBlob (b : Blob)
| VGenerations (gs : list Generation)
| VStrings (ss : list string)
| VOther.

(** The browser state the storage layer works on. The last three fields are
    the environment: what [fetch] answers for a URL ([None]: the request
    fails or is not ok), what [JSON.parse] answers for a legacy document
    ([None]: a syntax error), and the keys whose [setItem] is rejected
    (quota exceeded, store unavailable). Reads of the store succeed. *)
Record World := mkWorld {
  store : gmap string StoreValue;        (* the localforage instance *)
  localStorage : gmap string string;     (* window.localStorage *)
  objectURLs : list (string * Blob);     (* handles made by URL.createObjectURL *)
  fetchBlob : string → option Blob;
  jsonParse : string → option StoreValue;
  setItemFails : string → bool
}.

Definition setStore (w : World) (s : gmap string StoreValue) : World :=
  {| store := s; localStorage := localStorage w; objectURLs := objectURLs w;
     fetchBlob := fetchBlob w; jsonParse := jsonParse w;
     setItemFails := setItemFails w |}.

Definition setLocalStorage (w : World) (l : gmap string string) : World :=
  {| store := store w; localStorage := l; objectURLs := objectURLs w;
     fetchBlob := fetchBlob w; jsonParse := jsonParse w;
     setItemFails := setItemFails w |}.

Definition setObjectURLs (w : World) (l : list (string * Blob)) : World :=
  {| store := store w; localStorage := localStorage w; objectURLs := l;
     fetchBlob := fetchBlob w; jsonParse := jsonParse w;
     setItemFails := setItemFails w |}.

(** ** State monads

    [St Σ A] is a computation over the state [Σ]; the storage layer runs
    in [M = St World]. *)

Definition St (Σ A : Type) : Type := Σ → A * Σ.

Definition M (A : Type) : Type := St World A.

Definition ret {Σ A} (a : A) : St Σ A := fun w => (a, w).

Definition bind {Σ A B} (m : St Σ A) (f : A → St Σ B) : St Σ B :=
  fun w => let '(a, w') := m w in f a w'.

Notation "'let*' x ':=' m 'in' k" := (bind m (fun x => k))
  (at level 10, x name, m at level 100, k at level 200).

(** A computation that may throw: [None] is the exception, and what was
    done to the state before the throw stays done. *)
Definition bindE {Σ A B} (m : St Σ (option A)) (f : A → St Σ (option B)) : St Σ (option B) :=
  fun w => match m w with
           | (Some a, w') => f a w'
           | (None, w') => (None, w')
           end.

Notation "'try*' x ':=' m 'in' k" := (bindE m (fun x => k))
  (at level 10, x name, m at level 100, k at level 200).

(** [Promise.all(xs.map(async (x, index) => f(x, index)))] *)
Fixpoint mapIndexed {Σ A B} (f : nat → A → St Σ B) (start : nat) (xs : list A) : St Σ (list B) :=
  match xs with
  | [] => ret []
  | x :: xs' =>
      let* y := f start x in
      let* ys := mapIndexed f (S start) xs' in
      ret (y :: ys)
  end.

Definition mapAll {Σ A B} (f : A → St Σ B) (xs : list A) : St Σ (list B) :=
  mapIndexed (fun _ => f) 0 xs.

(** ** Arrays and sets of JavaScript *)

(** [Array.prototype.sort(compareFn)]: the sort is stable, so for a
    consistent comparator its result is that of a stable insertion sort;
    [x] goes before the first [y] with [compareFn(x, y) <= 0]. *)
Fixpoint insertSorted {A} (compareFn : A → A → Z) (x : A) (l : list A) : list A :=
  match l with
  | [] => [x]
  | y :: l' =>
      if (compareFn x y <=? 0)%Z then x :: y :: l'
      else y :: insertSorted compareFn x l'
  end.

Definition arraySort {A} (compareFn : A → A → Z) (l : list A) : list A :=
  foldr (insertSorted compareFn) [] l.

(** The default comparator of [sort()] on strings. *)
Definition compareStrings (a b : string) : Z :=
  match String.compare a b with
  | Lt => (-1)%Z
  | Eq => 0%Z
  | Gt => 1%Z
  end.

(** [[...new Set(xs)]]: the first occurrence of each element, in order. *)
Definition dedupe (xs : list string) : list string :=
  foldl (fun (acc : list string) x => if decide (x ∈ acc) then acc else (acc ++ [x])%list) [] xs.

(** ** [create-page/storage.ts] *)

Module Storage.

Definition GENERATIONS_KEY : string := "seedream:generations".
Definition PENDING_KEY : string := "seedream:pending_generations".
Definition FAVORITES_KEY : string := "seedream:favorites".

Inductive ImageType := Output | Input.

(** [getImageKey(generationId, index, type = "output", inputId?)] *)
Definition getImageKey (generationId : string) (index : nat) (type : ImageType)
    (inputId : option string) : string :=
  match type, inputId with
  | Input, Some i =>
      if Js.truthy i then "img:" +:+ generationId +:+ ":input:" +:+ i
      else "img:" +:+ generationId +:+ ":" +:+ Js.ofIndex index
  | _, _ => "img:" +:+ generationId +:+ ":" +:+ Js.ofIndex index
  end.

Definition isRef (str : string) : bool := Js.startsWith str "ref:img:".

Definition getRefKey (str : string) : string := Js.replace "ref:" "" str.

Definition makeRef (key : string) : string := "ref:" +:+ key.

(** *** localforage and browser primitives *)

Definition getItem (key : string) : M (option StoreValue) :=
  fun w => (store w !! key, w).

(** [true] when the write went through, [false] when it was rejected. *)
Definition setItem (key : string) (v : StoreValue) : M bool :=
  fun w => if setItemFails w key then (false, w)
           else (true, setStore w (<[key := v]> (store w))).

Definition removeItem (key : string) : M unit :=
  fun w => (tt, setStore w (delete key (store w))).

Definition keys : M (list string) :=
  fun w => (elements (dom (store w)), w).

(** [urlToBlob(url)]: [None] when it throws. *)
Definition urlToBlob (url : string) : M (option Blob) :=
  fun w => (fetchBlob w url, w).

(** [URL.createObjectURL(blob)]: a new [blob:] handle, registered for the
    payload. *)
Definition createObjectURL (b : Blob) : M string :=
  fun w => let url := "blob:" +:+ pretty (length (objectURLs w)) in
           (url, setObjectURLs w (objectURLs w ++ [(url, b)])).

(** *** Dehydrate: [persistGenerations] *)

(** The callback of [gen.images.map] in [persistGenerations]. *)
Definition persistImage (gen : Generation) (index : nat) (img : string) : M string :=
  if negb (Js.truthy img) then ret ""
  else if isRef img then ret img
  else
    let key := getImageKey (id gen) index Output None in
    if Js.startsWith img "blob:" then ret (makeRef key)
    else
      let* blob := urlToBlob img in
      match blob with
      | Some b =>
          let* ok := setItem key (VBlob b) in
          if ok then ret (makeRef key) else ret img
      | None => ret img
      end.

(** The callback of [gen.inputImages.map] in [persistGenerations]. *)
Definition persistInput (gen : Generation) (img : InputImage) : M InputImage :=
  if negb (Js.truthy (ii_url img)) then ret img
  else if isRef (ii_url img) then ret img
  else
    let key := getImageKey (id gen) 0 Input (Some (ii_id img)) in
    if Js.startsWith (ii_url img) "blob:" then ret (withUrl img (makeRef key))
    else
      let* blob := urlToBlob (ii_url img) in
      match blob with
      | Some b =>
          let* ok := setItem key (VBlob b) in
          if ok then ret (withUrl img (makeRef key)) else ret img
      | None => ret img
      end.

Definition persistGeneration (gen : Generation) : M Generation :=
  let* imgs := mapIndexed (persistImage gen) 0 (images gen) in
  let* inputs := mapAll (persistInput gen) (inputImages gen) in
  ret (withImages gen imgs inputs).

(** [persistGenerations(generations)]; the result tells whether the final
    write of the document went through. *)
Definition persistGenerations (generations : list Generation) : M bool :=
  let* persistedGenerations := mapAll persistGeneration generations in
  setItem GENERATIONS_KEY (VGenerations persistedGenerations).

(** *** Hydrate: [restoreGenerations] *)

(** The callback of [gen.images.map] in [restoreGenerations]. A value under
    the key that is not a payload makes [URL.createObjectURL] throw, which
    the callback catches. *)
Definition hydrateImage (gen : Generation) (index : nat) (img : string) : M string :=
  if negb (Js.truthy img) then ret ""
  else if isRef img then
    let key := getRefKey img in
    let* v := getItem key in
    match v with
    | Some (VBlob b) => createObjectURL b
    | None => ret ""
    | Some _ => ret ""
    end
  else
    let key := getImageKey (id gen) index Output None in
    let* blob := urlToBlob img in
    match blob with
    | Some b =>
        let* ok := setItem key (VBlob b) in
        if ok then createObjectURL b else ret img
    | None => ret img
    end.

(** The callback of [gen.inputImages.map] in [restoreGenerations]. *)
Definition hydrateInput (gen : Generation) (inputImg : InputImage) : M InputImage :=
  if negb (Js.truthy (ii_url inputImg)) then ret inputImg
  else if isRef (ii_url inputImg) then
    let key := getRefKey (ii_url inputImg) in
    let* v := getItem key in
    match v with
    | Some (VBlob b) =>
        let* url := createObjectURL b in ret (withUrl inputImg url)
    | None => ret (withUrl inputImg "")
    | Some _ => ret inputImg
    end
  else
    let key := getImageKey (id gen) 0 Input (Some (ii_id inputImg)) in
    let* blob := urlToBlob (ii_url inputImg) in
    match blob with
    | Some b =>
        let* ok := setItem key (VBlob b) in
        if ok then let* url := createObjectURL b in ret (withUrl inputImg url)
        else ret inputImg
    | None => ret inputImg
    end.

Definition hydrateGeneration (gen : Generation) : M Generation :=
  let* imgs := mapIndexed (hydrateImage gen) 0 (images gen) in
  let* inputs := mapAll (hydrateInput gen) (inputImages gen) in
  ret (withImages gen imgs inputs).

(** The document read by [restoreGenerations]: the store's, or else the
    legacy [localStorage] copy, which is removed once it has parsed. *)
Definition readGenerationsDocument : M (option StoreValue) :=
  let* storedData := getItem GENERATIONS_KEY in
  match storedData with
  | Some v => ret (Some v)
  | None => fun w =>
      match localStorage w !! GENERATIONS_KEY with
      | Some legacy =>
          if Js.truthy legacy then
            match jsonParse w legacy with
            | Some v => (Some v, setLocalStorage w (delete GENERATIONS_KEY (localStorage w)))
            | None => (None, w)
            end
          else (None, w)
      | None => (None, w)
      end
  end.

(** [restoreGenerations()]: the outer [None] is a rejected promise,
    [Some None] the [null] result. Every array passes [Array.isArray]; on
    an entry that is no record the callback of [storedData.map] throws at
    [gen.images.map], before it has done anything. *)
Definition restoreGenerations : M (option (option (list Generation))) :=
  let* storedData := readGenerationsDocument in
  match storedData with
  | Some (VGenerations gs) =>
      let* hydratedGenerations := mapAll hydrateGeneration gs in
      ret (Some (Some hydratedGenerations))
  | Some (VStrings []) => ret (Some (Some []))
  | Some (VStrings (_ :: _)) => ret None
  | _ => ret (Some None)
  end.

Definition clearPending : M unit := removeItem PENDING_KEY.

(** *** The orphan collector: [cleanOrphanedImages] *)

(** The key a non-empty field stands for. *)
Definition outputKey (gen : Generation) (index : nat) (img : string) : string :=
  if isRef img then getRefKey img else getImageKey (id gen) index Output None.

Definition inputKey (gen : Generation) (img : InputImage) : string :=
  if isRef (ii_url img) then getRefKey (ii_url img)
  else getImageKey (id gen) 0 Input (Some (ii_id img)).

(** [collectKeys(gen)], adding to [referencedKeys]. *)
Definition collectKeys (referencedKeys : gset string) (gen : Generation) : gset string :=
  let afterOutputs :=
    foldl (fun acc '(index, img) =>
             if negb (Js.truthy img) then acc
             else {[outputKey gen index img]} ∪ acc)
          referencedKeys (imap pair (images gen)) in
  foldl (fun acc img =>
           if negb (Js.truthy (ii_url img)) then acc
           else {[inputKey gen img]} ∪ acc)
        afterOutputs (inputImages gen).

(** The set [referencedKeys] once both lists have been walked. *)
Definition referencedKeys (storedGenerations storedPending : list Generation) : gset string :=
  foldl collectKeys (foldl collectKeys ∅ storedGenerations) storedPending.

(** [arg ?? store.getItem(key)] as [forEach(collectKeys)] walks it: the
    argument when one is given, else the stored value, nothing stored
    counting as the empty array ([?? []]). [None] when the walk throws: a
    stored value that is no array has no [forEach], and [collectKeys] of an
    entry that is no record throws at [gen.images.forEach]. *)
Definition snapshotOr (arg : option (list Generation)) (key : string)
    : M (option (list Generation)) :=
  match arg with
  | Some gs => ret (Some gs)
  | None =>
      let* v := getItem key in
      match v with
      | None => ret (Some [])
      | Some (VGenerations gs) => ret (Some gs)
      | Some (VStrings []) => ret (Some [])
      | Some _ => ret None
      end
  end.

(** [cleanOrphanedImages(generations, pending)]; [None] when it throws,
    which it does before any key is removed. *)
Definition cleanOrphanedImages (generations pending : option (list Generation))
    : M (option unit) :=
  try* storedGenerations := snapshotOr generations GENERATIONS_KEY in
  try* storedPending := snapshotOr pending PENDING_KEY in
  let referenced := referencedKeys storedGenerations storedPending in
  let* ks := keys in
  let removals :=
    filter (fun key => Js.startsWith key "img:" = true ∧ key ∉ referenced) ks in
  let* _ := mapAll removeItem removals in
  ret (Some tt).

(** *** Favourites *)

Definition persistFavorites (favorites : gset string) : M bool :=
  setItem FAVORITES_KEY (VStrings (elements favorites)).

Definition restoreFavorites : M (gset string) :=
  let* stored := getItem FAVORITES_KEY in
  let fromStore : gset string :=
    match stored with
    | Some (VStrings ss) => list_to_set ss
    | _ => ∅
    end in
  match stored with
  | Some _ => ret fromStore
  | None => fun w =>
      match localStorage w !! FAVORITES_KEY with
      | Some legacy =>
          if Js.truthy legacy then
            match jsonParse w legacy with
            | Some parsed =>
                let w' := setLocalStorage w (delete FAVORITES_KEY (localStorage w)) in
                match parsed with
                | VStrings ss => (list_to_set ss, w')
                | _ => (fromStore, w')
                end
            | None => (fromStore, w)
            end
          else (fromStore, w)
      | None => (fromStore, w)
      end
  end.

(** *** Pending records: [savePending], [loadPending] *)

(** The callback of [pending.map] in [savePending]: the input images are
    dehydrated as in [persistGenerations], the output slots are left. *)
Definition savePendingOne (gen : Generation) : M Generation :=
  let* inputs := mapAll (persistInput gen) (inputImages gen) in
  ret (withImages gen (images gen) inputs).

(** [savePending(pending)]; the result tells whether the final write went
    through. *)
Definition savePending (pending : list Generation) : M bool :=
  let* persistedPending := mapAll savePendingOne pending in
  setItem PENDING_KEY (VGenerations persistedPending).

(** The callback of [gen.inputImages.map] in [loadPending]; [None] when it
    throws: there is no [catch] around [URL.createObjectURL], which throws
    on a value that is not a payload. *)
Definition loadPendingInput (img : InputImage) : M (option InputImage) :=
  if isRef (ii_url img) then
    let key := getRefKey (ii_url img) in
    let* v := getItem key in
    match v with
    | Some (VBlob b) =>
        let* url := createObjectURL b in ret (Some (withUrl img url))
    | None => ret (Some img)
    | Some _ => ret None
    end
  else ret (Some img).

(** [Promise.all] of results that may be rejections: every callback runs,
    and one rejection rejects the whole. *)
Definition allSome {A} (xs : list (option A)) : option (list A) :=
  mapM (fun x => x) xs.

Definition loadPendingOne (gen : Generation) : M (option Generation) :=
  let* inputs := mapAll loadPendingInput (inputImages gen) in
  ret ((fun inputs' => withImages gen (images gen) inputs') <$> allSome inputs).

(** [loadPending()]; [None] when the promise is rejected. *)
Definition loadPending : M (option (list Generation)) :=
  let* stored := getItem PENDING_KEY in
  match stored with
  | Some (VGenerations gs) =>
      let* loaded := mapAll loadPendingOne gs in
      ret (allSome loaded)
  | _ => ret (Some [])
  end.

(** *** Deleting a record: [deleteGenerationData] *)

(** The keys [removeGenerationAssets] removes: one per non-empty field. *)
Definition assetKeys (generation : Generation) : list string :=
  omap (fun '(index, img) =>
          if negb (Js.truthy img) then None
          else Some (outputKey generation index img))
       (imap pair (images generation)) ++
  omap (fun img =>
          if negb (Js.truthy (ii_url img)) then None
          else Some (inputKey generation img))
       (inputImages generation).

Definition removeGenerationAssets (generation : Generation) : M unit :=
  let* _ := mapAll removeItem (assetKeys generation) in
  ret tt.

(** [store.getItem<Generation[]>(key)], read as an array of records. *)
Definition getDocument (key : string) : M (option (list Generation)) :=
  let* v := getItem key in
  match v with
  | Some (VGenerations gs) => ret (Some gs)
  | _ => ret None
  end.

(** [array.find(gen => gen.id === generationId)] *)
Definition findById (generationId : string) (gs : list Generation) : option Generation :=
  List.find (fun gen => bool_decide (id gen = generationId)) gs.

(** The rewrite of one document in [deleteGenerationData]: only a document
    that is an array is written back; a rejected write is let go. *)
Definition rewriteWithout (key generationId : string)
    (stored : option (list Generation)) : M unit :=
  match stored with
  | Some gs =>
      let* _ := setItem key (VGenerations (filter (fun gen => id gen ≠ generationId) gs)) in
      ret tt
  | None => ret tt
  end.

(** [deleteGenerationData(generationId, generation?)] *)
Definition deleteGenerationData (generationId : string) (generation : option Generation) : M unit :=
  let* storedGenerations := getDocument GENERATIONS_KEY in
  let* storedPending := getDocument PENDING_KEY in
  let resolvedGeneration :=
    match generation with
    | Some g => Some g
    | None =>
        match storedGenerations ≫= findById generationId with
        | Some g => Some g
        | None => storedPending ≫= findById generationId
        end
    end in
  let* _ := match resolvedGeneration with
            | Some g => removeGenerationAssets g
            | None => ret tt
            end in
  let* _ := rewriteWithout GENERATIONS_KEY generationId storedGenerations in
  rewriteWithout PENDING_KEY generationId storedPending.

End Storage.

(** ** [create-page.tsx] *)

Module CreatePage.

(** The component state the persistence engine reads and writes. The
    environment fields are [mathRandom], whose [n]-th value is what the
    [n]-th call of [Math.random().toString(36)] returns, and [dateGetTime],
    [new Date(s).getTime()] with [None] for [NaN]. *)
Record AppState := mkAppState {
  generations : list Generation;
  pendingGenerations : list Generation;
  favorites : gset string;
  apiKey : string;
  geminiApiKey : string;
  storageHydratedRef : bool;
  pendingHydratedRef : bool;
  pendingReconciledRef : bool;
  randomDraws : nat;
  browser : World;
  mathRandom : nat → string;
  dateGetTime : string → option Z
}.

Definition setGenerations (st : AppState) (gs : list Generation) : AppState :=
  {| generations := gs; pendingGenerations := pendingGenerations st;
     favorites := favorites st; apiKey := apiKey st;
     geminiApiKey := geminiApiKey st;
     storageHydratedRef := storageHydratedRef st;
     pendingHydratedRef := pendingHydratedRef st;
     pendingReconciledRef := pendingReconciledRef st;
     randomDraws := randomDraws st; browser := browser st;
     mathRandom := mathRandom st; dateGetTime := dateGetTime st |}.

Definition setPendingGenerations (st : AppState) (ps : list Generation) : AppState :=
  {| generations := generations st; pendingGenerations := ps;
     favorites := favorites st; apiKey := apiKey st;
     geminiApiKey := geminiApiKey st;
     storageHydratedRef := storageHydratedRef st;
     pendingHydratedRef := pendingHydratedRef st;
     pendingReconciledRef := pendingReconciledRef st;
     randomDraws := randomDraws st; browser := browser st;
     mathRandom := mathRandom st; dateGetTime := dateGetTime st |}.

Definition setFavorites (st : AppState) (fs : gset string) : AppState :=
  {| generations := generations st; pendingGenerations := pendingGenerations st;
     favorites := fs; apiKey := apiKey st;
     geminiApiKey := geminiApiKey st;
     storageHydratedRef := storageHydratedRef st;
     pendingHydratedRef := pendingHydratedRef st;
     pendingReconciledRef := pendingReconciledRef st;
     randomDraws := randomDraws st; browser := browser st;
     mathRandom := mathRandom st; dateGetTime := dateGetTime st |}.

(** [pendingReconciledRef.current = true; pendingHydratedRef.current = false] *)
Definition markReconciled (st : AppState) : AppState :=
  {| generations := generations st; pendingGenerations := pendingGenerations st;
     favorites := favorites st; apiKey := apiKey st;
     geminiApiKey := geminiApiKey st;
     storageHydratedRef := storageHydratedRef st;
     pendingHydratedRef := false;
     pendingReconciledRef := true;
     randomDraws := randomDraws st; browser := browser st;
     mathRandom := mathRandom st; dateGetTime := dateGetTime st |}.

Definition setRandomDraws (st : AppState) (n : nat) : AppState :=
  {| generations := generations st; pendingGenerations := pendingGenerations st;
     favorites := favorites st; apiKey := apiKey st;
     geminiApiKey := geminiApiKey st;
     storageHydratedRef := storageHydratedRef st;
     pendingHydratedRef := pendingHydratedRef st;
     pendingReconciledRef := pendingReconciledRef st;
     randomDraws := n; browser := browser st;
     mathRandom := mathRandom st; dateGetTime := dateGetTime st |}.

Definition setBrowser (st : AppState) (w : World) : AppState :=
  {| generations := generations st; pendingGenerations := pendingGenerations st;
     favorites := favorites st; apiKey := apiKey st;
     geminiApiKey := geminiApiKey st;
     storageHydratedRef := storageHydratedRef st;
     pendingHydratedRef := pendingHydratedRef st;
     pendingReconciledRef := pendingReconciledRef st;
     randomDraws := randomDraws st; browser := w;
     mathRandom := mathRandom st; dateGetTime := dateGetTime st |}.

(** [createId(prefix)] of [create-page/utils.ts]. *)
Definition createId (prefix : string) : St AppState string :=
  fun st =>
    (prefix +:+ "-" +:+ Js.slice 2 10 (mathRandom st (randomDraws st)),
     setRandomDraws st (S (randomDraws st))).

(** [apiKey.trim().length === 0 && geminiApiKey.trim().length === 0] *)
Definition noKeys (st : AppState) : bool :=
  Nat.eqb (String.length (Js.trim (apiKey st))) 0 &&
  Nat.eqb (String.length (Js.trim (geminiApiKey st))) 0.

(** The callback of [pendingGenerations.map] in the reconciliation effect. *)
Definition reconcileOne (existingIds : gset string) (gen : Generation) : St AppState Generation :=
  if decide (id gen ∈ existingIds) then
    let* newId := createId "generation" in
    ret (withId gen newId)
  else ret gen.

(** The pending reconciliation effect, to the end of its body:
    [clearPending()] is not awaited, and its removal of the document is
    read here as done when it is called. *)
Definition reconcilePending (st : AppState) : AppState :=
  if negb (storageHydratedRef st) || pendingReconciledRef st
     || negb (pendingHydratedRef st)
  then st
  else if Nat.eqb (length (pendingGenerations st)) 0 then markReconciled st
  else if noKeys st then
    let st1 := setPendingGenerations st [] in
    let st2 := setBrowser st1 (snd (Storage.clearPending (browser st1))) in
    markReconciled st2
  else
    let previous := generations st in
    let existingIds : gset string := list_to_set (map id previous) in
    let '(reconciled, st1) := mapAll (reconcileOne existingIds) (pendingGenerations st) st in
    let st2 := setGenerations st1 (reconciled ++ previous) in
    let st3 := setPendingGenerations st2 [] in
    markReconciled st3.



(** The comparator of [onGenerationsLoaded]:
    [new Date(b.createdAt).getTime() - new Date(a.createdAt).getTime()];
    a [NaN] result counts as [0]. *)
Definition newestFirst (getTime : string → option Z) (a b : Generation) : Z :=
  match getTime (createdAt b), getTime (createdAt a) with
  | Some tb, Some ta => (tb - ta)%Z
  | _, _ => 0%Z
  end.

(** The updater [onGenerationsLoaded] hands to [setGenerations]. *)
Definition mergeCloudGenerations (getTime : string → option Z)
    (cloudGenerations local : list Generation) : list Generation :=
  let localIds : gset string := list_to_set (map id local) in
  let cloudOnly := filter (fun g => id g ∉ localIds) cloudGenerations in
  if Nat.eqb (length cloudOnly) 0 then local
  else arraySort (newestFirst getTime) (local ++ cloudOnly).

Definition onGenerationsLoaded (cloudGenerations : list Generation) (st : AppState) : AppState :=
  setGenerations st (mergeCloudGenerations (dateGetTime st) cloudGenerations (generations st)).

Definition onFavoritesLoaded (cloudFavorites : gset string) (st : AppState) : AppState :=
  setFavorites st (favorites st ∪ cloudFavorites).

(** The updater of [handleToggleFavorite(generationId, imageIndex)]. *)
Definition toggleFavorite (generationId : string) (imageIndex : nat)
    (prev : gset string) : gset string :=
  let favoriteId := generationId +:+ ":" +:+ Js.ofIndex imageIndex in
  if decide (favoriteId ∈ prev) then prev ∖ {[favoriteId]}
  else prev ∪ {[favoriteId]}.

Definition handleToggleFavorite (generationId : string) (imageIndex : nat)
    (st : AppState) : AppState :=
  setFavorites st (toggleFavorite generationId imageIndex (favorites st)).


(** [STORAGE_KEYS.apiKey] and [STORAGE_KEYS.geminiApiKey] *)
Definition STORAGE_KEYS_apiKey : string := "seedream:api_key".
Definition STORAGE_KEYS_geminiApiKey : string := "seedream:gemini_api_key".

Definition setApiKey (st : AppState) (key : string) : AppState :=
  {| generations := generations st; pendingGenerations := pendingGenerations st;
     favorites := favorites st; apiKey := key;
     geminiApiKey := geminiApiKey st;
     storageHydratedRef := storageHydratedRef st;
     pendingHydratedRef := pendingHydratedRef st;
     pendingReconciledRef := pendingReconciledRef st;
     randomDraws := randomDraws st; browser := browser st;
     mathRandom := mathRandom st; dateGetTime := dateGetTime st |}.

Definition setGeminiApiKey (st : AppState) (key : string) : AppState :=
  {| generations := generations st; pendingGenerations := pendingGenerations st;
     favorites := favorites st; apiKey := apiKey st;
     geminiApiKey := key;
     storageHydratedRef := storageHydratedRef st;
     pendingHydratedRef := pendingHydratedRef st;
     pendingReconciledRef := pendingReconciledRef st;
     randomDraws := randomDraws st; browser := browser st;
     mathRandom := mathRandom st; dateGetTime := dateGetTime st |}.

(** The three refs of the hydration protocol. *)
Definition setHydration (st : AppState) (storageHydrated pendingHydrated
    pendingReconciled : bool) : AppState :=
  {| generations := generations st; pendingGenerations := pendingGenerations st;
     favorites := favorites st; apiKey := apiKey st;
     geminiApiKey := geminiApiKey st;
     storageHydratedRef := storageHydrated;
     pendingHydratedRef := pendingHydrated;
     pendingReconciledRef := pendingReconciled;
     randomDraws := randomDraws st; browser := browser st;
     mathRandom := mathRandom st; dateGetTime := dateGetTime st |}.

(** [loadState()] of the mount effect, for the state modelled here: the two
    keys read from [localStorage], the three loads from the store, and the
    refs. The loads of [Promise.all] are run in the order they are listed
    in, and each of them runs to its end. A rejection (of
    [restoreGenerations] or of [loadPending]) is caught: no list is set and
    the favourites are the empty set. The map over
    [outputFormat ?? defaultOutputFormat] leaves a record as it is, the
    field being a string here. *)
Definition loadState (st : AppState) : AppState :=
  let w := browser st in
  let st1 := match localStorage w !! STORAGE_KEYS_apiKey with
             | Some storedApiKey => setApiKey st storedApiKey
             | None => st
             end in
  let st2 := match localStorage w !! STORAGE_KEYS_geminiApiKey with
             | Some storedGeminiApiKey => setGeminiApiKey st1 storedGeminiApiKey
             | None => st1
             end in
  let '(restoredGenerations, w1) := Storage.restoreGenerations w in
  let '(restoredPending, w2) := Storage.loadPending w1 in
  let '(restoredFavorites, w3) := Storage.restoreFavorites w2 in
  let st3 := setBrowser st2 w3 in
  let '(generationData, pendingData, favoritesData) :=
    match restoredGenerations, restoredPending with
    | Some stored, Some pending => (stored, Some pending, restoredFavorites)
    | _, _ => (None, None, ∅)
    end in
  let pendingHydrated :=
    match pendingData with
    | Some pending => Nat.ltb 0 (length pending)
    | None => pendingHydratedRef st
    end in
  let st4 := match generationData with
             | Some gs => setGenerations st3 gs
             | None => st3
             end in
  let st5 := match pendingData with
             | Some ps => setPendingGenerations st4 ps
             | None => st4
             end in
  let st6 := setFavorites st5 favoritesData in
  setHydration st6 true pendingHydrated
    (if pendingHydrated then pendingReconciledRef st else true).

End CreatePage.

(** ** [lib/supabase/cloud-storage.ts] *)

Module CloudStorage.

(** A row of the [generations] table. *)
Record GenerationRow := mkGenerationRow {
  row_id : string;
  row_user_id : string;
  row_prompt : string;
  row_aspect : string;
  row_quality : string;
  row_output_format : string;
  row_provider : string;
  row_created_at : string;
  row_size_width : Z;
  row_size_height : Z;
  row_images : list string;
  row_input_images : list InputImage
}.

(** A row of the [favorites] table; [None] is the index [parseInt] could not
    read ([NaN], sent as [null]). *)
Record FavoriteRow := mkFavoriteRow {
  fav_user_id : string;
  fav_generation_id : string;
  fav_image_index : option Z
}.

(** What an insert or upsert request carries. *)
Inductive Upload :=
| UploadGenerations (rows : list GenerationRow)
| UploadFavorites (rows : list FavoriteRow).

(** The remote collaborator: the signed-in user, the tables, the insert
    and upsert requests sent so far (oldest first), and the environment. A request is answered with an error exactly when
    [requestFails] says so for its number (network error, policy or
    constraint violation); [storageUpload] is [uploadImage], from the image
    data, the bucket and the path to the public URL ([None]: it throws);
    [timestamptz] is the instant a [TIMESTAMPTZ] column holds for the text
    it was sent, and [timestamptzOut] the text a [select] prints for an
    instant. *)
Record Remote := mkRemote {
  sessionUser : option string;
  generationsTable : list GenerationRow;
  favoritesTable : list FavoriteRow;
  settingsTable : gmap string (option bool);
  uploads : list Upload;
  requests : nat;
  requestFails : nat → bool;
  storageUpload : string → string → string → option string;
  supabaseUrl : string;
  timestamptz : string → Z;
  timestamptzOut : Z → string
}.

Definition setGenerationsTable (r : Remote) (t : list GenerationRow) : Remote :=
  {| sessionUser := sessionUser r; generationsTable := t;
     favoritesTable := favoritesTable r; settingsTable := settingsTable r;
     uploads := uploads r; requests := requests r; requestFails := requestFails r;
     storageUpload := storageUpload r; supabaseUrl := supabaseUrl r;
     timestamptz := timestamptz r; timestamptzOut := timestamptzOut r |}.

Definition setFavoritesTable (r : Remote) (t : list FavoriteRow) : Remote :=
  {| sessionUser := sessionUser r; generationsTable := generationsTable r;
     favoritesTable := t; settingsTable := settingsTable r;
     uploads := uploads r; requests := requests r; requestFails := requestFails r;
     storageUpload := storageUpload r; supabaseUrl := supabaseUrl r;
     timestamptz := timestamptz r; timestamptzOut := timestamptzOut r |}.

Definition setRequests (r : Remote) (n : nat) : Remote :=
  {| sessionUser := sessionUser r; generationsTable := generationsTable r;
     favoritesTable := favoritesTable r; settingsTable := settingsTable r;
     uploads := uploads r; requests := n; requestFails := requestFails r;
     storageUpload := storageUpload r; supabaseUrl := supabaseUrl r;
     timestamptz := timestamptz r; timestamptzOut := timestamptzOut r |}.

Definition logUpload (u : Upload) : St Remote unit :=
  fun r =>
    (tt, {| sessionUser := sessionUser r; generationsTable := generationsTable r;
            favoritesTable := favoritesTable r; settingsTable := settingsTable r;
            uploads := (uploads r ++ [u])%list; requests := requests r;
            requestFails := requestFails r;
            storageUpload := storageUpload r; supabaseUrl := supabaseUrl r;
            timestamptz := timestamptz r; timestamptzOut := timestamptzOut r |}).

(** One request to the remote: [true] when it is answered without error. *)
Definition request : St Remote bool :=
  fun r => (negb (requestFails r (requests r)), setRequests r (S (requests r))).

Definition toDbFormat (generation : Generation) (userId : string) : GenerationRow :=
  {| row_id := id generation; row_user_id := userId;
     row_prompt := prompt generation; row_aspect := aspect generation;
     row_quality := quality generation;
     row_output_format := outputFormat generation;
     row_provider := provider generation;
     row_created_at := createdAt generation;
     row_size_width := size_width generation;
     row_size_height := size_height generation;
     row_images := images generation;
     row_input_images := inputImages generation |}.

Definition fromDbFormat (row : GenerationRow) : Generation :=
  {| id := row_id row; prompt := row_prompt row; aspect := row_aspect row;
     quality := row_quality row; outputFormat := row_output_format row;
     provider := row_provider row; createdAt := row_created_at row;
     size_width := row_size_width row; size_height := row_size_height row;
     images := row_images row; inputImages := row_input_images row |}.

(** [upsert(rows, { onConflict: "id" })] on the table, row by row: a row
    whose id is in the table replaces the row of that id, any other row is
    added. *)
Definition upsertRow (table : list GenerationRow) (row : GenerationRow) : list GenerationRow :=
  if decide (row_id row ∈ map row_id table)
  then map (fun r => if decide (row_id r = row_id row) then row else r) table
  else (table ++ [row])%list.

Definition upsertRows (rows table : list GenerationRow) : list GenerationRow :=
  foldl upsertRow table rows.

(** The upsert request: [None] when the remote answers with an error. *)
Definition upsertGenerations (rows : list GenerationRow) : St Remote (option unit) :=
  let* _ := logUpload (UploadGenerations rows) in
  let* ok := request in
  if ok then fun r => (Some tt, setGenerationsTable r (upsertRows rows (generationsTable r)))
  else ret None.

(** [saveGenerationsToCloud(generations)]; [None] when it throws. *)
Definition saveGenerationsToCloud (generations : list Generation) : St Remote (option unit) :=
  fun r =>
    match sessionUser r with
    | None => (None, r)
    | Some user => upsertGenerations (map (fun gen => toDbFormat gen user) generations) r
    end.

(** The order of [.order("created_at", { ascending: false })]. *)
Definition createdAtDescending (ts : string → Z) (a b : GenerationRow) : Z :=
  (ts (row_created_at b) - ts (row_created_at a))%Z.

(** A row as [select("*")] returns it. The table keeps a row as it was
    sent; its [created_at] column is a [TIMESTAMPTZ], which holds the
    instant of the text sent and is printed again from that instant, so
    the text that comes back need not be the text that went in. The other
    columns are text, integers, a text array and JSON, and come back as
    sent. *)
Definition selectRow (r : Remote) (row : GenerationRow) : GenerationRow :=
  {| row_id := row_id row; row_user_id := row_user_id row;
     row_prompt := row_prompt row; row_aspect := row_aspect row;
     row_quality := row_quality row;
     row_output_format := row_output_format row;
     row_provider := row_provider row;
     row_created_at := timestamptzOut r (timestamptz r (row_created_at row));
     row_size_width := row_size_width row;
     row_size_height := row_size_height row;
     row_images := row_images row;
     row_input_images := row_input_images row |}.

Definition loadGenerationsFromCloud : St Remote (option (list Generation)) :=
  fun r =>
    match sessionUser r with
    | None => (Some [], r)
    | Some user =>
        (let* ok := request in
         if ok then fun r' =>
           let data := map (selectRow r')
                         (arraySort (createdAtDescending (timestamptz r'))
                            (filter (fun row => row_user_id row = user)
                                    (generationsTable r'))) in
           (Some (map fromDbFormat data), r')
         else ret None) r
    end.

(** [str.split(":")] *)
Fixpoint splitColon (s : string) : list string :=
  match s with
  | EmptyString => [EmptyString]
  | String c s' =>
      if Ascii.eqb c (":" : Ascii.ascii)%char then EmptyString :: splitColon s'
      else match splitColon s' with
           | part :: parts => String c part :: parts
           | [] => [String c EmptyString]
           end
  end.

Definition digitValue (c : Ascii.ascii) : option Z :=
  let n := Ascii.nat_of_ascii c in
  if Nat.leb 48 n && Nat.leb n 57 then Some (Z.of_nat (n - 48)) else None.

(** The value of the leading decimal digits of [s] after [acc], and
    whether there was a digit. *)
Fixpoint leadingDigits (s : string) (acc : Z) (seen : bool) : Z * bool :=
  match s with
  | EmptyString => (acc, seen)
  | String c s' =>
      match digitValue c with
      | Some d => leadingDigits s' (10 * acc + d)%Z true
      | None => (acc, seen)
      end
  end.

(** [parseInt(s, 10)]; the argument [None] is [undefined], the result
    [None] is [NaN]. *)
Definition parseInt (s : option string) : option Z :=
  match s with
  | None => None
  | Some str =>
      let t := Js.trimStart str in
      let '(negative, body) :=
        match t with
        | String c t' =>
            if Ascii.eqb c ("-" : Ascii.ascii)%char then (true, t')
            else if Ascii.eqb c ("+" : Ascii.ascii)%char then (false, t')
            else (false, t)
        | EmptyString => (false, t)
        end in
      let '(v, seen) := leadingDigits body 0 false in
      if seen then Some (if negative : bool then (- v)%Z else v) else None
  end.

(** The row [saveFavoritesToCloud] builds for a favourite. *)
Definition favoriteRow (userId fav : string) : FavoriteRow :=
  let parts := splitColon fav in
  {| fav_user_id := userId;
     fav_generation_id := default "" (parts !! 0%nat);
     fav_image_index := parseInt (parts !! 1%nat) |}.

(** [saveFavoritesToCloud(favorites)]: the delete's answer is not looked
    at, the insert's is. *)
Definition saveFavoritesToCloud (favorites : gset string) : St Remote (option unit) :=
  fun r =>
    match sessionUser r with
    | None => (None, r)
    | Some user =>
        (let* deleted := request in
         let* _ := (fun r' =>
                      if deleted : bool
                      then (tt, setFavoritesTable r'
                                  (filter (fun row => fav_user_id row ≠ user) (favoritesTable r')))
                      else (tt, r')) in
         let rows := map (favoriteRow user) (elements favorites) in
         if Nat.ltb 0 (length rows) then
           let* _ := logUpload (UploadFavorites rows) in
           let* ok := request in
           if ok then fun r' => (Some tt, setFavoritesTable r' (favoritesTable r' ++ rows))
           else ret None
         else ret (Some tt)) r
    end.

(** [`${row.generation_id}:${row.image_index}`] *)
Definition favoriteKeyOfRow (row : FavoriteRow) : string :=
  fav_generation_id row +:+ ":" +:+
  match fav_image_index row with
  | Some z => pretty z
  | None => "null"
  end.

Definition loadFavoritesFromCloud : St Remote (option (gset string)) :=
  fun r =>
    match sessionUser r with
    | None => (Some ∅, r)
    | Some user =>
        (let* ok := request in
         if ok then fun r' =>
           let data := filter (fun row => fav_user_id row = user) (favoritesTable r') in
           (Some (list_to_set (map favoriteKeyOfRow data)), r')
         else ret None) r
    end.

(** [loadSettingsFromCloud()], read for its [syncImages] entry: the inner
    [None] is a result without that entry. *)
Definition loadSettingsFromCloud : St Remote (option (option bool)) :=
  fun r =>
    match sessionUser r with
    | None => (Some None, r)
    | Some user =>
        (let* ok := request in
         if ok then fun r' => (Some (mjoin (settingsTable r' !! user)), r')
         else ret None) r
    end.

Definition GENERATIONS_BUCKET : string := "generations".

Definition isBase64DataUrl (str : string) : bool := Js.startsWith str "data:image/".

Definition isBlobUrl (str : string) : bool := Js.startsWith str "blob:".

Definition needsUpload (imageUrl supabaseUrl : string) : bool :=
  if Js.includes imageUrl supabaseUrl && Js.includes imageUrl "/storage/" then false
  else if isBase64DataUrl imageUrl then true
  else if isBlobUrl imageUrl then true
  else false.

(** The body of the loop of [uploadGenerationImages] for the image [i]. *)
Definition uploadOne (generationId : string) (i : nat) (imageUrl : string) : St Remote string :=
  fun r =>
    if negb (Js.truthy imageUrl) || negb (Js.truthy (Js.trim imageUrl)) then (imageUrl, r)
    else if needsUpload imageUrl (supabaseUrl r) then
      match storageUpload r imageUrl GENERATIONS_BUCKET
              (generationId +:+ "/" +:+ Js.ofIndex i) with
      | Some newUrl => (newUrl, r)
      | None => (imageUrl, r)
      end
    else (imageUrl, r).

Definition uploadGenerationImages (generationId : string) (imgs : list string) : St Remote (list string) :=
  mapIndexed (uploadOne generationId) 0 imgs.

(** The body of the loop of [saveGenerationsWithImages]. *)
Definition processGeneration (uploadImages : bool) (gen : Generation) : St Remote Generation :=
  if uploadImages && existsb isBase64DataUrl (images gen) then
    let* imgs := uploadGenerationImages (id gen) (images gen) in
    ret (withImages gen imgs (inputImages gen))
  else ret (withImages gen (images gen) (inputImages gen)).

(** [saveGenerationsWithImages(generations, uploadImages)]; [None] when it
    throws. *)
Definition saveGenerationsWithImages (generations : list Generation)
    (uploadImages : bool) : St Remote (option unit) :=
  fun r =>
    match sessionUser r with
    | None => (None, r)
    | Some user =>
        (let* processedGenerations := mapAll (processGeneration uploadImages) generations in
         upsertGenerations (map (fun gen => toDbFormat gen user) processedGenerations)) r
    end.

(** [deleteGenerationFromCloud(generationId)]; [None] when it throws. The
    rows of the [favorites] table reference [generations(id)] with
    [ON DELETE CASCADE], so they go with a row that is deleted. *)
Definition deleteGenerationFromCloud (generationId : string) : St Remote (option unit) :=
  fun r =>
    match sessionUser r with
    | None => (None, r)
    | Some user =>
        (let* ok := request in
         if ok then fun r' =>
           let matches (row : GenerationRow) : Prop :=
             row_id row = generationId ∧ row_user_id row = user in
           let r1 := setGenerationsTable r'
                       (filter (fun row => ¬ matches row) (generationsTable r')) in
           (Some tt,
            if Nat.ltb 0 (length (filter matches (generationsTable r')))
            then setFavoritesTable r1
                   (filter (fun fav => fav_generation_id fav ≠ generationId)
                           (favoritesTable r1))
            else r1)
         else ret None) r
    end.

Definition setSettingsTable (r : Remote) (t : gmap string (option bool)) : Remote :=
  {| sessionUser := sessionUser r; generationsTable := generationsTable r;
     favoritesTable := favoritesTable r; settingsTable := t;
     uploads := uploads r; requests := requests r; requestFails := requestFails r;
     storageUpload := storageUpload r; supabaseUrl := supabaseUrl r;
     timestamptz := timestamptz r; timestamptzOut := timestamptzOut r |}.

(** [saveSettingsToCloud({ syncImages })]: the upsert on [user_id] of the
    settings object; [None] when it throws. *)
Definition saveSettingsToCloud (syncImages : bool) : St Remote (option unit) :=
  fun r =>
    match sessionUser r with
    | None => (None, r)
    | Some user =>
        (let* ok := request in
         if ok then fun r' =>
           (Some tt, setSettingsTable r' (<[user := Some syncImages]> (settingsTable r')))
         else ret None) r
    end.

(** [syncLocalToCloud(generations, favorites)]; [None] when it throws. *)
Definition syncLocalToCloud (generations : list Generation) (favorites : gset string)
    : St Remote (option unit) :=
  fun r =>
    match sessionUser r with
    | None => (None, r)
    | Some _ =>
        (try* cloudGenerations := loadGenerationsFromCloud in
         let cloudGenIds : gset string := list_to_set (map id cloudGenerations) in
         let newGenerations := filter (fun g => id g ∉ cloudGenIds) generations in
         try* _ := (if Nat.ltb 0 (length newGenerations)
                    then saveGenerationsToCloud newGenerations
                    else ret (Some tt)) in
         try* cloudFavorites := loadFavoritesFromCloud in
         saveFavoritesToCloud (cloudFavorites ∪ favorites)) r
    end.

End CloudStorage.

(** ** [create-page/use-cloud-sync.ts] *)

Module CloudSync.

Import CreatePage CloudStorage.

(** The value of a last-synced ref: the empty string it starts with, or
    [JSON.stringify] of an array of ids. [JSON.stringify] is injective on
    arrays of strings and [JSON.parse] inverts it, so the array stands for
    the string. *)
Inductive SyncKey :=
| KeyEmpty
| KeyJson (ids : list string).

#[global] Instance SyncKey_eq_dec : EqDecision SyncKey.
Proof. solve_decision. Defined.

(** [JSON.parse(ref || "[]")] *)
Definition parseKey (k : SyncKey) : list string :=
  match k with
  | KeyEmpty => []
  | KeyJson ids => ids
  end.

Record SyncRefs := mkSyncRefs {
  prevUserIdRef : option string;
  syncInProgressRef : bool;
  initialSyncDoneRef : bool;
  lastSyncedGenerationsRef : SyncKey;
  lastSyncedFavoritesRef : SyncKey;
  syncImages : bool
}.

(** The hook's world: the component state, the hook's refs and state, and
    the remote. *)
Record Hook := mkHook {
  app : AppState;
  refs : SyncRefs;
  remote : Remote
}.

Definition setApp (h : Hook) (a : AppState) : Hook :=
  {| app := a; refs := refs h; remote := remote h |}.

Definition setRefs (h : Hook) (r : SyncRefs) : Hook :=
  {| app := app h; refs := r; remote := remote h |}.

Definition liftRemote {A} (m : St Remote A) : St Hook A :=
  fun h => let '(a, r) := m (remote h) in
           (a, {| app := app h; refs := refs h; remote := r |}).

Definition setSyncInProgress (b : bool) (h : Hook) : Hook :=
  setRefs h {| prevUserIdRef := prevUserIdRef (refs h);
               syncInProgressRef := b;
               initialSyncDoneRef := initialSyncDoneRef (refs h);
               lastSyncedGenerationsRef := lastSyncedGenerationsRef (refs h);
               lastSyncedFavoritesRef := lastSyncedFavoritesRef (refs h);
               syncImages := syncImages (refs h) |}.

Definition setInitialSyncDone (b : bool) (h : Hook) : Hook :=
  setRefs h {| prevUserIdRef := prevUserIdRef (refs h);
               syncInProgressRef := syncInProgressRef (refs h);
               initialSyncDoneRef := b;
               lastSyncedGenerationsRef := lastSyncedGenerationsRef (refs h);
               lastSyncedFavoritesRef := lastSyncedFavoritesRef (refs h);
               syncImages := syncImages (refs h) |}.

Definition setLastSyncedGenerations (k : SyncKey) (h : Hook) : Hook :=
  setRefs h {| prevUserIdRef := prevUserIdRef (refs h);
               syncInProgressRef := syncInProgressRef (refs h);
               initialSyncDoneRef := initialSyncDoneRef (refs h);
               lastSyncedGenerationsRef := k;
               lastSyncedFavoritesRef := lastSyncedFavoritesRef (refs h);
               syncImages := syncImages (refs h) |}.

Definition setLastSyncedFavorites (k : SyncKey) (h : Hook) : Hook :=
  setRefs h {| prevUserIdRef := prevUserIdRef (refs h);
               syncInProgressRef := syncInProgressRef (refs h);
               initialSyncDoneRef := initialSyncDoneRef (refs h);
               lastSyncedGenerationsRef := lastSyncedGenerationsRef (refs h);
               lastSyncedFavoritesRef := k;
               syncImages := syncImages (refs h) |}.

Definition setPrevUserId (u : option string) (h : Hook) : Hook :=
  setRefs h {| prevUserIdRef := u;
               syncInProgressRef := syncInProgressRef (refs h);
               initialSyncDoneRef := initialSyncDoneRef (refs h);
               lastSyncedGenerationsRef := lastSyncedGenerationsRef (refs h);
               lastSyncedFavoritesRef := lastSyncedFavoritesRef (refs h);
               syncImages := syncImages (refs h) |}.

Definition SYNC_IMAGES_KEY : string := "nano-banana-sync-images".

(** [handleSetSyncImages(value)] *)
Definition handleSetSyncImages (value : bool) (h : Hook) : Hook :=
  let h1 :=
    setRefs h {| prevUserIdRef := prevUserIdRef (refs h);
                 syncInProgressRef := syncInProgressRef (refs h);
                 initialSyncDoneRef := initialSyncDoneRef (refs h);
                 lastSyncedGenerationsRef := lastSyncedGenerationsRef (refs h);
                 lastSyncedFavoritesRef := lastSyncedFavoritesRef (refs h);
                 syncImages := value |} in
  let w := browser (app h1) in
  setApp h1 (setBrowser (app h1)
               (setLocalStorage w
                  (<[SYNC_IMAGES_KEY := if value then "true" else "false"]> (localStorage w)))).

(** A step that runs only under its guard. *)
Definition when {Σ} (guard : bool) (m : St Σ (option unit)) : St Σ (option unit) :=
  if guard then m else ret (Some tt).

Definition modify {Σ} (f : Σ → Σ) : St Σ (option unit) :=
  fun h => (Some tt, f h).

(** The [try] block of [syncWithCloud], first part: the settings, the
    records and the favourites of the cloud are loaded. *)
Definition loadCloud : St Hook (option (list Generation * gset string)) :=
  try* cloudSettings := liftRemote loadSettingsFromCloud in
  try* _ := match cloudSettings with
            | Some value => modify (handleSetSyncImages value)
            | None => ret (Some tt)
            end in
  let* loadedGenerations := liftRemote loadGenerationsFromCloud in
  let* loadedFavorites := liftRemote loadFavoritesFromCloud in
  match loadedGenerations, loadedFavorites with
  | Some cloudGenerations, Some cloudFavorites =>
      ret (Some (cloudGenerations, cloudFavorites))
  | _, _ => ret None
  end.

(** Second part: the local-only records and favourites are uploaded.
    [generations], [favorites] and [uploadWithImages] are the values the
    effect closed over. *)
Definition uploadLocalOnly (generations : list Generation) (favorites : gset string)
    (uploadWithImages : bool) (cloudGenerations : list Generation)
    (cloudFavorites : gset string) : St Hook (option unit) :=
  let cloudGenIds : gset string := list_to_set (map id cloudGenerations) in
  let localOnlyGenerations := filter (fun g => id g ∉ cloudGenIds) generations in
  let localOnlyFavorites : gset string :=
    list_to_set (filter (fun f => f ∉ cloudFavorites) (elements favorites)) in
  try* _ := when (Nat.ltb 0 (length localOnlyGenerations))
              (liftRemote (saveGenerationsWithImages localOnlyGenerations uploadWithImages)) in
  when (Nat.ltb 0 (size localOnlyFavorites))
    (liftRemote (saveFavoritesToCloud (cloudFavorites ∪ favorites))).

(** Third part: the cloud-only records and the cloud favourites are handed
    to the component, and the refs are set. *)
Definition mergeCloudIntoLocal (generations : list Generation) (favorites : gset string)
    (cloudGenerations : list Generation) (cloudFavorites : gset string)
    (h : Hook) : Hook :=
  let localIds : gset string := list_to_set (map id generations) in
  let cloudOnlyGenerations := filter (fun g => id g ∉ localIds) cloudGenerations in
  let h1 := if Nat.ltb 0 (length cloudOnlyGenerations)
            then setApp h (onGenerationsLoaded cloudOnlyGenerations (app h))
            else h in
  let h2 := if Nat.ltb 0 (size cloudFavorites)
            then setApp h1 (onFavoritesLoaded cloudFavorites (app h1))
            else h1 in
  let allGenerationIds := dedupe (map id cloudGenerations ++ map id generations) in
  let h3 := setLastSyncedGenerations
              (KeyJson (arraySort compareStrings allGenerationIds)) h2 in
  let allFavoriteIds := elements (cloudFavorites ∪ favorites) in
  let h4 := setLastSyncedFavorites
              (KeyJson (arraySort compareStrings allFavoriteIds)) h3 in
  setInitialSyncDone true h4.

(** The [try] block of [syncWithCloud]. *)
Definition syncWithCloudBody (generations : list Generation) (favorites : gset string)
    (uploadWithImages : bool) : St Hook (option unit) :=
  try* cloud := loadCloud in
  try* _ := uploadLocalOnly generations favorites uploadWithImages cloud.1 cloud.2 in
  modify (mergeCloudIntoLocal generations favorites cloud.1 cloud.2).

(** [syncWithCloud()], called by the sign-in effect. *)
Definition syncWithCloud (h : Hook) : Hook :=
  let generations := CreatePage.generations (app h) in
  let favorites := CreatePage.favorites (app h) in
  let uploadWithImages := syncImages (refs h) in
  let h0 := setSyncInProgress true h in
  let '(_, h1) := syncWithCloudBody generations favorites uploadWithImages h0 in
  setSyncInProgress false h1.

(** The first effect of the hook: sign-in and sign-out. *)
Definition signInEffect (h : Hook) : Hook :=
  let currentUserId := sessionUser (remote h) in
  let previousUserId := prevUserIdRef (refs h) in
  let h1 :=
    match currentUserId, previousUserId with
    | Some _, None => if initialSyncDoneRef (refs h) then h else syncWithCloud h
    | _, _ => h
    end in
  let h2 :=
    match currentUserId, previousUserId with
    | None, Some _ =>
        setLastSyncedFavorites KeyEmpty
          (setLastSyncedGenerations KeyEmpty (setInitialSyncDone false h1))
    | _, _ => h1
    end in
  setPrevUserId currentUserId h2.

(** [JSON.stringify(generations.map(g => g.id).sort())] *)
Definition generationsKey (generations : list Generation) : SyncKey :=
  KeyJson (arraySort compareStrings (map id generations)).

(** [newGenerations] of [syncGenerations]. *)
Definition newGenerations (lastSynced : SyncKey) (generations : list Generation) : list Generation :=
  let lastSyncedIds : gset string := list_to_set (parseKey lastSynced) in
  filter (fun g => id g ∉ lastSyncedIds) generations.

(** [syncGenerations()], the timer's callback; the arguments are the
    values the effect closed over. *)
Definition syncGenerations (generations : list Generation) (currentGenerationsKey : SyncKey)
    (uploadWithImages : bool) (h : Hook) : Hook :=
  let h0 := setSyncInProgress true h in
  let fresh := newGenerations (lastSyncedGenerationsRef (refs h0)) generations in
  let '(_, h1) :=
    (try* _ := when (Nat.ltb 0 (length fresh))
                 (liftRemote (saveGenerationsWithImages fresh uploadWithImages)) in
     modify (setLastSyncedGenerations currentGenerationsKey)) h0 in
  setSyncInProgress false h1.

(** The second effect, with its timer fired. *)
Definition generationsEffect (h : Hook) : Hook :=
  match sessionUser (remote h) with
  | None => h
  | Some _ =>
      if syncInProgressRef (refs h) || negb (initialSyncDoneRef (refs h)) then h
      else
        let generations := CreatePage.generations (app h) in
        let currentGenerationsKey := generationsKey generations in
        if decide (currentGenerationsKey = lastSyncedGenerationsRef (refs h)) then h
        else syncGenerations generations currentGenerationsKey (syncImages (refs h)) h
  end.

(** [JSON.stringify(Array.from(favorites).sort())] *)
Definition favoritesKey (favorites : gset string) : SyncKey :=
  KeyJson (arraySort compareStrings (elements favorites)).

(** [syncFavorites()], the timer's callback. *)
Definition syncFavorites (favorites : gset string) (currentFavoritesKey : SyncKey)
    (h : Hook) : Hook :=
  let '(_, h1) :=
    (try* _ := liftRemote (saveFavoritesToCloud favorites) in
     modify (setLastSyncedFavorites currentFavoritesKey)) h in
  h1.

(** The third effect, with its timer fired. *)
Definition favoritesEffect (h : Hook) : Hook :=
  match sessionUser (remote h) with
  | None => h
  | Some _ =>
      if negb (initialSyncDoneRef (refs h)) then h
      else
        let favorites := CreatePage.favorites (app h) in
        let currentFavoritesKey := favoritesKey favorites in
        if decide (currentFavoritesKey = lastSyncedFavoritesRef (refs h)) then h
        else syncFavorites favorites currentFavoritesKey h
  end.

(** The initial value of the [syncImages] state:
    [stored !== null ? stored === "true" : true]. *)
Definition initialSyncImages (w : World) : bool :=
  match localStorage w !! SYNC_IMAGES_KEY with
  | Some stored => bool_decide (stored = "true")
  | None => true
  end.

(** The fourth effect: the image setting is saved to the cloud; an error is
    logged and dropped. *)
Definition settingsEffect (h : Hook) : Hook :=
  match sessionUser (remote h) with
  | None => h
  | Some _ =>
      if negb (initialSyncDoneRef (refs h)) then h
      else (liftRemote (saveSettingsToCloud (syncImages (refs h))) h).2
  end.

End CloudSync.

(** ** Concrete states

    The states the examples and the instances of the theorems run on. *)

Module Examples.

Import Storage CreatePage CloudStorage CloudSync.

(** A world where every fetch succeeds and every write goes through. *)
Definition onlineWorld : World :=
  {| store := ∅; localStorage := ∅; objectURLs := [];
     fetchBlob := fun url => Some (mkBlob "image/png" url);
     jsonParse := fun _ => None;
     setItemFails := fun _ => false |}.


(** A record with a raw image, an empty slot and a raw input image. *)
Definition rawRecord : Generation :=
  {| id := "g"; prompt := "a cat"; aspect := "square-1-1"; quality := "2k";
     outputFormat := "png"; provider := "fal";
     createdAt := "2025-01-01T00:00:00.000Z";
     size_width := 1024; size_height := 1024;
     images := ["data:image/png;base64,AAAA"; ""];
     inputImages := [mkInputImage "att-1" "cat.png" "https://example.org/cat.png" None None] |}.

(** A record with two references. *)
Definition holedRecord : Generation :=
  {| id := "g"; prompt := "a cat"; aspect := "square-1-1";
     quality := "2k"; outputFormat := "png"; provider := "fal";
     createdAt := "2025-01-01T00:00:00.000Z";
     size_width := 1024; size_height := 1024;
     images := ["ref:img:g:0"; "ref:img:g:1"];
     inputImages := [] |}.

(** A store that holds the document of [holedRecord] and a payload for
    its second reference only. *)
Definition holedWorld : World :=
  {| store :=
       {[ GENERATIONS_KEY := VGenerations [holedRecord];
          "img:g:1" := VBlob (mkBlob "image/png" "bytes") ]};
     localStorage := ∅; objectURLs := [];
     fetchBlob := fun _ => None; jsonParse := fun _ => None;
     setItemFails := fun _ => false |}.

(** A pending record left by an interrupted session. *)
Definition interruptedRecord : Generation :=
  {| id := "pending-4fzyo82m"; prompt := "a cat"; aspect := "square-1-1";
     quality := "2k"; outputFormat := "png"; provider := "fal";
     createdAt := "2025-01-01T00:00:00.000Z";
     size_width := 1024; size_height := 1024;
     images := [""; ""; ""; ""]; inputImages := [] |}.

(** The state after a restart: [interruptedRecord] restored as pending,
    the completed records [completed], and [key] as the first API key. *)
Definition restartedState (key : string) (completed : list Generation) : AppState :=
  {| generations := completed; pendingGenerations := [interruptedRecord];
     favorites := ∅; apiKey := key; geminiApiKey := "";
     storageHydratedRef := true; pendingHydratedRef := true;
     pendingReconciledRef := false; randomDraws := 0;
     browser :=
       {| store := {[ PENDING_KEY := VGenerations [interruptedRecord] ]};
          localStorage := ∅; objectURLs := [];
          fetchBlob := fun _ => None; jsonParse := fun _ => None;
          setItemFails := fun _ => false |};
     mathRandom := fun n => "0." +:+ pretty n +:+ "k3v9x2m7q";
     dateGetTime := fun _ => None |}.

(** A remote with a signed-in user, empty tables and no failing request. *)
Definition freshRemote : Remote :=
  {| sessionUser := Some "user-1"; generationsTable := []; favoritesTable := [];
     settingsTable := ∅; uploads := []; requests := 0;
     requestFails := fun _ => false;
     storageUpload := fun data _ path => Some ("https://cdn.example/storage/" +:+ path);
     supabaseUrl := "https://cdn.example";
     timestamptz := fun _ => 0%Z;
     timestamptzOut := fun _ => "2025-01-01T00:00:00+00:00" |}.

(** A completed record of id [i], prompt [p] and images [imgs]. *)
Definition sampleRecord (i p : string) (imgs : list string) : Generation :=
  {| id := i; prompt := p; aspect := "square-1-1"; quality := "2k";
     outputFormat := "png"; provider := "fal";
     createdAt := "2025-01-01T00:00:00.000Z";
     size_width := 1024; size_height := 1024;
     images := imgs; inputImages := [] |}.

(** A signed-in session after the initial sync: two favourites, the first
    of them in the last-synced snapshot and in the remote table. *)
Definition syncedHook : Hook :=
  {| app :=
       {| generations := []; pendingGenerations := [];
          favorites := {["generation-a1:0"; "generation-b2:1"]};
          apiKey := "sk-live"; geminiApiKey := "";
          storageHydratedRef := true; pendingHydratedRef := false;
          pendingReconciledRef := true; randomDraws := 0;
          browser := onlineWorld;
          mathRandom := fun _ => "0.4fzyo82mvyr";
          dateGetTime := fun _ => None |};
     refs :=
       {| prevUserIdRef := Some "user-1"; syncInProgressRef := false;
          initialSyncDoneRef := true;
          lastSyncedGenerationsRef := KeyJson [];
          lastSyncedFavoritesRef := KeyJson ["generation-a1:0"];
          syncImages := true |};
     remote :=
       {| sessionUser := Some "user-1"; generationsTable := [];
          favoritesTable := [mkFavoriteRow "user-1" "generation-a1" (Some 0%Z)];
          settingsTable := ∅; uploads := []; requests := 0;
          requestFails := fun _ => false;
          storageUpload := fun _ _ _ => None;
          supabaseUrl := "https://cdn.example";
          timestamptz := fun _ => 0%Z;
     timestamptzOut := fun _ => "2025-01-01T00:00:00+00:00" |} |}.

(** A session that is signing in: the local record of id "1", and a remote
    that holds another record of id "1" and a record of id "2". *)
Definition signingInHook : Hook :=
  {| app :=
       {| generations := [sampleRecord "1" "local prompt" []];
          pendingGenerations := []; favorites := ∅;
          apiKey := "sk-live"; geminiApiKey := "";
          storageHydratedRef := true; pendingHydratedRef := false;
          pendingReconciledRef := true; randomDraws := 0;
          browser := onlineWorld;
          mathRandom := fun _ => "0.4fzyo82mvyr";
          dateGetTime := fun _ => None |};
     refs :=
       {| prevUserIdRef := None; syncInProgressRef := false;
          initialSyncDoneRef := false;
          lastSyncedGenerationsRef := KeyEmpty;
          lastSyncedFavoritesRef := KeyEmpty;
          syncImages := true |};
     remote :=
       {| sessionUser := Some "user-1";
          generationsTable :=
            [toDbFormat (sampleRecord "1" "remote prompt" []) "user-1";
             toDbFormat (sampleRecord "2" "other device" []) "user-1"];
          favoritesTable := [];
          settingsTable := ∅; uploads := []; requests := 0;
          requestFails := fun _ => false;
          storageUpload := fun _ _ _ => None;
          supabaseUrl := "https://cdn.example";
          timestamptz := fun _ => 0%Z;
     timestamptzOut := fun _ => "2025-01-01T00:00:00+00:00" |} |}.

End Examples.

(** * Properties *)

(** ** Strings *)

Module JsFacts.

Import Js.

Lemma prefix_app (p s : string) : String.prefix p (p +:+ s) = true.
Proof.
  induction p as [|c p IH]; simpl.
  - by destruct s.
  - destruct (Ascii.ascii_dec c c); [exact IH | done].
Qed.

Lemma drop_app (p s : string) : drop (String.length p) (p +:+ s) = s.
Proof. induction p as [|c p IH]; simpl; [done | exact IH]. Qed.

Lemma replace_at_prefix (pat rep s : string) :
  String.prefix pat s = true → replace pat rep s = rep +:+ drop (String.length pat) s.
Proof. intros H. destruct s; cbn [replace]; by rewrite H. Qed.

Lemma replace_prefix (p s : string) : replace p "" (p +:+ s) = s.
Proof. rewrite replace_at_prefix; [by rewrite drop_app | apply prefix_app]. Qed.

Lemma prefix_split (p s : string) :
  String.prefix p s = true → ∃ t, s = p +:+ t.
Proof.
  revert s. induction p as [|c p IH]; intros s H.
  - by exists s.
  - destruct s as [|d s]; simpl in H; [done|].
    destruct (Ascii.ascii_dec c d) as [->|]; [|done].
    destruct (IH _ H) as [t ->]. by exists t.
Qed.

Lemma truthy_false (s : string) : truthy s = false ↔ s = "".
Proof. destruct s; simpl; split; congruence. Qed.


Lemma truthy_true (s : string) : truthy s = true ↔ s ≠ "".
Proof. destruct s; simpl; split; congruence. Qed.

End JsFacts.

(** ** Traversals *)

Lemma mapIndexed_cons {Σ A B} (f : nat → A → St Σ B) (n : nat) (x : A) (xs : list A) (w : Σ) :
  mapIndexed f n (x :: xs) w =
  let '(y, w1) := f n x w in
  let '(ys, w2) := mapIndexed f (S n) xs w1 in
  (y :: ys, w2).
Proof.
  cbn [mapIndexed]. unfold bind. destruct (f n x w) as [y w1].
  by destruct (mapIndexed f (S n) xs w1).
Qed.

Lemma mapIndexed_length {Σ A B} (f : nat → A → St Σ B) (n : nat) (xs : list A) (w : Σ) :
  length (mapIndexed f n xs w).1 = length xs.
Proof.
  revert n w. induction xs as [|x xs IH]; intros n w; [done|].
  rewrite mapIndexed_cons. destruct (f n x w) as [y w1].
  specialize (IH (S n) w1). destruct (mapIndexed f (S n) xs w1) as [ys w2].
  cbn [fst length] in *. by rewrite IH.
Qed.

(** A traversal keeps what every step keeps: when each step moves the
    state along the preorder [R] and establishes [Q] of its result, and [Q]
    is stable along [R], the traversal moves the state along [R] and [Q]
    holds of every result in the final state. *)
Lemma mapIndexed_inv {Σ A B} (R : Σ → Σ → Prop) `{!Reflexive R, !Transitive R}
    (Q : nat → A → B → Σ → Prop) (f : nat → A → St Σ B) (w0 : Σ) (xs : list A) :
  (∀ n a b w w', Q n a b w → R w w' → Q n a b w') →
  Forall (fun a => ∀ n w, R w0 w →
            R w (f n a w).2 ∧ Q n a (f n a w).1 (f n a w).2) xs →
  ∀ n w, R w0 w →
    R w (mapIndexed f n xs w).2 ∧
    length (mapIndexed f n xs w).1 = length xs ∧
    ∀ k a, xs !! k = Some a →
      ∃ b, (mapIndexed f n xs w).1 !! k = Some b ∧
           Q (n + k) a b (mapIndexed f n xs w).2.
Proof.
  intros Hstable Hsteps. induction Hsteps as [|x xs Hx _ IH]; intros n w Hw.
  - cbn [mapIndexed ret fst snd]. split; [reflexivity|]. split; [done|].
    intros k a Hk. by rewrite lookup_nil in Hk.
  - rewrite mapIndexed_cons. destruct (Hx n w Hw) as [HR HQ].
    destruct (f n x w) as [y w1]. cbn [fst snd] in HR, HQ.
    assert (Hw1 : R w0 w1) by (by transitivity w).
    destruct (IH (S n) w1 Hw1) as (HR' & Hlen & Hall).
    destruct (mapIndexed f (S n) xs w1) as [ys w2]. cbn [fst snd] in *.
    split; [by transitivity w1|]. split; [by cbn [length]; rewrite Hlen|].
    intros [|k] a Hk; cbn in Hk.
    + injection Hk as <-. exists y. split; [done|].
      rewrite Nat.add_0_r. by eapply Hstable.
    + destruct (Hall k a Hk) as (b & Hb & HQb). exists b. split; [done|].
      by rewrite Nat.add_succ_r.
Qed.

(** ** Storage: references *)

Module StorageFacts.

Import Storage.

Lemma isRef_inv (s : string) : isRef s = true → ∃ t, s = "ref:img:" +:+ t.
Proof. apply JsFacts.prefix_split. Qed.

Lemma getRefKey_makeRef (key : string) : getRefKey (makeRef key) = key.
Proof. apply (JsFacts.replace_prefix "ref:"). Qed.

Lemma getRefKey_isRef (s : string) :
  isRef s = true → makeRef (getRefKey s) = s ∧ Js.startsWith (getRefKey s) "img:" = true.
Proof.
  intros [t ->]%isRef_inv.
  change ("ref:img:" +:+ t) with (makeRef ("img:" +:+ t)).
  rewrite getRefKey_makeRef. split; [done|]. apply (JsFacts.prefix_app "img:").
Qed.

Lemma getImageKey_img (g : string) (index : nat) (type : ImageType) (inputId : option string) :
  Js.startsWith (getImageKey g index type inputId) "img:" = true.
Proof.
  unfold getImageKey.
  destruct type, inputId as [i|]; try destruct (Js.truthy i);
    apply (JsFacts.prefix_app "img:").
Qed.

Lemma isRef_makeRef_getImageKey (g : string) (index : nat) (type : ImageType)
    (inputId : option string) :
  isRef (makeRef (getImageKey g index type inputId)) = true.
Proof.
  unfold getImageKey.
  destruct type, inputId as [i|]; try destruct (Js.truthy i);
    apply (JsFacts.prefix_app "ref:img:").
Qed.

(** ** Storage: the orphan collector *)

Lemma removeAll_store (ks : list string) (n : nat) (w : World) (key : string) :
  store (mapIndexed (fun _ => removeItem) n ks w).2 !! key =
  if decide (key ∈ ks) then None else store w !! key.
Proof.
  revert n w. induction ks as [|k ks IH]; intros n w.
  - cbn [mapIndexed ret snd]. rewrite decide_False; [done|]. by intros ?%elem_of_nil.
  - rewrite mapIndexed_cons. cbn [removeItem].
    specialize (IH (S n) (setStore w (delete k (store w)))).
    destruct (mapIndexed _ (S n) ks _) as [ys w'].
    cbn [snd] in *. rewrite IH. cbn [setStore store].
    destruct (decide (key = k)) as [->|Hne].
    + rewrite lookup_delete_eq, (decide_True (P := k ∈ k :: ks)) by left.
      by destruct (decide _).
    + rewrite lookup_delete_ne by done.
      destruct (decide (key ∈ ks)) as [Hin|Hnin].
      * by rewrite decide_True by (by right).
      * rewrite decide_False; [done|]. by intros [?|?]%elem_of_cons.
Qed.

Lemma removeAll_frame (ks : list string) (n : nat) (w : World) :
  localStorage (mapIndexed (fun _ => removeItem) n ks w).2 = localStorage w ∧
  objectURLs (mapIndexed (fun _ => removeItem) n ks w).2 = objectURLs w.
Proof.
  revert n w. induction ks as [|k ks IH]; intros n w; [done|].
  rewrite mapIndexed_cons. cbn [removeItem].
  specialize (IH (S n) (setStore w (delete k (store w)))).
  destruct (mapIndexed _ (S n) ks _) as [ys w']. exact IH.
Qed.

(** The set a walk over the output images adds to. *)
Lemma collect_outputs (gen : Generation) (l : list (nat * string)) (acc : gset string) (key : string) :
  key ∈ foldl (fun acc '(index, img) =>
                 if negb (Js.truthy img) then acc
                 else {[outputKey gen index img]} ∪ acc) acc l ↔
  key ∈ acc ∨ ∃ index img, (index, img) ∈ l ∧ Js.truthy img = true ∧
                           key = outputKey gen index img.
Proof.
  revert acc. induction l as [|[i x] l IH]; intros acc; cbn [foldl].
  - split; [by left | intros [?|(?&?&?%elem_of_nil&_)]; done].
  - rewrite IH. destruct (Js.truthy x) eqn:Hx; cbn [negb].
    + rewrite elem_of_union, elem_of_singleton. split.
      * intros [[->|?]|(i'&x'&?&?&?)]; [right|by left|right].
        -- exists i, x. split; [left|done].
        -- exists i', x'. split; [by right|done].
      * intros [?|(i'&x'&Hin&?&?)]; [by left; right|].
        apply elem_of_cons in Hin as [[= -> ->]|Hin]; [by left; left|].
        right. by exists i', x'.
    + split.
      * intros [?|(i'&x'&?&?&?)]; [by left|right].
        exists i', x'. split; [by right|done].
      * intros [?|(i'&x'&Hin&Ht&?)]; [by left|].
        apply elem_of_cons in Hin as [[= -> ->]|Hin]; [congruence|].
        right. by exists i', x'.
Qed.

Lemma collect_inputs (gen : Generation) (l : list InputImage) (acc : gset string) (key : string) :
  key ∈ foldl (fun acc img =>
                 if negb (Js.truthy (ii_url img)) then acc
                 else {[inputKey gen img]} ∪ acc) acc l ↔
  key ∈ acc ∨ ∃ img, img ∈ l ∧ Js.truthy (ii_url img) = true ∧ key = inputKey gen img.
Proof.
  revert acc. induction l as [|x l IH]; intros acc; cbn [foldl].
  - split; [by left | intros [?|(?&?%elem_of_nil&_)]; done].
  - rewrite IH. destruct (Js.truthy (ii_url x)) eqn:Hx; cbn [negb].
    + rewrite elem_of_union, elem_of_singleton. split.
      * intros [[->|?]|(x'&?&?&?)]; [right|by left|right].
        -- exists x. split; [left|done].
        -- exists x'. split; [by right|done].
      * intros [?|(x'&Hin&?&?)]; [by left; right|].
        apply elem_of_cons in Hin as [->|Hin]; [by left; left|].
        right. by exists x'.
    + split.
      * intros [?|(x'&?&?&?)]; [by left|right].
        exists x'. split; [by right|done].
      * intros [?|(x'&Hin&Ht&?)]; [by left|].
        apply elem_of_cons in Hin as [->|Hin]; [congruence|].
        right. by exists x'.
Qed.

(** A key is live for a record when a non-empty image field of the record
    stands for it. *)
Definition liveKey (gen : Generation) (key : string) : Prop :=
  (∃ index img, images gen !! index = Some img ∧ Js.truthy img = true ∧
                key = outputKey gen index img) ∨
  (∃ img, img ∈ inputImages gen ∧ Js.truthy (ii_url img) = true ∧
          key = inputKey gen img).

Lemma collectKeys_spec (acc : gset string) (gen : Generation) (key : string) :
  key ∈ collectKeys acc gen ↔ key ∈ acc ∨ liveKey gen key.
Proof.
  unfold collectKeys, liveKey. rewrite collect_inputs, collect_outputs.
  setoid_rewrite elem_of_lookup_imap.
  split.
  - intros [[?|(i&x&(i'&x'&[= <- <-]&?)&?&?)]|?]; [by left| |by right; right].
    right; left. by exists i, x.
  - intros [?|[(i&x&?&?&?)|?]]; [by left; left| |by right].
    left; right. exists i, x. split; [|done]. by exists i, x.
Qed.

Lemma foldl_collectKeys_spec (gens : list Generation) (acc : gset string) (key : string) :
  key ∈ foldl collectKeys acc gens ↔ key ∈ acc ∨ ∃ gen, gen ∈ gens ∧ liveKey gen key.
Proof.
  revert acc. induction gens as [|g gens IH]; intros acc; cbn [foldl].
  - split; [by left | intros [?|(?&?%elem_of_nil&_)]; done].
  - rewrite IH, collectKeys_spec. split.
    + intros [[?|?]|(g'&?&?)]; [by left|right|right].
      * exists g. split; [left|done].
      * exists g'. split; [by right|done].
    + intros [?|(g'&Hin&?)]; [by left; left|].
      apply elem_of_cons in Hin as [->|Hin]; [by left; right|].
      right. by exists g'.
Qed.

(** The referenced-key set is the set of live keys of the records of both
    lists. *)
Lemma referencedKeys_spec (gens pend : list Generation) (key : string) :
  key ∈ referencedKeys gens pend ↔ ∃ gen, gen ∈ gens ++ pend ∧ liveKey gen key.
Proof.
  unfold referencedKeys. rewrite !foldl_collectKeys_spec. split.
  - intros [[?%not_elem_of_empty|(g&?&?)]|(g&?&?)]; [done| |];
      exists g; (split; [set_solver|done]).
  - intros (g&[?|?]%elem_of_app&?); [left; right|right]; by exists g.
Qed.

(** The liveness snapshot [cleanOrphanedImages] works from; [None] when the
    walk over it throws. *)
Definition snapshot (generations pending : option (list Generation)) (w : World)
    : option (list Generation * list Generation) :=
  match (snapshotOr generations GENERATIONS_KEY w).1,
        (snapshotOr pending PENDING_KEY w).1 with
  | Some storedGenerations, Some storedPending => Some (storedGenerations, storedPending)
  | _, _ => None
  end.

Lemma snapshotOr_world (arg : option (list Generation)) (key : string) (w : World) :
  (snapshotOr arg key w).2 = w.
Proof.
  unfold snapshotOr. destruct arg; [done|].
  unfold bind, getItem. by destruct (store w !! key) as [[b|gs|[|s ss]|]|].
Qed.

(** The store after a pass: the orphans of the snapshot are gone; a pass
    that throws leaves the store. *)
Lemma cleanOrphanedImages_store (generations pending : option (list Generation))
    (w : World) (key : string) :
  store (cleanOrphanedImages generations pending w).2 !! key =
  match snapshot generations pending w with
  | Some live =>
      if decide (Js.startsWith key "img:" = true ∧ key ∉ referencedKeys live.1 live.2)
      then None else store w !! key
  | None => store w !! key
  end.
Proof.
  unfold cleanOrphanedImages, snapshot. unfold bindE at 1.
  pose proof (snapshotOr_world generations GENERATIONS_KEY w) as E1.
  destruct (snapshotOr generations GENERATIONS_KEY w) as [[gs|] w1];
    cbn [fst snd] in *; subst w1; [|done].
  unfold bindE at 1.
  pose proof (snapshotOr_world pending PENDING_KEY w) as E2.
  destruct (snapshotOr pending PENDING_KEY w) as [[ps|] w2];
    cbn [fst snd] in *; subst w2; [|done].
  unfold bind at 1. cbn [keys]. unfold bind at 1. unfold mapAll.
  pose proof (removeAll_store
    (filter (fun k => Js.startsWith k "img:" = true ∧ k ∉ referencedKeys gs ps)
            (elements (dom (store w)))) 0 w key) as H.
  destruct (mapIndexed _ 0 _ w) as [us w'] eqn:E. cbn [ret snd] in *.
  rewrite H. clear H E.
  destruct (decide (Js.startsWith key "img:" = true ∧ key ∉ referencedKeys gs ps)) as [HP|HP].
  - destruct (decide (key ∈ _)) as [Hin|Hnin]; [done|].
    destruct (store w !! key) eqn:Hk; [|done].
    exfalso. apply Hnin. apply list_elem_of_filter. split; [done|].
    apply elem_of_elements, elem_of_dom. by eexists.
  - rewrite decide_False; [done|].
    intros [? _]%list_elem_of_filter. done.
Qed.

(** What a pass leaves besides the store, and when it returns. *)
Lemma cleanOrphanedImages_frame (generations pending : option (list Generation))
    (w : World) :
  localStorage (cleanOrphanedImages generations pending w).2 = localStorage w ∧
  objectURLs (cleanOrphanedImages generations pending w).2 = objectURLs w ∧
  (is_Some (snapshot generations pending w) →
     (cleanOrphanedImages generations pending w).1 = Some tt) ∧
  (snapshot generations pending w = None →
     cleanOrphanedImages generations pending w = (None, w)).
Proof.
  unfold cleanOrphanedImages, snapshot, bindE.
  pose proof (snapshotOr_world generations GENERATIONS_KEY w) as E1.
  destruct (snapshotOr generations GENERATIONS_KEY w) as [[gs|] w1];
    cbn [fst snd] in *; subst w1.
  2: { split; [done|]. split; [done|].
       split; [intros H; by apply is_Some_None in H|done]. }
  pose proof (snapshotOr_world pending PENDING_KEY w) as E2.
  destruct (snapshotOr pending PENDING_KEY w) as [[ps|] w2];
    cbn [fst snd] in *; subst w2.
  2: { split; [done|]. split; [done|].
       split; [intros H; by apply is_Some_None in H|done]. }
  unfold bind, mapAll. cbn [keys].
  pose proof (removeAll_frame
    (filter (fun k => Js.startsWith k "img:" = true ∧ k ∉ referencedKeys gs ps)
            (elements (dom (store w)))) 0 w) as [H1 H2].
  destruct (mapIndexed _ 0 _ w) as [us w']. cbn [ret fst snd] in *.
  by repeat split.
Qed.

(** The snapshot of records given, or of documents of records. *)
Lemma snapshotOr_given (arg : option (list Generation)) (key : string)
    (gs : list Generation) (w : World) :
  (arg = Some gs ∨
   (arg = None ∧ store w !! key = Some (VGenerations gs)) ∨
   (arg = None ∧ store w !! key = None ∧ gs = [])) →
  (snapshotOr arg key w).1 = Some gs.
Proof.
  unfold snapshotOr, bind, getItem.
  by intros [->|[[-> ->]|(-> & -> & ->)]].
Qed.

(** The key a reference stands for is what follows "ref:". *)
Lemma getRefKey_spec (img key : string) :
  Js.startsWith img "ref:img:" = true → key = getRefKey img ↔ img = "ref:" +:+ key.
Proof.
  intros Hr. destruct (getRefKey_isRef img Hr) as [E _]. split.
  - intros ->. by rewrite <- E at 1.
  - intros ->. symmetry. apply getRefKey_makeRef.
Qed.

(** C1. Let the snapshot be the records [gens] and [pend]: the ones passed
    in, or else the ones of the stored document (none when there is no
    document). Call a key referenced when a non-empty image field of a
    record of [gens] or [pend] stands for it: a field "ref:" + key, an
    output field at [index] of the record [g] that is no reference with
    key = "img:" + id of g + ":" + index, or an input image that is no
    reference with key = "img:" + id of g + ":input:" + id of the image
    ("img:" + id of g + ":0" when the image has the empty id). Then
    [cleanOrphanedImages] returns, removes a stored key if and only if the
    key starts with "img:" and is not referenced, changes and adds no key,
    so it removes no referenced key, and leaves [localStorage] and the
    registered handles alone. *)
Theorem cleanOrphanedImages_removes_exactly_orphans
    (generations pending : option (list Generation)) (gens pend : list Generation)
    (w : World) :
  (generations = Some gens ∨
   (generations = None ∧ store w !! GENERATIONS_KEY = Some (VGenerations gens)) ∨
   (generations = None ∧ store w !! GENERATIONS_KEY = None ∧ gens = [])) →
  (pending = Some pend ∨
   (pending = None ∧ store w !! PENDING_KEY = Some (VGenerations pend)) ∨
   (pending = None ∧ store w !! PENDING_KEY = None ∧ pend = [])) →
  let referenced (key : string) : Prop :=
    ∃ gen, gen ∈ gens ++ pend ∧
      ((∃ index img, images gen !! index = Some img ∧ img ≠ "" ∧
          if Js.startsWith img "ref:img:" then img = "ref:" +:+ key
          else key = "img:" +:+ id gen +:+ ":" +:+ pretty index) ∨
       (∃ inp, inp ∈ inputImages gen ∧ ii_url inp ≠ "" ∧
          if Js.startsWith (ii_url inp) "ref:img:" then ii_url inp = "ref:" +:+ key
          else if decide (ii_id inp = "") then key = "img:" +:+ id gen +:+ ":0"
          else key = "img:" +:+ id gen +:+ ":input:" +:+ ii_id inp)) in
  let w' := (cleanOrphanedImages generations pending w).2 in
  (cleanOrphanedImages generations pending w).1 = Some tt ∧
  (∀ key, is_Some (store w !! key) →
     (store w' !! key = None ↔
      Js.startsWith key "img:" = true ∧ ¬ referenced key)) ∧
  (∀ key, store w' !! key = None ∨ store w' !! key = store w !! key) ∧
  (∀ key, referenced key → store w' !! key = store w !! key) ∧
  localStorage w' = localStorage w ∧
  objectURLs w' = objectURLs w.
Proof.
  intros Hgens Hpend referenced w'.
  assert (Hsnap : snapshot generations pending w = Some (gens, pend)).
  { unfold snapshot.
    by rewrite (snapshotOr_given _ _ gens w Hgens), (snapshotOr_given _ _ pend w Hpend). }
  assert (Href : ∀ key, key ∈ referencedKeys gens pend ↔ referenced key).
  { intros key. rewrite referencedKeys_spec. unfold referenced, liveKey.
    assert (Hor : ∀ A B C D : Prop, (A ↔ C) → (B ↔ D) → (A ∨ B ↔ C ∨ D))
      by (intros; tauto).
    apply exist_proper. intros gen. apply and_iff_compat_l. apply Hor.
    - apply exist_proper. intros index. apply exist_proper. intros img.
      apply and_iff_compat_l. rewrite JsFacts.truthy_true. apply and_iff_compat_l.
      unfold outputKey, isRef. destruct (Js.startsWith img "ref:img:") eqn:Hr.
      + by apply getRefKey_spec.
      + done.
    - apply exist_proper. intros inp. apply and_iff_compat_l.
      rewrite JsFacts.truthy_true. apply and_iff_compat_l.
      unfold inputKey, isRef. destruct (Js.startsWith (ii_url inp) "ref:img:") eqn:Hr.
      + by apply getRefKey_spec.
      + unfold getImageKey. destruct (decide (ii_id inp = "")) as [->|Hne]; [done|].
        by rewrite (proj2 (JsFacts.truthy_true _) Hne). }
  assert (Hstore : ∀ key, store w' !! key =
            if decide (Js.startsWith key "img:" = true ∧ key ∉ referencedKeys gens pend)
            then None else store w !! key).
  { intros key. unfold w'. by rewrite cleanOrphanedImages_store, Hsnap. }
  destruct (cleanOrphanedImages_frame generations pending w) as (Hl & Hu & Hret & _).
  split; [apply Hret; by rewrite Hsnap|].
  split; [|split; [|split; [|done]]].
  - intros key [v Hv]. rewrite Hstore, <- Href.
    destruct (decide _) as [HP|HP]; [done|].
    rewrite Hv. split; [done|]. intros ?. by destruct HP.
  - intros key. rewrite Hstore. destruct (decide _); [by left|by right].
  - intros key Hkey. rewrite Hstore.
    rewrite decide_False; [done|]. intros [_ Hnot]. by apply Hnot, Href.
Qed.

(** A store with the document of a record that refers to its first output,
    the payload of that output, and a payload no record refers to. *)
Definition orphanWorld : World :=
  {| store :=
       {[ GENERATIONS_KEY := VGenerations [Examples.sampleRecord "g" "a cat" ["ref:img:g:0"]];
          "img:g:0" := VBlob (mkBlob "image/png" "kept");
          "img:gone:0" := VBlob (mkBlob "image/png" "orphan") ]};
     localStorage := ∅; objectURLs := [];
     fetchBlob := fun _ => None; jsonParse := fun _ => None;
     setItemFails := fun _ => false |}.

Lemma cleanOrphanedImages_removes_exactly_orphans_witness :
  store (cleanOrphanedImages None None orphanWorld).2 !! "img:gone:0" = None ∧
  store (cleanOrphanedImages None None orphanWorld).2 !! "img:g:0" =
    Some (VBlob (mkBlob "image/png" "kept")).
Proof.
  destruct (cleanOrphanedImages_removes_exactly_orphans None None
              [Examples.sampleRecord "g" "a cat" ["ref:img:g:0"]] [] orphanWorld)
    as (_ & Hiff & _ & Hkept & _).
  - right; left. by split.
  - right; right. by repeat split.
  - split.
    + apply Hiff; [by eexists|]. split; [done|].
      intros (gen & Hgen & Hcase). rewrite app_nil_r in Hgen.
      apply list_elem_of_singleton in Hgen as ->.
      destruct Hcase as [(index & img & Hi & _ & Hk)|(inp & Hin & _)].
      * destruct index as [|[|]]; [|done..]. injection Hi as <-. by cbn in Hk.
      * by apply elem_of_nil in Hin.
    + rewrite Hkept; [done|].
      exists (Examples.sampleRecord "g" "a cat" ["ref:img:g:0"]).
      split; [left|]. left. by exists 0, "ref:img:g:0".
Defined.

(** A pass over a document that is no array of records throws and removes
    nothing. *)
Lemma cleanOrphanedImages_corrupt (pending : option (list Generation)) (w : World) :
  (store w !! GENERATIONS_KEY = Some VOther ∨
   (∃ b, store w !! GENERATIONS_KEY = Some (VBlob b)) ∨
   (∃ s ss, store w !! GENERATIONS_KEY = Some (VStrings (s :: ss)))) →
  cleanOrphanedImages None pending w = (None, w).
Proof.
  intros H. apply cleanOrphanedImages_frame. unfold snapshot, snapshotOr at 1, bind, getItem.
  by destruct H as [->|[[b ->]|(s & ss & ->)]].
Qed.

End StorageFacts.

(** ** Storage: how the store evolves under dehydrate and hydrate *)

Module StoreEvolution.

Import Storage StorageFacts.

(** The key holds an image payload. *)
Definition isBlob (w : World) (key : string) : Prop :=
  ∃ b, store w !! key = Some (VBlob b).

(** [w'] extends [w]: the environment is the same, no key has gone, the
    "img:" keys that held a payload hold one, and the registered handles
    are registered still. *)
Definition extends (w w' : World) : Prop :=
  fetchBlob w' = fetchBlob w ∧ setItemFails w' = setItemFails w ∧
  (∀ k, store w' !! k = None → store w !! k = None) ∧
  (∀ k, Js.startsWith k "img:" = true → isBlob w k → isBlob w' k) ∧
  (∀ p, p ∈ objectURLs w → p ∈ objectURLs w').

#[global] Instance extends_refl : Reflexive extends.
Proof. intros w. by repeat split. Qed.

#[global] Instance extends_trans : Transitive extends.
Proof.
  intros w1 w2 w3 (F1 & S1 & N1 & B1 & U1) (F2 & S2 & N2 & B2 & U2).
  repeat split; [congruence|congruence|auto..].
Qed.

Lemma setItem_blob_extends (key : string) (b : Blob) (w : World) :
  extends w (setItem key (VBlob b) w).2 ∧
  ((setItem key (VBlob b) w).1 = true → isBlob (setItem key (VBlob b) w).2 key) ∧
  (setItemFails w key = false → (setItem key (VBlob b) w).1 = true).
Proof.
  unfold setItem. destruct (setItemFails w key) eqn:E; cbn [fst snd].
  - split; [reflexivity|]. split; intros; done.
  - split; [|split; [|done]].
    + repeat split; cbn [setStore store objectURLs]; [| |done].
      * intros k Hk. destruct (decide (key = k)) as [->|Hne].
        -- by rewrite lookup_insert_eq in Hk.
        -- by rewrite lookup_insert_ne in Hk.
      * intros k _ [b' Hb']. unfold isBlob. cbn [setStore store].
        destruct (decide (key = k)) as [->|Hne].
        -- exists b. apply lookup_insert_eq.
        -- exists b'. by rewrite lookup_insert_ne.
    + intros _. exists b. cbn [setStore store]. apply lookup_insert_eq.
Qed.

Lemma createObjectURL_extends (b : Blob) (w : World) :
  extends w (createObjectURL b w).2 ∧
  ((createObjectURL b w).1, b) ∈ objectURLs (createObjectURL b w).2 ∧
  Js.startsWith (createObjectURL b w).1 "blob:" = true.
Proof.
  unfold createObjectURL. cbn [fst snd]. split; [|split].
  - repeat split; cbn [setObjectURLs store objectURLs]; [done..|].
    intros p Hp. apply elem_of_app. by left.
  - cbn [setObjectURLs objectURLs]. apply elem_of_app. right. left.
  - apply (JsFacts.prefix_app "blob:").
Qed.

Lemma setItem_document_extends (key : string) (v : StoreValue) (w : World) :
  Js.startsWith key "img:" = false →
  extends w (setItem key v w).2.
Proof.
  intros Hkey. unfold setItem. destruct (setItemFails w key); [reflexivity|].
  repeat split; cbn [snd setStore store objectURLs]; [| |done].
  - intros k Hk. destruct (decide (key = k)) as [->|Hne].
    + by rewrite lookup_insert_eq in Hk.
    + by rewrite lookup_insert_ne in Hk.
  - intros k Himg [b Hb]. exists b. cbn [setStore store].
    rewrite lookup_insert_ne; [done|]. intros ->. congruence.
Qed.

End StoreEvolution.

(** ** Storage: dehydrate *)

Module PersistFacts.

Import Storage StorageFacts StoreEvolution Examples.

(** The field is raw: neither empty, nor a reference, nor a [blob:] handle;
    its bytes are fetched and written. *)
Definition needsFetch (url : string) : bool :=
  Js.truthy url && negb (isRef url) && negb (Js.startsWith url "blob:").

(** Every raw field of the records can be fetched. *)
Definition fetchable (w : World) (gens : list Generation) : Prop :=
  ∀ gen, gen ∈ gens →
    (∀ img, img ∈ images gen → needsFetch img = true → is_Some (fetchBlob w img)) ∧
    (∀ inp, inp ∈ inputImages gen → needsFetch (ii_url inp) = true →
       is_Some (fetchBlob w (ii_url inp))).

(** What dehydrate makes of the field [url] whose deterministic key is
    [key]: an empty field and a reference stay, a [blob:] handle becomes the
    reference to [key], a raw field becomes the reference to [key] and
    [key] holds a payload. *)
Definition dehydrated (key url url' : string) (w : World) : Prop :=
  if Js.truthy url then
    if isRef url then url' = url
    else url' = makeRef key ∧ (Js.startsWith url "blob:" = false → isBlob w key)
  else url' = url.

(** The persisted record [p] is the record [gen] dehydrated. *)
Definition persistedAs (w : World) (gen p : Generation) : Prop :=
  sameMetadata gen p ∧
  length (images p) = length (images gen) ∧
  (∀ index img, images gen !! index = Some img →
     ∃ img', images p !! index = Some img' ∧
             dehydrated (getImageKey (id gen) index Output None) img img' w) ∧
  length (inputImages p) = length (inputImages gen) ∧
  (∀ k inp, inputImages gen !! k = Some inp →
     ∃ inp', inputImages p !! k = Some inp' ∧
             inp' = withUrl inp (ii_url inp') ∧
             dehydrated (getImageKey (id gen) 0 Input (Some (ii_id inp)))
                        (ii_url inp) (ii_url inp') w).

Lemma dehydrated_stable (g : string) (index : nat) (type : ImageType)
    (inputId : option string) (url url' : string) (w w' : World) :
  dehydrated (getImageKey g index type inputId) url url' w → extends w w' →
  dehydrated (getImageKey g index type inputId) url url' w'.
Proof.
  unfold dehydrated. intros H (_ & _ & _ & HB & _).
  destruct (Js.truthy url); [|done]. destruct (isRef url); [done|].
  destruct H as [-> H]. split; [done|]. intros Hb.
  apply HB; [apply getImageKey_img | by apply H].
Qed.

(** A field out of dehydrate is empty or a reference. *)
Lemma dehydrated_reference (g : string) (index : nat) (type : ImageType)
    (inputId : option string) (url url' : string) (w : World) :
  dehydrated (getImageKey g index type inputId) url url' w →
  url' = "" ∨ isRef url' = true.
Proof.
  unfold dehydrated. destruct (Js.truthy url) eqn:Ht.
  - destruct (isRef url) eqn:Hr.
    + intros ->. by right.
    + intros [-> _]. right. apply isRef_makeRef_getImageKey.
  - intros ->. left. by apply JsFacts.truthy_false.
Qed.

Section Steps.

Context (w0 : World) (Hwrite : ∀ key, setItemFails w0 key = false).

Lemma persistField_step (key url : string) (w : World) :
  Js.startsWith key "img:" = true →
  (needsFetch url = true → is_Some (fetchBlob w0 url)) →
  extends w0 w →
  let step : M string :=
    let* blob := urlToBlob url in
    match blob with
    | Some b =>
        let* ok := setItem key (VBlob b) in
        if ok then ret (makeRef key) else ret url
    | None => ret url
    end in
  Js.truthy url = true → isRef url = false → Js.startsWith url "blob:" = false →
  extends w (step w).2 ∧ (step w).1 = makeRef key ∧ isBlob (step w).2 key.
Proof.
  intros Hkey Hfetch Hext step Ht Hr Hb. subst step.
  destruct Hext as (HF & HS & _).
  destruct Hfetch as [b Hb0].
  { unfold needsFetch. by rewrite Ht, Hr, Hb. }
  unfold bind, urlToBlob. rewrite HF, Hb0.
  destruct (setItem_blob_extends key b w) as (He & Hok & Hdone).
  assert (Hfails : setItemFails w key = false) by (rewrite HS; apply Hwrite).
  specialize (Hdone Hfails).
  destruct (setItem key (VBlob b) w) as [ok w1]. cbn [fst snd] in *. subst ok.
  cbn [ret fst snd]. auto.
Qed.

Lemma persistImage_step (gen : Generation) (index : nat) (img : string) (w : World) :
  (needsFetch img = true → is_Some (fetchBlob w0 img)) →
  extends w0 w →
  extends w (persistImage gen index img w).2 ∧
  dehydrated (getImageKey (id gen) index Output None) img
             (persistImage gen index img w).1 (persistImage gen index img w).2.
Proof.
  intros Hfetch Hext. unfold persistImage, dehydrated.
  destruct (Js.truthy img) eqn:Ht; cbn [negb].
  - destruct (isRef img) eqn:Hr; [by split|].
    destruct (Js.startsWith img "blob:") eqn:Hb; [by split|].
    destruct (persistField_step (getImageKey (id gen) index Output None) img w)
      as (He & Hres & Hblob); [apply getImageKey_img|done..|].
    cbn zeta in *. split; [done|]. split; [done|]. by intros _.
  - cbn [ret fst snd]. split; [reflexivity|].
    symmetry. by apply JsFacts.truthy_false.
Qed.

Lemma persistInput_step (gen : Generation) (inp : InputImage) (w : World) :
  (needsFetch (ii_url inp) = true → is_Some (fetchBlob w0 (ii_url inp))) →
  extends w0 w →
  extends w (persistInput gen inp w).2 ∧
  (persistInput gen inp w).1 = withUrl inp (ii_url (persistInput gen inp w).1) ∧
  dehydrated (getImageKey (id gen) 0 Input (Some (ii_id inp))) (ii_url inp)
             (ii_url (persistInput gen inp w).1) (persistInput gen inp w).2.
Proof.
  intros Hfetch Hext. unfold persistInput, dehydrated.
  destruct (Js.truthy (ii_url inp)) eqn:Ht; cbn [negb].
  - destruct (isRef (ii_url inp)) eqn:Hr.
    { cbn [ret fst snd]. split; [reflexivity|]. split; [by destruct inp|done]. }
    destruct (Js.startsWith (ii_url inp) "blob:") eqn:Hb.
    { cbn [ret fst snd withUrl ii_url]. split; [reflexivity|]. by split. }
    pose proof (persistField_step (getImageKey (id gen) 0 Input (Some (ii_id inp)))
                  (ii_url inp) w (getImageKey_img _ _ _ _) Hfetch Hext Ht Hr Hb)
      as (He & Hres & Hblob).
    cbn zeta in *. unfold bind, urlToBlob in *.
    destruct (fetchBlob w (ii_url inp)) as [b|]; cbn [ret fst snd] in *.
    + destruct (setItem _ (VBlob b) w) as [[] w1]; cbn [ret fst snd] in *.
      * cbn [withUrl ii_url]. split; [done|]. split; [done|]. by split.
      * exfalso. rewrite Hres in Hr.
        by rewrite isRef_makeRef_getImageKey in Hr.
    + exfalso. rewrite Hres in Hr.
      by rewrite isRef_makeRef_getImageKey in Hr.
  - cbn [ret fst snd]. split; [reflexivity|]. split; [by destruct inp|done].
Qed.

Lemma persistGeneration_step (gen : Generation) (w : World) :
  (∀ img, img ∈ images gen → needsFetch img = true → is_Some (fetchBlob w0 img)) →
  (∀ inp, inp ∈ inputImages gen → needsFetch (ii_url inp) = true →
     is_Some (fetchBlob w0 (ii_url inp))) →
  extends w0 w →
  extends w (persistGeneration gen w).2 ∧
  persistedAs (persistGeneration gen w).2 gen (persistGeneration gen w).1.
Proof.
  intros Himgs Hinps Hext. unfold persistGeneration, bind.
  pose proof (mapIndexed_inv extends
    (fun n img img' w => dehydrated (getImageKey (id gen) n Output None) img img' w)
    (persistImage gen) w0 (images gen)) as H1.
  destruct (H1 (fun n a b w w' => dehydrated_stable _ _ _ _ _ _ w w')) with (n := 0) (w := w)
    as (He1 & Hl1 & Hq1); [|done|].
  { apply Forall_forall. intros img Hin n w1 Hw1. apply persistImage_step; auto. }
  clear H1. destruct (mapIndexed (persistImage gen) 0 (images gen) w) as [imgs w1].
  cbn [fst snd] in *. unfold mapAll.
  pose proof (mapIndexed_inv extends
    (fun (_ : nat) inp inp' w =>
       inp' = withUrl inp (ii_url inp') ∧
       dehydrated (getImageKey (id gen) 0 Input (Some (ii_id inp)))
                  (ii_url inp) (ii_url inp') w)
    (fun _ => persistInput gen) w0 (inputImages gen)) as H2.
  destruct H2 with (n := 0) (w := w1) as (He2 & Hl2 & Hq2).
  { intros n a b wa wb [? ?] ?. split; [done|]. by eapply dehydrated_stable. }
  { apply Forall_forall. intros inp Hin n w2 Hw2.
    destruct (persistInput_step gen inp w2) as (?&?&?); auto. }
  { by transitivity w. }
  clear H2. destruct (mapIndexed _ 0 (inputImages gen) w1) as [inps w2].
  cbn [ret fst snd] in *. split; [by transitivity w1|].
  unfold persistedAs. cbn [withImages images inputImages id].
  split; [by repeat split|]. split; [done|]. split; [|split; [done|]].
  - intros index img Hi. destruct (Hq1 index img Hi) as (img' & ? & ?).
    exists img'. split; [done|]. by eapply dehydrated_stable.
  - intros k inp Hk. destruct (Hq2 k inp Hk) as (inp' & ? & ? & ?). by exists inp'.
Qed.

End Steps.

Lemma persistedAs_stable (gen p : Generation) (w w' : World) :
  persistedAs w gen p → extends w w' → persistedAs w' gen p.
Proof.
  intros (Hm & Hl1 & Hq1 & Hl2 & Hq2) He. repeat split; try done; try apply Hm.
  - intros index img Hi. destruct (Hq1 index img Hi) as (img' & ? & ?).
    exists img'. split; [done|]. by eapply dehydrated_stable.
  - intros k inp Hk. destruct (Hq2 k inp Hk) as (inp' & ? & ? & ?).
    exists inp'. repeat split; try done. by eapply dehydrated_stable.
Qed.

Lemma fetchable_onlineWorld (gens : list Generation) : fetchable onlineWorld gens.
Proof. intros gen _. split; intros; by eexists. Qed.


(** Dehydrating [rawRecord]: both raw fields become references and their
    payloads are stored; the empty slot stays empty. *)
Example persistGenerations_rawRecord :
  store (persistGenerations [rawRecord] onlineWorld).2 !! GENERATIONS_KEY =
    Some (VGenerations
            [withImages rawRecord ["ref:img:g:0"; ""]
               [mkInputImage "att-1" "cat.png" "ref:img:g:input:att-1" None None]]) ∧
  store (persistGenerations [rawRecord] onlineWorld).2 !! "img:g:0" =
    Some (VBlob (mkBlob "image/png" "data:image/png;base64,AAAA")) ∧
  store (persistGenerations [rawRecord] onlineWorld).2 !! "img:g:input:att-1" =
    Some (VBlob (mkBlob "image/png" "https://example.org/cat.png")).
Proof. by vm_compute. Qed.



End PersistFacts.

(** ** Storage: hydrate *)

Module HydrateFacts.

Import Storage StorageFacts StoreEvolution Examples.

(** What hydrate makes of the field [url], read in a world that extends
    [w0], as seen from the later world [w]: an empty field stays empty; a
    reference whose key is absent gives the empty string, and one whose key
    held a payload in [w0] gives a registered handle; a legacy field is
    kept or gives a registered handle. *)
Definition hydratedField (w0 : World) (url url' : string) (w : World) : Prop :=
  if Js.truthy url then
    if isRef url then
      (store w !! getRefKey url = None → url' = "") ∧
      (isBlob w0 (getRefKey url) → ∃ b, (url', b) ∈ objectURLs w)
    else url' = url ∨ ∃ b, (url', b) ∈ objectURLs w
  else url' = url.

Lemma hydratedField_stable (w0 : World) (url url' : string) (w w' : World) :
  hydratedField w0 url url' w → extends w w' → hydratedField w0 url url' w'.
Proof.
  unfold hydratedField. intros H (_ & _ & HN & _ & HU).
  destruct (Js.truthy url); [|done]. destruct (isRef url).
  - destruct H as [H1 H2]. split; [auto|].
    intros Hb. destruct (H2 Hb) as [b ?]. exists b. auto.
  - destruct H as [?|[b ?]]; [by left|right]. exists b. auto.
Qed.

(** No field of the record is legacy data: each is empty or a reference. *)
Definition legacyFree (g : Generation) : Prop :=
  (∀ img, img ∈ images g → img = "" ∨ isRef img = true) ∧
  (∀ inp, inp ∈ inputImages g → ii_url inp = "" ∨ isRef (ii_url inp) = true).

Lemma isRef_truthy (s : string) : isRef s = true → Js.truthy s = true.
Proof. by intros [t ->]%isRef_inv. Qed.

Section Steps.

Context (w0 : World).

Lemma migrate_step (key url : string) (w : World) :
  Js.startsWith key "img:" = true →
  let step : M string :=
    let* blob := urlToBlob url in
    match blob with
    | Some b =>
        let* ok := setItem key (VBlob b) in
        if ok then createObjectURL b else ret url
    | None => ret url
    end in
  extends w (step w).2 ∧
  ((step w).1 = url ∨ ∃ b, ((step w).1, b) ∈ objectURLs (step w).2).
Proof.
  intros Hkey step. subst step. unfold bind, urlToBlob.
  destruct (fetchBlob w url) as [b|]; [|by split; [reflexivity|left]].
  destruct (setItem_blob_extends key b w) as (He & _ & _).
  destruct (setItem key (VBlob b) w) as [[] w1]; cbn [fst snd] in *.
  - destruct (createObjectURL_extends b w1) as (He' & Hin & _).
    split; [by transitivity w1|]. right. by exists b.
  - by split; [|left].
Qed.

Lemma hydrateImage_step (gen : Generation) (index : nat) (img : string) (w : World) :
  extends w0 w →
  extends w (hydrateImage gen index img w).2 ∧
  hydratedField w0 img (hydrateImage gen index img w).1 (hydrateImage gen index img w).2.
Proof.
  intros Hext. unfold hydrateImage, hydratedField.
  destruct (Js.truthy img) eqn:Ht; cbn [negb].
  2: { cbn [ret fst snd]. split; [reflexivity|].
       symmetry. by apply JsFacts.truthy_false. }
  destruct (isRef img) eqn:Hr.
  - unfold bind, getItem.
    assert (Hkey : Js.startsWith (getRefKey img) "img:" = true)
      by (by apply getRefKey_isRef).
    destruct Hext as (_ & _ & _ & HB & _).
    destruct (store w !! getRefKey img) as [[b| | |]|] eqn:Hk.
    + destruct (createObjectURL_extends b w) as (He & Hin & _).
      split; [done|]. split; [|by exists b].
      destruct He as (_ & _ & HN & _). intros Habs%HN. congruence.
    + cbn [ret fst snd]. split; [reflexivity|]. split; [done|].
      intros [b Hb]%HB; [congruence|done].
    + cbn [ret fst snd]. split; [reflexivity|]. split; [done|].
      intros [b Hb]%HB; [congruence|done].
    + cbn [ret fst snd]. split; [reflexivity|]. split; [done|].
      intros [b Hb]%HB; [congruence|done].
    + cbn [ret fst snd]. split; [reflexivity|]. split; [done|].
      intros [b Hb]%HB; [congruence|done].
  - apply (migrate_step (getImageKey (id gen) index Output None) img w).
    apply getImageKey_img.
Qed.

Lemma hydrateInput_step (gen : Generation) (inp : InputImage) (w : World) :
  extends w0 w →
  extends w (hydrateInput gen inp w).2 ∧
  (hydrateInput gen inp w).1 = withUrl inp (ii_url (hydrateInput gen inp w).1) ∧
  hydratedField w0 (ii_url inp) (ii_url (hydrateInput gen inp w).1)
                (hydrateInput gen inp w).2.
Proof.
  intros Hext. unfold hydrateInput, hydratedField.
  destruct (Js.truthy (ii_url inp)) eqn:Ht; cbn [negb].
  2: { cbn [ret fst snd]. split; [reflexivity|]. by destruct inp. }
  destruct (isRef (ii_url inp)) eqn:Hr.
  - unfold bind, getItem.
    assert (Hkey : Js.startsWith (getRefKey (ii_url inp)) "img:" = true)
      by (by apply getRefKey_isRef).
    destruct Hext as (_ & _ & _ & HB & _).
    destruct (store w !! getRefKey (ii_url inp)) as [[b| | |]|] eqn:Hk.
    + destruct (createObjectURL_extends b w) as (He & Hin & _).
      destruct (createObjectURL b w) as [url w1]. cbn [ret fst snd withUrl ii_url] in *.
      split; [done|]. split; [done|]. split; [|by exists b].
      destruct He as (_ & _ & HN & _). intros Habs%HN. congruence.
    + cbn [ret fst snd]. split; [reflexivity|]. split; [by destruct inp|].
      split; [congruence|]. intros [b Hb]%HB; [congruence|done].
    + cbn [ret fst snd]. split; [reflexivity|]. split; [by destruct inp|].
      split; [congruence|]. intros [b Hb]%HB; [congruence|done].
    + cbn [ret fst snd]. split; [reflexivity|]. split; [by destruct inp|].
      split; [congruence|]. intros [b Hb]%HB; [congruence|done].
    + cbn [ret fst snd withUrl ii_url]. split; [reflexivity|]. split; [done|].
      split; [done|]. intros [b Hb]%HB; [congruence|done].
  - pose proof (migrate_step (getImageKey (id gen) 0 Input (Some (ii_id inp)))
                  (ii_url inp) w (getImageKey_img _ _ _ _)) as [He Hres].
    cbn zeta in *. unfold bind, urlToBlob in *.
    destruct (fetchBlob w (ii_url inp)) as [b|]; cbn [ret fst snd] in *.
    2: { split; [done|]. split; [by destruct inp|by left]. }
    destruct (setItem _ (VBlob b) w) as [[] w1]; cbn [ret fst snd] in *.
    2: { split; [done|]. split; [by destruct inp|by left]. }
    destruct (createObjectURL b w1) as [url w2]. cbn [ret fst snd withUrl ii_url] in *.
    by split; [|split].
Qed.

End Steps.

(** The hydrated record [h] is the stored record [g] hydrated, for a load
    that started in [w0] and ended in [w]. *)
Definition hydratedAs (w0 w : World) (g h : Generation) : Prop :=
  sameMetadata g h ∧
  length (images h) = length (images g) ∧
  (∀ index img, images g !! index = Some img →
     ∃ img', images h !! index = Some img' ∧ hydratedField w0 img img' w) ∧
  length (inputImages h) = length (inputImages g) ∧
  (∀ k inp, inputImages g !! k = Some inp →
     ∃ inp', inputImages h !! k = Some inp' ∧
             inp' = withUrl inp (ii_url inp') ∧
             hydratedField w0 (ii_url inp) (ii_url inp') w).

Lemma hydratedAs_stable (w0 : World) (g h : Generation) (w w' : World) :
  hydratedAs w0 w g h → extends w w' → hydratedAs w0 w' g h.
Proof.
  intros (Hm & Hl1 & Hq1 & Hl2 & Hq2) He. repeat split; try done; try apply Hm.
  - intros index img Hi. destruct (Hq1 index img Hi) as (img' & ? & ?).
    exists img'. split; [done|]. by eapply hydratedField_stable.
  - intros k inp Hk. destruct (Hq2 k inp Hk) as (inp' & ? & ? & ?).
    exists inp'. repeat split; try done. by eapply hydratedField_stable.
Qed.

Lemma hydrateGeneration_step (w0 : World) (g : Generation) (w : World) :
  extends w0 w →
  extends w (hydrateGeneration g w).2 ∧
  hydratedAs w0 (hydrateGeneration g w).2 g (hydrateGeneration g w).1.
Proof.
  intros Hext. unfold hydrateGeneration, bind.
  pose proof (mapIndexed_inv extends
    (fun (_ : nat) img img' w => hydratedField w0 img img' w)
    (hydrateImage g) w0 (images g)) as H1.
  destruct H1 with (n := 0) (w := w) as (He1 & Hl1 & Hq1); [| |done|].
  { intros _ a b wa wb. apply hydratedField_stable. }
  { apply Forall_forall. intros img _ n w1 Hw1. by apply hydrateImage_step. }
  clear H1. destruct (mapIndexed (hydrateImage g) 0 (images g) w) as [imgs w1].
  cbn [fst snd] in *. unfold mapAll.
  pose proof (mapIndexed_inv extends
    (fun (_ : nat) inp inp' w =>
       inp' = withUrl inp (ii_url inp') ∧
       hydratedField w0 (ii_url inp) (ii_url inp') w)
    (fun _ => hydrateInput g) w0 (inputImages g)) as H2.
  destruct H2 with (n := 0) (w := w1) as (He2 & Hl2 & Hq2).
  { intros n a b wa wb [? ?] ?. split; [done|]. by eapply hydratedField_stable. }
  { apply Forall_forall. intros inp _ n w2 Hw2.
    destruct (hydrateInput_step w0 g inp w2) as (?&?&?); auto. }
  { by transitivity w. }
  clear H2. destruct (mapIndexed _ 0 (inputImages g) w1) as [inps w2].
  cbn [ret fst snd] in *. split; [by transitivity w1|].
  unfold hydratedAs. cbn [withImages images inputImages id].
  split; [by repeat split|]. split; [done|]. split; [|split; [done|]].
  - intros index img Hi. destruct (Hq1 index img Hi) as (img' & ? & ?).
    exists img'. split; [done|]. by eapply hydratedField_stable.
  - intros k inp Hk. destruct (Hq2 k inp Hk) as (inp' & ? & ? & ?). by exists inp'.
Qed.

(** The store is the same. *)
Definition sameStore (w w' : World) : Prop := store w' = store w.

#[global] Instance sameStore_refl : Reflexive sameStore.
Proof. by intros w. Qed.

#[global] Instance sameStore_trans : Transitive sameStore.
Proof. unfold sameStore. intros w1 w2 w3 H1 H2. congruence. Qed.

Lemma hydrateImage_sameStore (gen : Generation) (index : nat) (img : string) (w : World) :
  img = "" ∨ isRef img = true → sameStore w (hydrateImage gen index img w).2.
Proof.
  unfold hydrateImage, sameStore. intros [->|Hr]; [done|].
  rewrite (isRef_truthy _ Hr), Hr. cbn [negb]. unfold bind, getItem.
  by destruct (store w !! getRefKey img) as [[]|].
Qed.

Lemma hydrateInput_sameStore (gen : Generation) (inp : InputImage) (w : World) :
  ii_url inp = "" ∨ isRef (ii_url inp) = true → sameStore w (hydrateInput gen inp w).2.
Proof.
  unfold hydrateInput, sameStore. intros [->|Hr]; [done|].
  rewrite (isRef_truthy _ Hr), Hr. cbn [negb]. unfold bind, getItem.
  by destruct (store w !! getRefKey (ii_url inp)) as [[]|].
Qed.



(** Hydrating [holedWorld]: the reference without a payload gives the empty
    string, the other one a handle. *)
Example restoreGenerations_holedWorld :
  (restoreGenerations holedWorld).1 =
    Some (Some [withImages holedRecord [""; "blob:0"] []]) ∧
  objectURLs (restoreGenerations holedWorld).2 =
    [("blob:0", mkBlob "image/png" "bytes")].
Proof. by vm_compute. Qed.



End HydrateFacts.

(** ** Pending recovery *)

Module RecoveryFacts.

Import Storage CreatePage Examples.

(** The recovery pass is due: storage has been read, pending records came
    out of it, and they have not been reconciled yet. *)
Definition recoveryDue (st : AppState) : Prop :=
  storageHydratedRef st = true ∧ pendingReconciledRef st = false ∧
  pendingHydratedRef st = true.

Lemma noKeys_empty (st : AppState) :
  apiKey st = "" → geminiApiKey st = "" → noKeys st = true.
Proof. unfold noKeys. by intros -> ->. Qed.

Lemma reconcilePending_due (st : AppState) :
  recoveryDue st →
  reconcilePending st =
  if Nat.eqb (length (pendingGenerations st)) 0 then markReconciled st
  else if noKeys st then
    markReconciled
      (setBrowser (setPendingGenerations st [])
         (Storage.clearPending (browser (setPendingGenerations st []))).2)
  else
    let '(reconciled, st1) :=
      mapAll (reconcileOne (list_to_set (map id (generations st))))
             (pendingGenerations st) st in
    markReconciled
      (setPendingGenerations (setGenerations st1 (reconciled ++ generations st)) []).
Proof. intros (H1 & H2 & H3). unfold reconcilePending. by rewrite H1, H2, H3. Qed.

(** The recovery pass without a key, for every state: the pending list is
    emptied, the completed list is left as it was, so no pending record is
    added to it, and, at the end of the effect, the pending document is
    removed. *)
Lemma reconcilePending_no_keys_run (st : AppState) :
  recoveryDue st →
  pendingGenerations st ≠ [] →
  noKeys st = true →
  pendingGenerations (reconcilePending st) = [] ∧
  generations (reconcilePending st) = generations st ∧
  (∀ p, p ∈ pendingGenerations st → p ∉ generations st →
        p ∉ generations (reconcilePending st)) ∧
  pendingReconciledRef (reconcilePending st) = true ∧
  storageHydratedRef (reconcilePending st) = true ∧
  browser (reconcilePending st) =
    setStore (browser st) (delete PENDING_KEY (store (browser st))).
Proof.
  intros Hdue Hpending Hkeys. rewrite reconcilePending_due by done.
  destruct (pendingGenerations st) as [|p ps] eqn:E; [done|].
  cbn [length Nat.eqb]. rewrite Hkeys.
  cbn [markReconciled setBrowser setPendingGenerations pendingGenerations
       generations browser pendingReconciledRef storageHydratedRef].
  repeat split; try done. apply Hdue.
Qed.


(** Along the reconciliation only the count of random draws moves. *)
Definition drawsOnly (s s' : AppState) : Prop :=
  s' = setRandomDraws s (randomDraws s') ∧ (randomDraws s ≤ randomDraws s')%nat.

#[global] Instance drawsOnly_refl : Reflexive drawsOnly.
Proof. intros s. split; [by destruct s|done]. Qed.

#[global] Instance drawsOnly_trans : Transitive drawsOnly.
Proof.
  intros s1 s2 s3 [E1 L1] [E2 L2]. split; [|lia].
  rewrite E2 at 1. rewrite E1 at 1. by destruct s1.
Qed.

(** The promoted record [r] is the pending record [p] reconciled against
    the ids [existingIds], with draws from [first] on and before the draws
    of [s']. *)
Definition reconciledAs (rand : nat → string) (existingIds : gset string) (first : nat)
    (p r : Generation) (s' : AppState) : Prop :=
  sameData p r ∧
  (id p ∉ existingIds → r = p) ∧
  (id p ∈ existingIds →
     ∃ n, (first ≤ n < randomDraws s')%nat ∧
          id r = "generation-" +:+ Js.slice 2 10 (rand n)).

Lemma reconcileOne_step (st : AppState) (existingIds : gset string) (p : Generation)
    (s : AppState) :
  drawsOnly st s →
  drawsOnly s (reconcileOne existingIds p s).2 ∧
  reconciledAs (mathRandom st) existingIds (randomDraws st) p
    (reconcileOne existingIds p s).1 (reconcileOne existingIds p s).2.
Proof.
  intros [E L]. unfold reconcileOne, reconciledAs.
  destruct (decide (id p ∈ existingIds)) as [Hin|Hnin].
  - unfold bind, createId. cbn [ret fst snd]. split; [split|split; [|split]].
    + by destruct s.
    + cbn [setRandomDraws randomDraws]. lia.
    + by repeat split.
    + done.
    + intros _. exists (randomDraws s). cbn [setRandomDraws randomDraws withId id].
      split; [lia|]. rewrite E at 1. by destruct st.
  - cbn [ret fst snd]. split; [reflexivity|]. split; [by repeat split|].
    split; [done|]. intros ?. done.
Qed.

(** A pending record whose id is the id of a completed record is promoted
    under a minted id. *)
Example reconcilePending_collision :
  map id (generations
            (reconcilePending
               (restartedState "sk-live" [withId interruptedRecord "pending-4fzyo82m"]))) =
  ["generation-0k3v9x2m"; "pending-4fzyo82m"].
Proof. by vm_compute. Qed.

(** C5. When the recovery pass is due and a key is configured, the pass
    puts the pending records, in order, before the completed list and
    empties the pending list. Each promoted record has every field of the
    pending record but the id; the id is kept when it is not the id of a
    completed record, and is one minted by [createId("generation")] when
    it is; the image slots, the empty ones among them, are as they were. *)
Theorem reconcilePending_with_keys_promotes (st : AppState) :
  recoveryDue st →
  noKeys st = false →
  pendingGenerations (reconcilePending st) = [] ∧
  ∃ reconciled,
    generations (reconcilePending st) = reconciled ++ generations st ∧
    length reconciled = length (pendingGenerations st) ∧
    ∀ j p, pendingGenerations st !! j = Some p →
      ∃ r, reconciled !! j = Some r ∧
           sameData p r ∧
           (id p ∉ map id (generations st) → r = p) ∧
           (id p ∈ map id (generations st) →
              ∃ n, (randomDraws st ≤ n < randomDraws (reconcilePending st))%nat ∧
                   id r = "generation-" +:+ Js.slice 2 10 (mathRandom st n)) ∧
           (∀ index, images p !! index = Some "" → images r !! index = Some "").
Proof.
  intros Hdue Hkeys. rewrite reconcilePending_due by done. rewrite Hkeys.
  destruct (Nat.eqb (length (pendingGenerations st)) 0) eqn:E.
  { apply Nat.eqb_eq, nil_length_inv in E.
    cbn [markReconciled pendingGenerations generations]. split; [done|].
    exists []. split; [done|]. split; [by rewrite E|]. intros j p Hj.
    by rewrite E, lookup_nil in Hj. }
  clear E. unfold mapAll.
  set (existingIds := list_to_set (map id (generations st)) : gset string).
  pose proof (mapIndexed_inv drawsOnly
    (fun (_ : nat) p r s' =>
       reconciledAs (mathRandom st) existingIds (randomDraws st) p r s')
    (fun _ => reconcileOne existingIds) st (pendingGenerations st)) as H.
  destruct H with (n := 0) (w := st) as (Hd & Hlen & Hq); [| |reflexivity|].
  { intros _ p r sa sb (Hs & Hk & Hc) [_ Hle]. split; [done|]. split; [done|].
    intros Hin. destruct (Hc Hin) as (n & Hn & Hid). exists n. split; [lia|done]. }
  { apply Forall_forall. intros p _ n s Hs. by apply reconcileOne_step. }
  clear H. destruct (mapIndexed _ 0 (pendingGenerations st) st) as [reconciled st1].
  cbn [fst snd] in *. destruct Hd as [Hst1 _].
  cbn [markReconciled setPendingGenerations setGenerations pendingGenerations
       generations randomDraws].
  split; [done|]. exists reconciled.
  split; [done|]. split; [done|].
  intros j p Hj. destruct (Hq j p Hj) as (r & Hr & Hs & Hk & Hc).
  exists r. split; [done|]. split; [done|]. split; [|split].
  - intros Hnot. apply Hk. subst existingIds. by rewrite elem_of_list_to_set.
  - intros Hin. apply Hc. subst existingIds. by rewrite elem_of_list_to_set.
  - intros index Hi. destruct Hs as (_&_&_&_&_&_&_&_&Himgs&_). by rewrite <- Himgs.
Qed.

Lemma reconcilePending_with_keys_promotes_witness :
  recoveryDue (restartedState "sk-live" [withId interruptedRecord "pending-4fzyo82m"]) ∧
  noKeys (restartedState "sk-live" [withId interruptedRecord "pending-4fzyo82m"]) = false ∧
  pendingGenerations
    (reconcilePending
       (restartedState "sk-live" [withId interruptedRecord "pending-4fzyo82m"])) = [].
Proof.
  split; [done|]. split; [done|].
  exact (proj1 (reconcilePending_with_keys_promotes
                  (restartedState "sk-live" [withId interruptedRecord "pending-4fzyo82m"])
                  ltac:(done) eq_refl)).
Defined.

End RecoveryFacts.

(** ** Favourites *)

Module FavoritesFacts.

Import Storage CreatePage Examples.

(** C10. [toggleFavorite] adds the composite key when it is absent and
    removes it when it is present, leaves the membership of every other
    element as it was, and toggling the same pair twice gives back the set;
    [handleToggleFavorite] applies it to the favourites of the state. *)
Theorem toggleFavorite_involution (s : gset string) (generationId : string) (imageIndex : nat) :
  let key := generationId +:+ ":" +:+ Js.ofIndex imageIndex in
  let toggled := toggleFavorite generationId imageIndex s in
  (key ∈ toggled ↔ key ∉ s) ∧
  (∀ x, x ≠ key → (x ∈ toggled ↔ x ∈ s)) ∧
  toggleFavorite generationId imageIndex toggled = s ∧
  (∀ st, favorites (handleToggleFavorite generationId imageIndex st) =
         toggleFavorite generationId imageIndex (favorites st)).
Proof.
  intros key toggled. subst toggled. unfold toggleFavorite. fold key.
  destruct (decide (key ∈ s)) as [Hin|Hnin].
  - split; [set_solver|]. split; [set_solver|]. split; [|done].
    rewrite decide_False by set_solver.
    apply set_eq. intros x. destruct (decide (x = key)); set_solver.
  - split; [set_solver|]. split; [set_solver|]. split; [|done].
    rewrite decide_True by set_solver. set_solver.
Qed.

Lemma persistFavorites_ok (favorites : gset string) (w : World) :
  setItemFails w FAVORITES_KEY = false →
  persistFavorites favorites w =
  (true, setStore w (<[FAVORITES_KEY := VStrings (elements favorites)]> (store w))).
Proof. intros H. unfold persistFavorites, setItem. by rewrite H. Qed.

Lemma restoreFavorites_stored (ss : list string) (w : World) :
  store w !! FAVORITES_KEY = Some (VStrings ss) →
  restoreFavorites w = (list_to_set ss, w).
Proof. intros H. unfold restoreFavorites, bind, getItem. by rewrite H. Qed.

(** C9. When the store takes the write, [persistFavorites] followed by
    [restoreFavorites] returns the set that was persisted; so after
    toggling "gen-1:2" on, persisting and reloading, the set contains
    "gen-1:2". *)
Theorem favorites_persist_restore (favorites : gset string) (w : World) :
  setItemFails w FAVORITES_KEY = false →
  (persistFavorites favorites w).1 = true ∧
  (restoreFavorites (persistFavorites favorites w).2).1 = favorites ∧
  ("gen-1:2" ∉ favorites →
   "gen-1:2" ∈ (restoreFavorites
                  (persistFavorites (toggleFavorite "gen-1" 2 favorites) w).2).1).
Proof.
  intros Hw.
  assert (Hround : ∀ s, (restoreFavorites (persistFavorites s w).2).1 = s).
  { intros s. rewrite persistFavorites_ok by done. cbn [snd].
    rewrite (restoreFavorites_stored (elements s)).
    - cbn [fst]. apply list_to_set_elements_L.
    - cbn [setStore store]. apply lookup_insert_eq. }
  split; [by rewrite persistFavorites_ok|]. split; [apply Hround|].
  intros Hnot. rewrite Hround. unfold toggleFavorite.
  change ("gen-1" +:+ ":" +:+ Js.ofIndex 2) with "gen-1:2".
  rewrite decide_False by done. set_solver.
Qed.

Lemma favorites_persist_restore_witness :
  setItemFails onlineWorld FAVORITES_KEY = false ∧
  (restoreFavorites
     (persistFavorites {["gen-1:2"; "gen-7:0"]} onlineWorld).2).1 =
  {["gen-1:2"; "gen-7:0"]}.
Proof.
  split; [done|].
  exact (proj1 (proj2 (favorites_persist_restore {["gen-1:2"; "gen-7:0"]}
                         onlineWorld eq_refl))).
Defined.

End FavoritesFacts.

(** ** The upload path *)

Module CloudStorageFacts.

Import CloudStorage Examples.

Lemma upsertRow_ids (table : list GenerationRow) (row : GenerationRow) :
  map row_id (upsertRow table row) =
  if decide (row_id row ∈ map row_id table) then map row_id table
  else map row_id table ++ [row_id row].
Proof.
  unfold upsertRow. destruct (decide _) as [Hin|Hnin].
  - clear Hin. induction table as [|r table IH]; [done|].
    cbn [map]. rewrite IH. f_equal. by destruct (decide _) as [->|].
  - by rewrite map_app.
Qed.

Lemma upsertRow_NoDup (table : list GenerationRow) (row : GenerationRow) :
  NoDup (map row_id table) → NoDup (map row_id (upsertRow table row)).
Proof.
  intros H. rewrite upsertRow_ids. destruct (decide _) as [Hin|Hnin]; [done|].
  apply NoDup_app. split; [done|]. split; [|apply NoDup_singleton].
  intros x Hx Heq%list_elem_of_singleton. by subst x.
Qed.

Lemma upsertRow_id_in (table : list GenerationRow) (row : GenerationRow) (i : string) :
  i ∈ map row_id (upsertRow table row) ↔ i ∈ map row_id table ∨ i = row_id row.
Proof.
  rewrite upsertRow_ids. destruct (decide _) as [Hin|Hnin].
  - split; [by left|]. by intros [?| ->].
  - rewrite elem_of_app, list_elem_of_singleton. done.
Qed.

(** After the upsert of [row], the rows of its id are [row] itself. *)
Lemma upsertRow_row (table : list GenerationRow) (row row' : GenerationRow) :
  row' ∈ upsertRow table row →
  (row_id row' = row_id row ∧ row' = row) ∨
  (row_id row' ≠ row_id row ∧ row' ∈ table).
Proof.
  unfold upsertRow. destruct (decide _) as [Hin|Hnin].
  - intros (r & -> & Hr)%list_elem_of_fmap.
    destruct (decide (row_id r = row_id row)) as [E|Hne].
    + by left.
    + right. by split.
  - intros [Hin|Heq%list_elem_of_singleton]%elem_of_app; [|subst row'; by left].
    right. split; [|done]. intros E. apply Hnin. rewrite <- E.
    by apply list_elem_of_fmap_2.
Qed.

Lemma upsertRows_NoDup (rows table : list GenerationRow) :
  NoDup (map row_id table) → NoDup (map row_id (upsertRows rows table)).
Proof.
  unfold upsertRows. revert table.
  induction rows as [|row rows IH]; intros table H; [done|].
  cbn [foldl]. by apply IH, upsertRow_NoDup.
Qed.

Lemma upsertRows_id_in (rows table : list GenerationRow) (i : string) :
  i ∈ map row_id (upsertRows rows table) ↔
  i ∈ map row_id table ∨ i ∈ map row_id rows.
Proof.
  unfold upsertRows. revert table.
  induction rows as [|row rows IH]; intros table; cbn [foldl map].
  - split; [by left|]. by intros [?|?%elem_of_nil].
  - rewrite IH, upsertRow_id_in, elem_of_cons. tauto.
Qed.

(** A row of the table after the upsert is a row of the batch when its id
    is an id of the batch, and a row of the table before otherwise. *)
Lemma upsertRows_row (rows table : list GenerationRow) (row' : GenerationRow) :
  row' ∈ upsertRows rows table →
  (row_id row' ∈ map row_id rows ∧ row' ∈ rows) ∨
  (¬ row_id row' ∈ map row_id rows) ∧ row' ∈ table.
Proof.
  unfold upsertRows. revert table.
  induction rows as [|row rows IH]; intros table; cbn [foldl map].
  - intros H. right. split; [by intros ?%elem_of_nil|done].
  - intros [[Hid Hin]|[Hid Hin]]%IH.
    + left. split; by right.
    + apply upsertRow_row in Hin as [[E ->]|[Hne Hin]].
      * left. split; by left.
      * right. split; [|done]. by intros [?|?]%elem_of_cons.
Qed.

Lemma filter_none {A} (P : A → Prop) `{!∀ x, Decision (P x)} (l : list A) :
  (∀ x, x ∈ l → ¬ P x) → filter P l = [].
Proof.
  induction l as [|x l IH]; intros Hnone; [done|].
  rewrite filter_cons_False by (apply Hnone; left).
  apply IH. intros y Hy. apply Hnone. by right.
Qed.

(** With ids that do not repeat, an id of the table has one row. *)
Lemma one_row_per_id (table : list GenerationRow) (i : string) :
  NoDup (map row_id table) → i ∈ map row_id table →
  ∃ row, filter (fun row => row_id row = i) table = [row].
Proof.
  induction table as [|r table IH]; [by intros _ ?%elem_of_nil|].
  cbn [map]. intros [Hr Hnd]%NoDup_cons Hin.
  destruct (decide (row_id r = i)) as [E|Hne].
  - exists r. rewrite filter_cons_True by done. f_equal.
    apply filter_none.
    intros r' Hr' E'. apply Hr. rewrite E, <- E'. by apply list_elem_of_fmap_2.
  - rewrite filter_cons_False by done. apply IH; [done|].
    by apply elem_of_cons in Hin as [?|?].
Qed.

(** The loop of [saveGenerationsWithImages] does not touch the remote
    tables, and gives each record with, at most, other images. *)
Lemma uploadGenerationImages_remote (generationId : string) (imgs : list string)
    (n : nat) (r : Remote) :
  (mapIndexed (uploadOne generationId) n imgs r).2 = r.
Proof.
  revert n. induction imgs as [|img imgs IH]; intros n; [done|].
  rewrite mapIndexed_cons.
  assert ((uploadOne generationId n img r).2 = r) as E.
  { unfold uploadOne. destruct (negb _ || negb _); [done|].
    destruct (needsUpload _ _); [|done]. by destruct (storageUpload _ _ _ _). }
  destruct (uploadOne generationId n img r) as [y r1]. cbn [snd] in E. subst r1.
  specialize (IH (S n)). by destruct (mapIndexed _ (S n) imgs r).
Qed.

Lemma processGeneration_spec (uploadImages : bool) (gen : Generation) (r : Remote) :
  (processGeneration uploadImages gen r).2 = r ∧
  ∃ imgs, (processGeneration uploadImages gen r).1 = withImages gen imgs (inputImages gen).
Proof.
  unfold processGeneration. destruct (_ && _).
  - unfold bind, uploadGenerationImages.
    pose proof (uploadGenerationImages_remote (id gen) (images gen) 0 r) as E.
    destruct (mapIndexed _ 0 (images gen) r) as [imgs r1]. cbn [snd] in E. subst r1.
    cbn [ret fst snd]. split; [done|]. by exists imgs.
  - cbn [ret fst snd]. split; [done|]. by eexists.
Qed.

Lemma processGenerations_spec (uploadImages : bool) (gens : list Generation) (r : Remote) :
  (mapAll (processGeneration uploadImages) gens r).2 = r ∧
  Forall2 (fun gen p => ∃ imgs, p = withImages gen imgs (inputImages gen))
          gens (mapAll (processGeneration uploadImages) gens r).1.
Proof.
  unfold mapAll. generalize 0. induction gens as [|gen gens IH]; intros n.
  - split; [done|constructor].
  - rewrite mapIndexed_cons.
    destruct (processGeneration_spec uploadImages gen r) as [E Himgs].
    destruct (processGeneration uploadImages gen r) as [p r1].
    cbn [fst snd] in *. subst r1. destruct (IH (S n)) as [E' HF].
    destruct (mapIndexed _ (S n) gens r) as [ps r2]. cbn [fst snd] in *.
    split; [done|]. by constructor.
Qed.

(** [saveGenerationsWithImages] step by step. *)
Lemma saveGenerationsWithImages_eq (gens : list Generation) (uploadImages : bool) (r : Remote) :
  saveGenerationsWithImages gens uploadImages r =
  match sessionUser r with
  | None => (None, r)
  | Some user =>
      let rows := map (fun gen => toDbFormat gen user)
                      (mapAll (processGeneration uploadImages) gens r).1 in
      let sent := setRequests (logUpload (UploadGenerations rows) r).2 (S (requests r)) in
      if requestFails r (requests r) then (None, sent)
      else (Some tt, setGenerationsTable sent (upsertRows rows (generationsTable r)))
  end.
Proof.
  unfold saveGenerationsWithImages. destruct (sessionUser r) as [user|]; [|done].
  unfold bind at 1.
  destruct (processGenerations_spec uploadImages gens r) as [E _].
  destruct (mapAll (processGeneration uploadImages) gens r) as [ps r1].
  cbn [fst snd] in *. subst r1.
  unfold upsertGenerations, bind, logUpload, request.
  cbn [requestFails requests fst snd].
  by destruct (requestFails r (requests r)).
Qed.

(** What a successful [saveGenerationsWithImages] does to the table. *)
Lemma saveGenerationsWithImages_ok (gens : list Generation) (uploadImages : bool) (r : Remote) :
  (saveGenerationsWithImages gens uploadImages r).1 = Some tt →
  ∃ user ps,
    sessionUser r = Some user ∧
    Forall2 (fun gen p => ∃ imgs, p = withImages gen imgs (inputImages gen)) gens ps ∧
    generationsTable (saveGenerationsWithImages gens uploadImages r).2 =
      upsertRows (map (fun gen => toDbFormat gen user) ps) (generationsTable r) ∧
    favoritesTable (saveGenerationsWithImages gens uploadImages r).2 = favoritesTable r ∧
    sessionUser (saveGenerationsWithImages gens uploadImages r).2 = Some user ∧
    uploads (saveGenerationsWithImages gens uploadImages r).2 =
      uploads r ++ [UploadGenerations (map (fun gen => toDbFormat gen user) ps)].
Proof.
  rewrite saveGenerationsWithImages_eq.
  destruct (sessionUser r) as [user|] eqn:Hu; [|done]. cbn zeta.
  destruct (requestFails r (requests r)); [done|]. intros _.
  exists user, (mapAll (processGeneration uploadImages) gens r).1.
  split; [done|]. split; [apply processGenerations_spec|].
  by cbn [snd setGenerationsTable setRequests logUpload generationsTable
          favoritesTable sessionUser uploads].
Qed.

(** What a failed [saveGenerationsWithImages] leaves: the tables as they
    were; the upsert may have been sent. *)
Lemma saveGenerationsWithImages_fail (gens : list Generation) (uploadImages : bool) (r : Remote) :
  (saveGenerationsWithImages gens uploadImages r).1 = None →
  sessionUser (saveGenerationsWithImages gens uploadImages r).2 = sessionUser r ∧
  generationsTable (saveGenerationsWithImages gens uploadImages r).2 = generationsTable r ∧
  favoritesTable (saveGenerationsWithImages gens uploadImages r).2 = favoritesTable r.
Proof.
  rewrite saveGenerationsWithImages_eq.
  destruct (sessionUser r) as [user|] eqn:Hu; [|done]. cbn zeta.
  by destruct (requestFails r (requests r)).
Qed.

Lemma processed_ids (user : string) (gens ps : list Generation) :
  Forall2 (fun gen p => ∃ imgs, p = withImages gen imgs (inputImages gen)) gens ps →
  map row_id (map (fun gen => toDbFormat gen user) ps) = map id gens.
Proof.
  induction 1 as [|gen p gens ps [imgs ->] _ IH]; [done|].
  cbn [map toDbFormat row_id withImages id]. by rewrite IH.
Qed.

(** C8. Two uploads through [saveGenerationsWithImages] that both succeed,
    each of a batch with a record of the id [i], leave exactly one row of
    that id in the table (whose ids did not repeat before), and that row
    is the row of a record of the second batch: the second upload replaces
    the row of the first. *)
Theorem saveGenerationsWithImages_twice_one_row
    (gens1 gens2 : list Generation) (upload1 upload2 : bool) (r : Remote) (i : string) :
  NoDup (map row_id (generationsTable r)) →
  i ∈ map id gens1 → i ∈ map id gens2 →
  (saveGenerationsWithImages gens1 upload1 r).1 = Some tt →
  (saveGenerationsWithImages gens2 upload2
     (saveGenerationsWithImages gens1 upload1 r).2).1 = Some tt →
  length (filter (fun row => row_id row = i)
            (generationsTable (saveGenerationsWithImages gens1 upload1 r).2)) = 1 ∧
  ∃ row,
    filter (fun row => row_id row = i)
      (generationsTable
         (saveGenerationsWithImages gens2 upload2
            (saveGenerationsWithImages gens1 upload1 r).2).2) = [row] ∧
    ∃ gen imgs user,
      gen ∈ gens2 ∧ id gen = i ∧ sessionUser r = Some user ∧
      row = toDbFormat (withImages gen imgs (inputImages gen)) user.
Proof.
  intros Hnd Hi1 Hi2 Hok1 Hok2.
  destruct (saveGenerationsWithImages_ok _ _ _ Hok1)
    as (user & ps1 & Hu & HF1 & Ht1 & _ & Hu1 & _).
  destruct (saveGenerationsWithImages_ok _ _ _ Hok2)
    as (user2 & ps2 & Hu2 & HF2 & Ht2 & _).
  assert (user2 = user) as -> by congruence.
  set (r1 := (saveGenerationsWithImages gens1 upload1 r).2) in *.
  set (r2 := (saveGenerationsWithImages gens2 upload2 r1).2) in *.
  assert (Hnd1 : NoDup (map row_id (generationsTable r1)))
    by (rewrite Ht1; by apply upsertRows_NoDup).
  assert (Hnd2 : NoDup (map row_id (generationsTable r2)))
    by (rewrite Ht2; by apply upsertRows_NoDup).
  split.
  - destruct (one_row_per_id (generationsTable r1) i Hnd1) as [row ->]; [|done].
    rewrite Ht1. apply upsertRows_id_in. right. by rewrite (processed_ids _ gens1).
  - destruct (one_row_per_id (generationsTable r2) i Hnd2) as [row Hrow].
    { rewrite Ht2. apply upsertRows_id_in. right. by rewrite (processed_ids _ gens2). }
    exists row. split; [done|].
    assert (Hin : row ∈ filter (fun row => row_id row = i) (generationsTable r2))
      by (rewrite Hrow; left).
    apply list_elem_of_filter in Hin as [Hid Hin]. rewrite Ht2 in Hin.
    apply upsertRows_row in Hin as [[_ Hin]|[Hnot _]].
    2: { exfalso. apply Hnot. by rewrite Hid, (processed_ids _ gens2). }
    apply list_elem_of_fmap in Hin as (p & -> & Hp).
    apply list_elem_of_lookup in Hp as [j Hj].
    destruct (Forall2_lookup_r _ _ _ _ _ HF2 Hj) as (gen & Hgen & imgs & ->).
    exists gen, imgs, user. split; [by eapply list_elem_of_lookup_2|]. by split.
Qed.

Lemma saveGenerationsWithImages_twice_one_row_witness :
  length (filter (fun row => row_id row = "generation-a1")
            (generationsTable
               (saveGenerationsWithImages [sampleRecord "generation-a1" "a cat" ["data:image/png;base64,AAAA"]] true
                  (saveGenerationsWithImages [sampleRecord "generation-a1" "a cat" ["data:image/png;base64,AAAA"]] true
                     freshRemote).2).2)) = 1.
Proof.
  destruct (saveGenerationsWithImages_twice_one_row
              [sampleRecord "generation-a1" "a cat" ["data:image/png;base64,AAAA"]]
              [sampleRecord "generation-a1" "a cat" ["data:image/png;base64,AAAA"]]
              true true freshRemote "generation-a1")
    as [_ (row & Hrow & _)].
  - apply NoDup_nil_2.
  - left.
  - left.
  - by vm_compute.
  - by vm_compute.
  - by rewrite Hrow.
Defined.

End CloudStorageFacts.

(** ** The sign-in merge *)

Module MergeFacts.

Import CreatePage CloudStorage CloudSync Examples.

Lemma insertSorted_perm {A} (compareFn : A → A → Z) (x : A) (l : list A) :
  insertSorted compareFn x l ≡ₚ x :: l.
Proof.
  induction l as [|y l IH]; [done|]. cbn [insertSorted].
  destruct (compareFn x y <=? 0)%Z; [done|].
  rewrite IH. apply Permutation_swap.
Qed.

Lemma arraySort_perm {A} (compareFn : A → A → Z) (l : list A) :
  arraySort compareFn l ≡ₚ l.
Proof.
  induction l as [|x l IH]; [done|].
  unfold arraySort in *. cbn [foldr]. by rewrite insertSorted_perm, IH.
Qed.

(** The merge keeps the local records and adds the cloud records whose id
    is not a local id. *)
Lemma mergeCloudGenerations_perm (getTime : string → option Z)
    (cloudGenerations local : list Generation) :
  mergeCloudGenerations getTime cloudGenerations local ≡ₚ
  local ++ filter (fun g => id g ∉ map id local) cloudGenerations.
Proof.
  unfold mergeCloudGenerations.
  set (localIds := list_to_set (map id local) : gset string).
  assert (filter (fun g => id g ∉ localIds) cloudGenerations =
          filter (fun g => id g ∉ map id local) cloudGenerations) as E.
  { apply list_filter_iff. intros g. subst localIds. by rewrite elem_of_list_to_set. }
  rewrite E. destruct (Nat.eqb _ 0) eqn:Hlen.
  - apply Nat.eqb_eq, nil_length_inv in Hlen. rewrite Hlen. by rewrite app_nil_r.
  - apply arraySort_perm.
Qed.

(** The cloud records [loadGenerationsFromCloud] can return: the rows of
    the signed-in user. *)
Definition cloudRecords (r : Remote) : list Generation :=
  map fromDbFormat
    (map (selectRow r)
       (filter (fun row => Some (row_user_id row) = sessionUser r) (generationsTable r))).

(** The tables, the session and the timestamps of the remote are the
    same. *)
Definition sameTables (r r' : Remote) : Prop :=
  sessionUser r' = sessionUser r ∧ generationsTable r' = generationsTable r ∧
  favoritesTable r' = favoritesTable r ∧
  selectRow r' = selectRow r.

Lemma loadSettingsFromCloud_tables (r : Remote) :
  sameTables r (loadSettingsFromCloud r).2.
Proof.
  unfold loadSettingsFromCloud. destruct (sessionUser r) eqn:E; [|done].
  unfold bind, request. by destruct (requestFails r (requests r)).
Qed.

Lemma loadGenerationsFromCloud_spec (r : Remote) :
  sameTables r (loadGenerationsFromCloud r).2 ∧
  ∀ gs, (loadGenerationsFromCloud r).1 = Some gs → ∀ g, g ∈ gs → g ∈ cloudRecords r.
Proof.
  unfold loadGenerationsFromCloud, cloudRecords.
  destruct (sessionUser r) as [user|] eqn:E.
  2: { split; [done|]. intros gs [= <-] g ?%elem_of_nil. done. }
  unfold bind, request. destruct (requestFails r (requests r)); cbn [negb ret fst snd].
  - by split.
  - split; [done|]. cbn [setRequests timestamptz generationsTable].
    intros gs [= <-] g (row & -> & (sent & -> & Hsent)%list_elem_of_fmap)%list_elem_of_fmap.
    apply list_elem_of_fmap_2.
    change (selectRow (setRequests r (S (requests r)))) with (selectRow r).
    apply list_elem_of_fmap_2. rewrite arraySort_perm in Hsent.
    apply list_elem_of_filter in Hsent as [<- Hsent].
    apply list_elem_of_filter. by split.
Qed.

Lemma loadFavoritesFromCloud_tables (r : Remote) :
  sameTables r (loadFavoritesFromCloud r).2.
Proof.
  unfold loadFavoritesFromCloud. destruct (sessionUser r) eqn:E; [|done].
  unfold bind, request. by destruct (requestFails r (requests r)).
Qed.

Lemma cloudRecords_sameTables (r r' : Remote) :
  sameTables r r' → cloudRecords r' = cloudRecords r.
Proof. intros (E1 & E2 & _ & E3). unfold cloudRecords. by rewrite E1, E2, E3. Qed.

Lemma loadCloud_spec (h : Hook) :
  generations (app (loadCloud h).2) = generations (app h) ∧
  dateGetTime (app (loadCloud h).2) = dateGetTime (app h) ∧
  sameTables (remote h) (remote (loadCloud h).2) ∧
  ∀ cloud, (loadCloud h).1 = Some cloud →
    ∀ g, g ∈ cloud.1 → g ∈ cloudRecords (remote h).
Proof.
  unfold loadCloud, bindE, bind, liftRemote.
  pose proof (loadSettingsFromCloud_tables (remote h)) as T1.
  destruct (loadSettingsFromCloud (remote h)) as [[cs|] r1]; cbn [snd] in T1.
  2: { cbn [fst snd app remote]. split; [done|]. split; [done|]. split; [done|].
       by intros cloud [=]. }
  set (h1 := (match cs with
              | Some value => modify (handleSetSyncImages value)
              | None => ret (Some ())
              end {| app := app h; refs := refs h; remote := r1 |})).
  assert (h1.1 = Some tt ∧ generations (app h1.2) = generations (app h) ∧
          dateGetTime (app h1.2) = dateGetTime (app h) ∧ remote h1.2 = r1)
    as (Hres & Hg & Hd & Hr).
  { subst h1. by destruct cs. }
  destruct h1 as [o h1']. cbn [fst snd] in *. subst o.
  pose proof (loadGenerationsFromCloud_spec (remote h1')) as [T2 Hcg].
  destruct (loadGenerationsFromCloud (remote h1')) as [lg r2]. cbn [fst snd] in *.
  pose proof (loadFavoritesFromCloud_tables r2) as T3.
  cbn [remote].
  destruct (loadFavoritesFromCloud r2) as [lf r3]. cbn [fst snd] in *.
  assert (T : sameTables (remote h) r3).
  { subst r1. destruct T1 as (?&?&?&?), T2 as (?&?&?&?), T3 as (?&?&?&?).
    repeat split; congruence. }
  destruct lg as [cg|], lf as [cf|]; cbn [ret fst snd app remote];
    (split; [done|]; split; [done|]; split; [done|]); intros cloud [=].
  subst cloud. cbn [fst]. intros g Hin.
  rewrite <- (cloudRecords_sameTables (remote h) (remote h1')) by (by subst r1).
  by eapply Hcg.
Qed.

Lemma liftRemote_app {A} (m : St Remote A) (h : Hook) :
  app (liftRemote m h).2 = app h ∧ refs (liftRemote m h).2 = refs h ∧
  remote (liftRemote m h).2 = (m (remote h)).2 ∧ (liftRemote m h).1 = (m (remote h)).1.
Proof. unfold liftRemote. by destruct (m (remote h)). Qed.

Lemma uploadLocalOnly_app (gens : list Generation) (favs : gset string) (up : bool)
    (cg : list Generation) (cf : gset string) (h : Hook) :
  app (uploadLocalOnly gens favs up cg cf h).2 = app h.
Proof.
  unfold uploadLocalOnly, bindE, when.
  destruct (Nat.ltb 0 (length _)).
  - pose proof (liftRemote_app (saveGenerationsWithImages
        (filter (fun g => id g ∉ (list_to_set (map id cg) : gset string)) gens) up) h)
      as (Ha & _).
    destruct (liftRemote _ h) as [[[]|] h1]; cbn [snd] in *; [|done].
    destruct (Nat.ltb 0 (size _)); [|done].
    pose proof (liftRemote_app (saveFavoritesToCloud (cf ∪ favs)) h1) as (Ha' & _).
    destruct (liftRemote _ h1) as [o h2]. cbn [snd] in *. congruence.
  - cbn [ret]. destruct (Nat.ltb 0 (size _)); [|done].
    pose proof (liftRemote_app (saveFavoritesToCloud (cf ∪ favs)) h) as (Ha' & _).
    by destruct (liftRemote _ h) as [o h2].
Qed.

Lemma mergeCloudIntoLocal_generations (gens : list Generation) (favs : gset string)
    (cg : list Generation) (cf : gset string) (h : Hook) :
  generations (app (mergeCloudIntoLocal gens favs cg cf h)) =
  mergeCloudGenerations (dateGetTime (app h))
    (filter (fun g => id g ∉ (list_to_set (map id gens) : gset string)) cg)
    (generations (app h)).
Proof.
  unfold mergeCloudIntoLocal.
  set (cloudOnly := filter (fun g => id g ∉ (list_to_set (map id gens) : gset string)) cg).
  cbn zeta. destruct (Nat.ltb 0 (length cloudOnly)) eqn:E.
  - by destruct (Nat.ltb 0 (size cf)).
  - assert (cloudOnly = []) as ->.
    { apply Nat.ltb_ge in E. apply nil_length_inv. lia. }
    by destruct (Nat.ltb 0 (size cf)).
Qed.

(** What [syncWithCloud] makes of the local records: nothing, or the merge
    of cloud records. *)
Lemma syncWithCloud_generations (h : Hook) :
  generations (app (syncWithCloud h)) = generations (app h) ∨
  ∃ cloudGenerations,
    (∀ g, g ∈ cloudGenerations → g ∈ cloudRecords (remote h)) ∧
    generations (app (syncWithCloud h)) =
      mergeCloudGenerations (dateGetTime (app h)) cloudGenerations (generations (app h)).
Proof.
  unfold syncWithCloud, syncWithCloudBody, bindE, modify.
  pose proof (loadCloud_spec (setSyncInProgress true h)) as (Hg & Hd & _ & Hcloud).
  destruct (loadCloud (setSyncInProgress true h)) as [[[cg cf]|] h1];
    cbn [fst snd] in *; [|by left].
  pose proof (uploadLocalOnly_app (generations (app h)) (favorites (app h))
                (syncImages (refs h)) cg cf h1) as Ha.
  destruct (uploadLocalOnly _ _ _ cg cf h1) as [[[]|] h2]; cbn [fst snd] in *.
  - right. exists (filter (fun g => id g ∉ (list_to_set (map id (generations (app h))) : gset string)) cg).
    split.
    + intros g [_ Hin]%list_elem_of_filter. by apply (Hcloud (cg, cf) eq_refl).
    + cbn [setSyncInProgress setRefs app].
      rewrite mergeCloudIntoLocal_generations. by rewrite Ha, Hd, Hg.
  - left. cbn [setSyncInProgress setRefs app]. by rewrite Ha.
Qed.

(** The local record of id "1" keeps its prompt when the remote holds a
    record of id "1" with another prompt; the remote record of id "2" is
    added. *)
Example signInEffect_local_prompt_wins :
  map (fun g => (id g, prompt g)) (generations (app (signInEffect signingInHook))) =
  [("1", "local prompt"); ("2", "other device")].
Proof. by vm_compute. Qed.

(** C2. The sign-in merge keeps every local record as it is and adds only
    cloud records whose id is not a local id: the local records after the
    merge are the local records before it together with such records, a
    record whose id was a local id is a record that was local, and the
    records of a local id are the same before and after. *)
Theorem syncWithCloud_local_wins (h : Hook) :
  let local := generations (app h) in
  let merged := generations (app (syncWithCloud h)) in
  (∃ added,
     merged ≡ₚ local ++ added ∧
     ∀ g, g ∈ added → g ∈ cloudRecords (remote h) ∧ id g ∉ map id local) ∧
  (∀ g, g ∈ merged → id g ∈ map id local → g ∈ local) ∧
  (∀ i, i ∈ map id local →
     filter (fun g => id g = i) merged ≡ₚ filter (fun g => id g = i) local).
Proof.
  intros local merged.
  assert (Hadded : ∃ added,
            merged ≡ₚ local ++ added ∧
            ∀ g, g ∈ added → g ∈ cloudRecords (remote h) ∧ id g ∉ map id local).
  { destruct (syncWithCloud_generations h) as [E|(cg & Hcg & E)].
    - exists []. subst merged local. rewrite E, app_nil_r. split; [done|].
      by intros g ?%elem_of_nil.
    - exists (filter (fun g => id g ∉ map id local) cg). subst merged. rewrite E.
      split; [apply mergeCloudGenerations_perm|].
      intros g [Hid Hin]%list_elem_of_filter. split; [by apply Hcg|done]. }
  split; [done|]. destruct Hadded as (added & Hperm & Hadded). split.
  - intros g Hin Hid. rewrite Hperm in Hin.
    apply elem_of_app in Hin as [?|Hin]; [done|].
    by destruct (Hadded g Hin).
  - intros i Hi. rewrite Hperm, filter_app.
    rewrite (CloudStorageFacts.filter_none _ added), app_nil_r; [done|].
    intros g Hin <-. by destruct (Hadded g Hin).
Qed.

End MergeFacts.

(** ** The debounced synchronisation *)

Module SyncFacts.

Import CreatePage CloudStorage CloudSync CloudStorageFacts MergeFacts Examples.

Lemma upsertRow_other (table : list GenerationRow) (row : GenerationRow) (i : string) :
  row_id row ≠ i →
  filter (fun r => row_id r = i) (upsertRow table row) =
  filter (fun r => row_id r = i) table.
Proof.
  intros Hne. unfold upsertRow. destruct (decide _) as [_|_].
  - induction table as [|r table IH]; [done|]. cbn [map].
    destruct (decide (row_id r = row_id row)) as [E|E].
    + rewrite !filter_cons_False by congruence. exact IH.
    + destruct (decide (row_id r = i)).
      * rewrite !filter_cons_True by done. by rewrite IH.
      * rewrite !filter_cons_False by done. exact IH.
  - rewrite filter_app, filter_cons_False by done. by rewrite filter_nil, app_nil_r.
Qed.

Lemma upsertRows_other (rows table : list GenerationRow) (i : string) :
  i ∉ map row_id rows →
  filter (fun r => row_id r = i) (upsertRows rows table) =
  filter (fun r => row_id r = i) table.
Proof.
  unfold upsertRows. revert table.
  induction rows as [|row rows IH]; intros table Hi; [done|].
  cbn [foldl]. cbn [map] in Hi. apply not_elem_of_cons in Hi as [Hne Hi].
  rewrite IH by done. by apply upsertRow_other.
Qed.

Lemma newGenerations_ids (lastSynced : SyncKey) (gens : list Generation) (i : string) :
  i ∈ parseKey lastSynced → i ∉ map id (newGenerations lastSynced gens).
Proof.
  intros Hi (g & -> & Hg)%list_elem_of_fmap.
  apply list_elem_of_filter in Hg as [Hnot _]. apply Hnot.
  by apply elem_of_list_to_set.
Qed.

(** [syncGenerations] step by step. *)
Lemma syncGenerations_eq (gens : list Generation) (key : SyncKey) (up : bool) (h : Hook) :
  let fresh := newGenerations (lastSyncedGenerationsRef (refs h)) gens in
  let saved := saveGenerationsWithImages fresh up (remote h) in
  syncGenerations gens key up h =
  setSyncInProgress false
    (if Nat.ltb 0 (length fresh) then
       match saved.1 with
       | Some _ => setLastSyncedGenerations key
                     {| app := app h; refs := refs h; remote := saved.2 |}
       | None => {| app := app h; refs := refs h; remote := saved.2 |}
       end
     else setLastSyncedGenerations key h).
Proof.
  cbn zeta. unfold syncGenerations, bindE, when, modify.
  cbn [setSyncInProgress setRefs refs lastSyncedGenerationsRef].
  destruct (Nat.ltb 0 (length _)).
  - unfold liftRemote.
    change (remote (setSyncInProgress true h)) with (remote h).
    by destruct (saveGenerationsWithImages _ up (remote h)) as [[[]|] r1].
  - done.
Qed.

(** [saveFavoritesToCloud] step by step. *)
Lemma saveFavoritesToCloud_eq (favs : gset string) (r : Remote) :
  saveFavoritesToCloud favs r =
  match sessionUser r with
  | None => (None, r)
  | Some user =>
      let rows := map (favoriteRow user) (elements favs) in
      let r1 := setRequests r (S (requests r)) in
      let r2 := if requestFails r (requests r) then r1
                else setFavoritesTable r1
                       (filter (fun row => fav_user_id row ≠ user) (favoritesTable r)) in
      if Nat.ltb 0 (length rows) then
        let r3 := setRequests (logUpload (UploadFavorites rows) r2).2 (S (S (requests r))) in
        if requestFails r (S (requests r)) then (None, r3)
        else (Some tt, setFavoritesTable r3 (favoritesTable r2 ++ rows))
      else (Some tt, r2)
  end.
Proof.
  unfold saveFavoritesToCloud. destruct (sessionUser r) as [user|]; [|done].
  unfold bind, request, logUpload. cbn [requestFails requests fst snd].
  destruct (requestFails r (requests r)); cbn [negb];
    destruct (Nat.ltb 0 (length _)); cbn [ret setRequests setFavoritesTable
      requestFails requests favoritesTable]; try done;
    by destruct (requestFails r (S (requests r))).
Qed.

Lemma syncFavorites_eq (favs : gset string) (key : SyncKey) (h : Hook) :
  syncFavorites favs key h =
  match (saveFavoritesToCloud favs (remote h)).1 with
  | Some _ => setLastSyncedFavorites key
                {| app := app h; refs := refs h;
                   remote := (saveFavoritesToCloud favs (remote h)).2 |}
  | None => {| app := app h; refs := refs h;
               remote := (saveFavoritesToCloud favs (remote h)).2 |}
  end.
Proof.
  unfold syncFavorites, bindE, modify, liftRemote.
  by destruct (saveFavoritesToCloud favs (remote h)) as [[[]|] r1].
Qed.

(** C7, as stated, fails for the favourites: the firing uploads the whole
    set, the favourite that is in the last-synced snapshot included. *)
Lemma favoritesEffect_uploads_whole_set :
  "generation-a1:0" ∈ parseKey (lastSyncedFavoritesRef (refs syncedHook)) ∧
  ∃ rows,
    uploads (remote (favoritesEffect syncedHook)) = [UploadFavorites rows] ∧
    length rows = 2 ∧
    favoriteRow "user-1" "generation-a1:0" ∈ rows.
Proof.
  split; [left|].
  eexists. split; [by vm_compute|]. split; [done|].
  apply list_elem_of_In. vm_compute. auto.
Qed.

(** The rows [saveGenerationsWithImages] sends: one per record, in order,
    each the row of the record with, at most, re-hosted images; with the
    image upload off, the row of the record itself. *)
Lemma processGeneration_row (up : bool) (gen : Generation) (r : Remote) :
  ∃ imgs, (processGeneration up gen r).1 = withImages gen imgs (inputImages gen) ∧
          length imgs = length (images gen) ∧
          (up = false → imgs = images gen).
Proof.
  unfold processGeneration. destruct up; cbn [andb].
  - destruct (existsb isBase64DataUrl (images gen)).
    + unfold bind, uploadGenerationImages.
      pose proof (mapIndexed_length (uploadOne (id gen)) 0 (images gen) r) as Hlen.
      destruct (mapIndexed _ 0 (images gen) r) as [imgs r1]. cbn [ret fst] in *.
      exists imgs. by repeat split.
    + cbn [ret fst]. exists (images gen). by repeat split.
  - cbn [ret fst]. exists (images gen). by repeat split.
Qed.

Lemma processGenerations_rows (up : bool) (user : string) (gens : list Generation)
    (r : Remote) :
  let rows := map (fun gen => toDbFormat gen user)
                  (mapAll (processGeneration up) gens r).1 in
  length rows = length gens ∧
  ∀ k g, gens !! k = Some g →
    ∃ imgs, rows !! k = Some (toDbFormat (withImages g imgs (inputImages g)) user) ∧
            length imgs = length (images g) ∧
            (up = false → imgs = images g).
Proof.
  cbn zeta. unfold mapAll. generalize 0.
  induction gens as [|gen gens IH]; intros n.
  - split; [done|]. intros k g Hk. by rewrite lookup_nil in Hk.
  - rewrite mapIndexed_cons.
    destruct (processGeneration_spec up gen r) as [E _].
    destruct (processGeneration_row up gen r) as (imgs & Hp & Hl & Hup).
    destruct (processGeneration up gen r) as [p r1]. cbn [fst snd] in *. subst r1 p.
    destruct (IH (S n)) as [Hlen Hrows].
    destruct (mapIndexed _ (S n) gens r) as [ps r2]. cbn [fst snd map length] in *.
    split; [by rewrite Hlen|].
    intros [|k] g Hk; cbn in Hk.
    + injection Hk as <-. by exists imgs.
    + by apply Hrows.
Qed.

Lemma newGenerations_filter (lastSynced : SyncKey) (gens : list Generation) :
  newGenerations lastSynced gens =
  filter (fun g => id g ∉ parseKey lastSynced) gens.
Proof.
  unfold newGenerations. apply list_filter_iff. intros g.
  by rewrite elem_of_list_to_set.
Qed.

(** C7, amended. A firing of [syncGenerations] leaves the component state
    as it is. Its delta is the records whose ids are not in the
    last-synced snapshot. With an empty delta nothing is sent and the
    snapshot becomes the current key. With a delta it sends one upsert,
    carrying one row per record of the delta, in order, each the row of
    that record (with, at most, re-hosted images; of the record itself
    with the image upload off) and no other row; when the request is
    answered without error the table is the table with these rows upserted
    and the snapshot becomes the current key; when it fails, or no user is
    signed in, the table and the snapshot stay, so the delta of the next
    firing is the same. The rows of the ids of the snapshot are never
    touched, and the snapshot moves only together with the rows: after the
    firing either the snapshot is the current key and every record of the
    delta has a row, or snapshot and table are as before. A firing of
    [syncFavorites] leaves the component state as it is and inserts the
    rows of the whole current set of favourites, not of a delta; the
    snapshot becomes the current key when the insert succeeds (or there is
    nothing to insert) and stays when it fails. *)
Theorem debounced_sync_uploads (gens : list Generation) (favs : gset string)
    (up : bool) (h : Hook) :
  let synced := parseKey (lastSyncedGenerationsRef (refs h)) in
  let fresh := filter (fun g => id g ∉ synced) gens in
  let hg := syncGenerations gens (generationsKey gens) up h in
  let hf := syncFavorites favs (favoritesKey favs) h in
  (app hg = app h ∧
   (fresh = [] →
      remote hg = remote h ∧
      lastSyncedGenerationsRef (refs hg) = generationsKey gens) ∧
   (fresh ≠ [] → sessionUser (remote h) = None →
      remote hg = remote h ∧
      lastSyncedGenerationsRef (refs hg) = lastSyncedGenerationsRef (refs h) ∧
      filter (fun g => id g ∉ parseKey (lastSyncedGenerationsRef (refs hg))) gens = fresh) ∧
   (fresh ≠ [] → ∀ user, sessionUser (remote h) = Some user →
      ∃ rows,
        uploads (remote hg) = uploads (remote h) ++ [UploadGenerations rows] ∧
        requests (remote hg) = S (requests (remote h)) ∧
        map row_id rows = map id fresh ∧
        (∀ k g, fresh !! k = Some g →
           ∃ imgs, rows !! k = Some (toDbFormat (withImages g imgs (inputImages g)) user) ∧
                   length imgs = length (images g) ∧
                   (up = false → imgs = images g)) ∧
        (requestFails (remote h) (requests (remote h)) = false →
           generationsTable (remote hg) = upsertRows rows (generationsTable (remote h)) ∧
           lastSyncedGenerationsRef (refs hg) = generationsKey gens) ∧
        (requestFails (remote h) (requests (remote h)) = true →
           generationsTable (remote hg) = generationsTable (remote h) ∧
           lastSyncedGenerationsRef (refs hg) = lastSyncedGenerationsRef (refs h) ∧
           filter (fun g => id g ∉ parseKey (lastSyncedGenerationsRef (refs hg))) gens =
             fresh)) ∧
   (∀ i, i ∈ synced →
      filter (fun row => row_id row = i) (generationsTable (remote hg)) =
      filter (fun row => row_id row = i) (generationsTable (remote h))) ∧
   ((lastSyncedGenerationsRef (refs hg) = generationsKey gens ∧
     ∀ g, g ∈ fresh → id g ∈ map row_id (generationsTable (remote hg))) ∨
    (fresh ≠ [] ∧
     lastSyncedGenerationsRef (refs hg) = lastSyncedGenerationsRef (refs h) ∧
     generationsTable (remote hg) = generationsTable (remote h) ∧
     filter (fun g => id g ∉ parseKey (lastSyncedGenerationsRef (refs hg))) gens = fresh))) ∧
  (app hf = app h ∧
   (sessionUser (remote h) = None →
      remote hf = remote h ∧
      lastSyncedFavoritesRef (refs hf) = lastSyncedFavoritesRef (refs h)) ∧
   (∀ user, sessionUser (remote h) = Some user →
      let rows := map (favoriteRow user) (elements favs) in
      (elements favs = [] →
         uploads (remote hf) = uploads (remote h) ∧
         lastSyncedFavoritesRef (refs hf) = favoritesKey favs) ∧
      (elements favs ≠ [] →
         uploads (remote hf) = uploads (remote h) ++ [UploadFavorites rows] ∧
         (requestFails (remote h) (S (requests (remote h))) = false →
            lastSyncedFavoritesRef (refs hf) = favoritesKey favs ∧
            ∀ row, row ∈ rows → row ∈ favoritesTable (remote hf)) ∧
         (requestFails (remote h) (S (requests (remote h))) = true →
            lastSyncedFavoritesRef (refs hf) = lastSyncedFavoritesRef (refs h))))).
Proof.
  intros synced fresh hg hf. split.
  - subst hg. rewrite syncGenerations_eq. cbn zeta.
    rewrite newGenerations_filter. fold synced. fold fresh.
    rewrite saveGenerationsWithImages_eq.
    destruct (Nat.ltb 0 (length fresh)) eqn:Hlen.
    + assert (Hfresh : fresh ≠ []) by (intros E; by rewrite E in Hlen).
      destruct (sessionUser (remote h)) as [user|] eqn:Hu.
      * cbn zeta.
        set (rows := map (fun gen => toDbFormat gen user)
                         (mapAll (processGeneration up) fresh (remote h)).1).
        destruct (processGenerations_rows up user fresh (remote h)) as [Hrl Hrows].
        fold rows in Hrl, Hrows.
        assert (Hids : map row_id rows = map id fresh).
        { apply processed_ids. apply processGenerations_spec. }
        destruct (requestFails (remote h) (requests (remote h))) eqn:Hfail;
          cbn [fst snd setSyncInProgress setLastSyncedGenerations setRefs app refs remote
               lastSyncedGenerationsRef setGenerationsTable setRequests logUpload
               generationsTable uploads requests].
        -- split; [done|]. split; [done|]. split; [done|]. split; [|split].
           ++ intros _ user' [= <-]. exists rows. by repeat split.
           ++ done.
           ++ right. by repeat split.
        -- split; [done|]. split; [done|]. split; [done|]. split; [|split].
           ++ intros _ user' [= <-]. exists rows. by repeat split.
           ++ intros i Hi. apply upsertRows_other. rewrite Hids.
              intros (g & -> & Hg)%list_elem_of_fmap.
              by apply list_elem_of_filter in Hg as [Hnot _].
           ++ left. split; [done|]. intros g Hg.
              apply upsertRows_id_in. right. rewrite Hids.
              by apply list_elem_of_fmap_2.
      * cbn [fst snd setSyncInProgress setRefs app refs remote lastSyncedGenerationsRef].
        split; [done|]. split; [done|]. split; [by destruct h|].
        split; [done|]. split; [done|]. right. by repeat split.
    + assert (Hfresh : fresh = []).
      { apply Nat.ltb_ge in Hlen. apply nil_length_inv. lia. }
      cbn [setSyncInProgress setLastSyncedGenerations setRefs app refs remote
           lastSyncedGenerationsRef].
      split; [done|]. split; [done|]. split; [done|]. split; [done|].
      split; [done|]. left. split; [done|]. rewrite Hfresh. by intros g ?%elem_of_nil.
  - subst hf. rewrite syncFavorites_eq, saveFavoritesToCloud_eq.
    destruct (sessionUser (remote h)) as [user|] eqn:Hu.
    + cbn zeta.
      destruct (elements favs) as [|fav rest] eqn:Hfavs.
      * cbn [map length Nat.ltb Nat.leb fst snd setLastSyncedFavorites setRefs app refs
             remote lastSyncedFavoritesRef].
        split; [done|]. split; [done|]. intros user' [= <-].
        split; [|done]. intros _.
        by destruct (requestFails (remote h) (requests (remote h))).
      * cbn [map length Nat.ltb Nat.leb].
        destruct (requestFails (remote h) (S (requests (remote h)))) eqn:Hfail;
          cbn [fst snd setLastSyncedFavorites setRefs app refs remote
               lastSyncedFavoritesRef].
        -- split; [done|]. split; [done|]. intros user' [= <-].
           split; [done|]. intros _. split; [|done].
           by destruct (requestFails (remote h) (requests (remote h))).
        -- split; [done|]. split; [done|]. intros user' [= <-].
           split; [done|]. intros _. split; [|split; [|done]].
           ++ by destruct (requestFails (remote h) (requests (remote h))).
           ++ intros _. split; [done|]. intros row' Hrow'.
              cbn [setFavoritesTable favoritesTable]. apply elem_of_app. by right.
    + cbn [fst snd app refs remote]. split; [done|]. split; [by destruct h|]. done.
Qed.

End SyncFacts.

(** ** Decimal indices and colons *)

Module DecimalFacts.

Import CloudStorage.

(** The string is made of decimal digits. *)
Fixpoint digitsOnly (s : string) : bool :=
  match s with
  | EmptyString => true
  | String c s' => bool_decide (is_Some (digitValue c)) && digitsOnly s'
  end.

Lemma pretty_N_char_value (x : N) :
  (x < 10)%N → digitValue (pretty_N_char x) = Some (Z.of_N x).
Proof.
  intros Hx.
  assert (x = 0 ∨ x = 1 ∨ x = 2 ∨ x = 3 ∨ x = 4 ∨ x = 5 ∨ x = 6 ∨ x = 7
          ∨ x = 8 ∨ x = 9)%N as H by lia.
  repeat (destruct H as [->|H]; [done|]). by subst x.
Qed.

Lemma pretty_N_go_digits (x : N) (s : string) :
  digitsOnly s = true → digitsOnly (pretty_N_go x s) = true.
Proof.
  revert s. induction (N.lt_wf_0 x) as [x _ IH]; intros s Hs.
  assert (x = 0 ∨ 0 < x)%N as [->|Hx] by lia; [done|].
  rewrite pretty_N_go_step by done. apply IH; [by apply N.div_lt|].
  cbn [digitsOnly]. rewrite Hs, pretty_N_char_value by (by apply N.mod_lt).
  rewrite bool_decide_eq_true_2; [done|by eexists].
Qed.

Lemma pretty_nat_digits (n : nat) : digitsOnly (pretty n) = true.
Proof.
  unfold pretty, pretty_nat, pretty, pretty_N.
  destruct (decide _); [done|]. by apply pretty_N_go_digits.
Qed.

(** The digits of [x] in front of [s] read as [x] after what was read. *)
Lemma pretty_N_go_value (x : N) :
  ∃ k : Z, (0 ≤ k)%Z ∧ ∀ s acc seen,
    leadingDigits (pretty_N_go x s) acc seen =
    leadingDigits s (acc * 10 ^ k + Z.of_N x)%Z (seen || (0 <? x)%N).
Proof.
  induction (N.lt_wf_0 x) as [x _ IH].
  assert (x = 0 ∨ 0 < x)%N as [->|Hx] by lia.
  - exists 0%Z. split; [done|]. intros s acc seen. rewrite pretty_N_go_0.
    cbn [N.ltb N.compare]. rewrite orb_false_r. f_equal. lia.
  - destruct (IH (x `div` 10)%N) as (k & Hk & Hread); [by apply N.div_lt|].
    exists (k + 1)%Z. split; [lia|]. intros s acc seen.
    rewrite pretty_N_go_step, Hread by done. cbn [leadingDigits].
    rewrite pretty_N_char_value by (by apply N.mod_lt).
    rewrite (proj2 (N.ltb_lt 0 x) Hx), orb_true_r. f_equal.
    rewrite Z.pow_add_r, Z.pow_1_r by lia.
    rewrite (N.div_mod x 10) at 3 by done. lia.
Qed.

Lemma digitsOnly_first (s : string) :
  digitsOnly s = true → s ≠ "" →
  ∃ c t, s = String c t ∧ is_Some (digitValue c).
Proof.
  destruct s as [|c t]; [done|]. cbn [digitsOnly].
  intros [H _]%andb_prop _. exists c, t. split; [done|].
  by apply bool_decide_eq_true in H.
Qed.

Lemma pretty_N_go_length (x : N) (s : string) :
  (String.length s ≤ String.length (pretty_N_go x s))%nat.
Proof.
  revert s. induction (N.lt_wf_0 x) as [x _ IH]; intros s.
  assert (x = 0 ∨ 0 < x)%N as [->|Hx] by lia; [by rewrite pretty_N_go_0|].
  rewrite pretty_N_go_step by done.
  etrans; [|apply IH; by apply N.div_lt]. cbn [String.length]. lia.
Qed.

Lemma pretty_nat_first (n : nat) :
  ∃ c t, pretty n = String c t ∧ is_Some (digitValue c).
Proof.
  apply digitsOnly_first; [apply pretty_nat_digits|].
  unfold pretty, pretty_nat, pretty, pretty_N.
  destruct (decide _) as [|Hne]; [done|].
  rewrite pretty_N_go_step by lia. intros E.
  pose proof (pretty_N_go_length (N.of_nat n `div` 10)
                (String (pretty_N_char (N.of_nat n `mod` 10)) "")) as Hlen.
  rewrite E in Hlen. cbn [String.length] in Hlen. lia.
Qed.

(** A digit is neither white space nor a sign nor a colon. *)
Lemma digit_plain (c : Ascii.ascii) :
  is_Some (digitValue c) →
  Js.isWhiteSpace c = false ∧ Ascii.eqb c "-" = false ∧ Ascii.eqb c "+" = false ∧
  Ascii.eqb c ":" = false.
Proof.
  intros [d Hd]. revert Hd.
  destruct c as [[] [] [] [] [] [] [] []]; by vm_compute.
Qed.

(** [parseInt] reads back the decimal notation of an index. *)
Lemma parseInt_pretty (n : nat) : parseInt (Some (pretty n)) = Some (Z.of_nat n).
Proof.
  destruct (pretty_nat_first n) as (c & t & E & Hc).
  destruct (digit_plain c Hc) as (Hw & Hm & Hp & _).
  unfold parseInt. rewrite E. cbn [Js.trimStart]. rewrite Hw, Hm, Hp. rewrite <- E.
  unfold pretty, pretty_nat, pretty, pretty_N.
  destruct (decide _) as [E0|Hne].
  - assert (n = 0%nat) as -> by lia. done.
  - destruct (pretty_N_go_value (N.of_nat n)) as (k & _ & Hread).
    rewrite Hread. cbn [leadingDigits orb].
    rewrite (proj2 (N.ltb_lt 0 (N.of_nat n))) by lia. f_equal. lia.
Qed.

Lemma pretty_Z_of_nat (n : nat) : pretty (Z.of_nat n) = pretty n.
Proof. by destruct n. Qed.

(** The string has no colon. *)
Fixpoint colonFree (s : string) : bool :=
  match s with
  | EmptyString => true
  | String c s' => negb (Ascii.eqb c ":") && colonFree s'
  end.

Lemma digitsOnly_colonFree (s : string) : digitsOnly s = true → colonFree s = true.
Proof.
  induction s as [|c s IH]; [done|]. cbn [digitsOnly colonFree].
  intros [Hc Hs]%andb_prop. apply bool_decide_eq_true in Hc.
  destruct (digit_plain c Hc) as (_ & _ & _ & ->). by rewrite IH.
Qed.

Lemma splitColon_colonFree (s : string) : colonFree s = true → splitColon s = [s].
Proof.
  induction s as [|c s IH]; [done|]. cbn [colonFree splitColon].
  intros [Hc Hs]%andb_prop. apply negb_true_iff in Hc. rewrite Hc.
  by rewrite IH.
Qed.

Lemma splitColon_app (g t : string) :
  colonFree g = true → splitColon (g +:+ ":" +:+ t) = g :: splitColon t.
Proof.
  induction g as [|c g IH]; [done|]. cbn [colonFree].
  intros [Hc Hg]%andb_prop. apply negb_true_iff in Hc.
  change (String c g +:+ ":" +:+ t) with (String c (g +:+ ":" +:+ t)).
  cbn [splitColon]. rewrite Hc. by rewrite IH.
Qed.

(** The keys [handleToggleFavorite] makes from an id without a colon. *)
Definition wellFormedFavorite (fav : string) : Prop :=
  ∃ g n, colonFree g = true ∧ fav = g +:+ ":" +:+ Js.ofIndex n.

Lemma favoriteKeyOfRow_favoriteRow (user fav : string) :
  wellFormedFavorite fav → favoriteKeyOfRow (favoriteRow user fav) = fav.
Proof.
  intros (g & n & Hg & ->). unfold favoriteRow, favoriteKeyOfRow, Js.ofIndex.
  rewrite splitColon_app by done.
  rewrite splitColon_colonFree by apply digitsOnly_colonFree, pretty_nat_digits.
  cbn [lookup list_lookup default fav_generation_id fav_image_index].
  by rewrite parseInt_pretty, pretty_Z_of_nat.
Qed.

End DecimalFacts.

(** ** Cloud favourites *)

Module CloudFavoritesFacts.

Import CloudStorage CloudStorageFacts SyncFacts DecimalFacts Examples.

Lemma filter_user_rows (user : string) (favs : list string) (table : list FavoriteRow) :
  filter (fun row => fav_user_id row = user)
    (filter (fun row => fav_user_id row ≠ user) table ++ map (favoriteRow user) favs) =
  map (favoriteRow user) favs.
Proof.
  rewrite filter_app, (filter_none _ (filter _ table)).
  - cbn [app]. induction favs as [|f favs IH]; [done|]. cbn [map].
    rewrite filter_cons_True by done. f_equal. exact IH.
  - by intros row [? _]%list_elem_of_filter.
Qed.

(** The favourites survive the cloud. When the user is signed in, no
    request fails and every favourite is a key [id:index] made by
    [handleToggleFavorite] from an id without a colon,
    [saveFavoritesToCloud] succeeds, [loadFavoritesFromCloud] then returns
    the set that was saved, and the rows of other users are as they
    were. *)
Theorem favorites_cloud_roundtrip (favs : gset string) (r : Remote) (user : string) :
  sessionUser r = Some user →
  (∀ n, requestFails r n = false) →
  (∀ fav, fav ∈ favs → wellFormedFavorite fav) →
  (saveFavoritesToCloud favs r).1 = Some tt ∧
  (loadFavoritesFromCloud (saveFavoritesToCloud favs r).2).1 = Some favs ∧
  filter (fun row => fav_user_id row ≠ user)
    (favoritesTable (saveFavoritesToCloud favs r).2) =
  filter (fun row => fav_user_id row ≠ user) (favoritesTable r).
Proof.
  intros Hu Hok Hwf. rewrite saveFavoritesToCloud_eq, Hu. cbn zeta.
  rewrite !Hok.
  assert (Hkeys : map favoriteKeyOfRow (map (favoriteRow user) (elements favs)) =
                  elements favs).
  { rewrite <- list_fmap_compose. rewrite <- (list_fmap_id (elements favs)) at 2.
    apply list_fmap_ext. intros _ fav Hfav%list_elem_of_lookup_2.
    apply favoriteKeyOfRow_favoriteRow, Hwf. by apply elem_of_elements. }
  destruct (Nat.ltb 0 (length _)) eqn:Hlen; cbn [fst snd].
  - split; [done|]. unfold loadFavoritesFromCloud, bind, request.
    cbn [setFavoritesTable setRequests logUpload sessionUser requestFails requests
         favoritesTable fst snd].
    rewrite Hu, Hok. cbn [negb setRequests setFavoritesTable favoritesTable fst].
    rewrite filter_user_rows, Hkeys. split; [by rewrite list_to_set_elements_L|].
    rewrite filter_app, list_filter_filter.
    rewrite (filter_none _ (map _ _)), app_nil_r.
    + apply list_filter_iff. tauto.
    + intros row (fav & -> & _)%list_elem_of_fmap. by intros H.
  - rewrite length_map in Hlen. apply Nat.ltb_ge in Hlen.
    assert (elements favs = []) as Hnil by (apply nil_length_inv; lia).
    apply elements_empty_inv in Hnil. apply leibniz_equiv in Hnil. subst favs.
    split; [done|]. unfold loadFavoritesFromCloud, bind, request.
    cbn [setFavoritesTable setRequests sessionUser requestFails requests
         favoritesTable fst snd].
    rewrite Hu, Hok. cbn [negb setRequests setFavoritesTable favoritesTable fst].
    rewrite (filter_none _ (filter _ _)).
    + split; [done|]. rewrite list_filter_filter. apply list_filter_iff. tauto.
    + by intros row [? _]%list_elem_of_filter.
Qed.

Lemma favorites_cloud_roundtrip_witness :
  (loadFavoritesFromCloud
     (saveFavoritesToCloud {["generation-a1:0"; "generation-b2:11"]} freshRemote).2).1 =
  Some {["generation-a1:0"; "generation-b2:11"]}.
Proof.
  refine (proj1 (proj2 (favorites_cloud_roundtrip
            {["generation-a1:0"; "generation-b2:11"]} freshRemote "user-1"
            eq_refl (fun _ => eq_refl) _))).
  intros fav [->%elem_of_singleton| ->%elem_of_singleton]%elem_of_union.
  - exists "generation-a1", 0%nat. split; [done|]. by vm_compute.
  - exists "generation-b2", 11%nat. split; [done|]. by vm_compute.
Defined.

End CloudFavoritesFacts.

(** ** Storage keys *)

Module KeyFacts.

Import Storage StorageFacts DecimalFacts.

(** The reference strings: [getRefKey] undoes [makeRef]; [makeRef] gives a
    reference exactly for a key that starts with "img:"; on a reference
    [makeRef] undoes [getRefKey], and the key of a reference starts with
    "img:"; the reference made of a key of [getImageKey] is a reference to
    that key. *)
Theorem reference_roundtrip :
  (∀ key, getRefKey (makeRef key) = key) ∧
  (∀ key, isRef (makeRef key) = Js.startsWith key "img:") ∧
  (∀ str, isRef str = true →
     makeRef (getRefKey str) = str ∧ Js.startsWith (getRefKey str) "img:" = true) ∧
  (∀ g index type inputId,
     isRef (makeRef (getImageKey g index type inputId)) = true ∧
     getRefKey (makeRef (getImageKey g index type inputId)) =
       getImageKey g index type inputId).
Proof.
  split; [apply getRefKey_makeRef|]. split; [done|]. split; [apply getRefKey_isRef|].
  intros g index type inputId.
  split; [apply isRef_makeRef_getImageKey | apply getRefKey_makeRef].
Qed.

Lemma colon_not_colonFree (g d : string) : colonFree (g +:+ ":" +:+ d) = false.
Proof.
  induction g as [|c g IH]; [done|].
  change (String c g +:+ ":" +:+ d) with (String c (g +:+ ":" +:+ d)).
  cbn [colonFree]. rewrite IH. apply andb_false_r.
Qed.

(** What follows the last colon determines the split. *)
Lemma last_colon_split (g g' d d' : string) :
  colonFree d = true → colonFree d' = true →
  g +:+ ":" +:+ d = g' +:+ ":" +:+ d' → g = g' ∧ d = d'.
Proof.
  intros Hd Hd'. revert g'.
  induction g as [|c g IH]; intros [|c' g'] E.
  - by injection E.
  - exfalso. injection E as _ E. change ("" +:+ d) with d in E.
    rewrite E, colon_not_colonFree in Hd. done.
  - exfalso. injection E as _ E. change ("" +:+ d') with d' in E.
    rewrite <- E, colon_not_colonFree in Hd'. done.
  - injection E as -> E. destruct (IH _ E) as [-> ->]. done.
Qed.

Lemma append_assoc (a b c : string) : (a +:+ b) +:+ c = a +:+ (b +:+ c).
Proof.
  induction a as [|x a IH]; [done|].
  change (String x ((a +:+ b) +:+ c) = String x (a +:+ b +:+ c)). by rewrite IH.
Qed.

(** Distinct slots have distinct keys. Two output keys are equal only for
    the same record id and the same index, whatever the ids are. Two input
    keys are equal only for the same record id and the same image id, when
    the image ids have no colon. An output key of a record whose id has no
    colon is no input key of an image whose id has no colon. *)
Theorem getImageKey_injective :
  (∀ g g' index index',
     getImageKey g index Output None = getImageKey g' index' Output None ↔
     g = g' ∧ index = index') ∧
  (∀ g g' a a', colonFree a = true → colonFree a' = true → a ≠ "" → a' ≠ "" →
     (getImageKey g 0 Input (Some a) = getImageKey g' 0 Input (Some a') ↔
      g = g' ∧ a = a')) ∧
  (∀ g g' index a, colonFree g = true → colonFree a = true → a ≠ "" →
     getImageKey g index Output None ≠ getImageKey g' 0 Input (Some a)).
Proof.
  split; [|split].
  - intros g g' index index'. split; [|by intros [-> ->]].
    unfold getImageKey, Js.ofIndex. intros [= E].
    apply last_colon_split in E as [-> E];
      try apply digitsOnly_colonFree, pretty_nat_digits.
    split; [done|]. by apply (inj pretty).
  - intros g g' a a' Ha Ha' Hne Hne'. split; [|by intros [-> ->]].
    unfold getImageKey.
    rewrite (proj2 (JsFacts.truthy_true a) Hne), (proj2 (JsFacts.truthy_true a') Hne').
    intros [= E].
    change (g +:+ ":input:" +:+ a) with (g +:+ ":input" +:+ ":" +:+ a) in E.
    change (g' +:+ ":input:" +:+ a') with (g' +:+ ":input" +:+ ":" +:+ a') in E.
    rewrite <- !(append_assoc _ ":input") in E.
    apply last_colon_split in E as [E ->]; [|done..]. split; [|done].
    change (g +:+ ":input") with (g +:+ ":" +:+ "input") in E.
    change (g' +:+ ":input") with (g' +:+ ":" +:+ "input") in E.
    by apply last_colon_split in E as [-> _].
  - intros g g' index a Hg Ha Hne. unfold getImageKey, Js.ofIndex.
    rewrite (proj2 (JsFacts.truthy_true a) Hne). intros [= E].
    change (g' +:+ ":input:" +:+ a) with (g' +:+ ":input" +:+ ":" +:+ a) in E.
    rewrite <- (append_assoc _ ":input") in E.
    apply last_colon_split in E as [E _];
      [|by apply digitsOnly_colonFree, pretty_nat_digits|done].
    change (g' +:+ ":input") with (g' +:+ ":" +:+ "input") in E.
    rewrite E, colon_not_colonFree in Hg. done.
Qed.

End KeyFacts.

(** ** Storage: save, load and collect together *)

Module RoundTripFacts.

Import Storage StorageFacts StoreEvolution PersistFacts HydrateFacts Examples.

(** The run of [persistGenerations] when every write goes through and every
    raw field can be fetched. *)
Lemma persistGenerations_run (gens : list Generation) (w : World) :
  (∀ key, setItemFails w key = false) →
  fetchable w gens →
  ∃ ps w',
    persistGenerations gens w = (true, w') ∧ extends w w' ∧
    store w' !! GENERATIONS_KEY = Some (VGenerations ps) ∧
    length ps = length gens ∧
    ∀ j gen, gens !! j = Some gen → ∃ p, ps !! j = Some p ∧ persistedAs w' gen p.
Proof.
  intros Hwrite Hfetch. unfold persistGenerations, bind, mapAll.
  pose proof (mapIndexed_inv extends
    (fun (_ : nat) gen p w => persistedAs w gen p)
    (fun _ => persistGeneration) w gens) as H.
  destruct H with (n := 0) (w := w) as (He & Hlen & Hq); [| |reflexivity|].
  { intros _ gen p wa wb. apply persistedAs_stable. }
  { apply Forall_forall. intros gen Hin n w1 Hw1.
    destruct (Hfetch gen Hin). by apply (persistGeneration_step w Hwrite). }
  clear H. destruct (mapIndexed _ 0 gens w) as [ps w1]. cbn [fst snd] in *.
  pose proof (setItem_document_extends GENERATIONS_KEY (VGenerations ps) w1 eq_refl) as He'.
  unfold setItem in *.
  assert (HS : setItemFails w1 = setItemFails w) by apply He.
  rewrite HS, Hwrite in *. cbn [snd] in He'.
  eexists ps, _. split; [done|]. split; [by transitivity w1|].
  split; [apply lookup_insert_eq|]. split; [done|].
  intros j gen Hj. destruct (Hq j gen Hj) as (p & Hp & Hpa).
  exists p. split; [done|]. by eapply persistedAs_stable.
Qed.

(** The run of [restoreGenerations] on a stored document. *)
Lemma restoreGenerations_run (gs : list Generation) (w : World) :
  store w !! GENERATIONS_KEY = Some (VGenerations gs) →
  ∃ hs w',
    restoreGenerations w = (Some (Some hs), w') ∧ extends w w' ∧
    length hs = length gs ∧
    ∀ j g, gs !! j = Some g → ∃ h, hs !! j = Some h ∧ hydratedAs w w' g h.
Proof.
  intros Hdoc. unfold restoreGenerations, bind at 1.
  unfold readGenerationsDocument, bind at 1, getItem. rewrite Hdoc.
  cbn [ret]. unfold bind, mapAll.
  pose proof (mapIndexed_inv extends
    (fun (_ : nat) g h w' => hydratedAs w w' g h)
    (fun _ => hydrateGeneration) w gs) as H.
  destruct H with (n := 0) (w := w) as (He & Hlen & Hq); [| |reflexivity|].
  { intros _ g h wa wb. apply hydratedAs_stable. }
  { apply Forall_forall. intros g _ n w1 Hw1. by apply hydrateGeneration_step. }
  clear H. destruct (mapIndexed _ 0 gs w) as [hs w']. cbn [ret fst snd] in *.
  by exists hs, w'.
Qed.

Lemma blob_handle_not_ref (url : string) :
  Js.startsWith url "blob:" = true → isRef url = false ∧ Js.truthy url = true.
Proof. by intros [t ->]%JsFacts.prefix_split. Qed.

Lemma needsFetch_inv (url : string) :
  needsFetch url = true →
  Js.truthy url = true ∧ isRef url = false ∧ Js.startsWith url "blob:" = false.
Proof.
  unfold needsFetch. intros [[? ?%negb_true_iff]%andb_prop ?%negb_true_iff]%andb_prop.
  done.
Qed.

(** A field dehydrated in [w1] and then hydrated from [w1]: an empty field
    is empty, and a field whose key holds a payload in [w1] is a registered
    handle. *)
Lemma dehydrated_hydrated (g : string) (index : nat) (type : ImageType)
    (inputId : option string) (url url' url'' : string) (w1 w2 : World) :
  let key := getImageKey g index type inputId in
  dehydrated key url url' w1 → hydratedField w1 url' url'' w2 →
  (url = "" → url'' = "") ∧
  (isRef url = false → Js.truthy url = true → isBlob w1 key →
     ∃ b, (url'', b) ∈ objectURLs w2) ∧
  (needsFetch url = true → ∃ b, (url'', b) ∈ objectURLs w2).
Proof.
  intros key Hd Hh. unfold dehydrated in Hd.
  assert (Hcase : isRef url = false → Js.truthy url = true → isBlob w1 key →
                  ∃ b, (url'', b) ∈ objectURLs w2).
  { intros Hr Ht Hb. rewrite Ht, Hr in Hd. destruct Hd as [-> _].
    unfold hydratedField in Hh.
    subst key.
    rewrite (isRef_truthy _ (isRef_makeRef_getImageKey g index type inputId)) in Hh.
    rewrite isRef_makeRef_getImageKey, getRefKey_makeRef in Hh. by apply Hh. }
  split; [|split; [done|]].
  - intros ->. cbn in Hd. subst url'. by cbn in Hh.
  - intros (Ht & Hr & Hb)%needsFetch_inv. apply Hcase; [done..|].
    rewrite Ht, Hr in Hd. by apply Hd.
Qed.

(** The raw fields of a dehydration, in the order it meets them: the key
    and the URL of every field whose bytes are fetched and written. *)
Fixpoint rawOutputs (g : string) (index : nat) (imgs : list string) : list (string * string) :=
  match imgs with
  | [] => []
  | img :: rest =>
      (if needsFetch img then [(getImageKey g index Output None, img)] else []) ++
      rawOutputs g (S index) rest
  end.

Fixpoint rawInputs (g : string) (inps : list InputImage) : list (string * string) :=
  match inps with
  | [] => []
  | inp :: rest =>
      (if needsFetch (ii_url inp)
       then [(getImageKey g 0 Input (Some (ii_id inp)), ii_url inp)] else []) ++
      rawInputs g rest
  end.

Definition rawFieldsOf (gen : Generation) : list (string * string) :=
  rawOutputs (id gen) 0 (images gen) ++ rawInputs (id gen) (inputImages gen).

Fixpoint rawFields (gens : list Generation) : list (string * string) :=
  match gens with
  | [] => []
  | gen :: rest => rawFieldsOf gen ++ rawFields rest
  end.

(** The store after the payload writes of the fields [fields]: a field
    whose fetch fails is not written. *)
Definition written (fetch : string → option Blob) (fields : list (string * string))
    (s : gmap string StoreValue) : gmap string StoreValue :=
  foldl (fun s field =>
           match fetch field.2 with
           | Some b => <[field.1 := VBlob b]> s
           | None => s
           end) s fields.

Lemma written_app (fetch : string → option Blob) (l1 l2 : list (string * string))
    (s : gmap string StoreValue) :
  written fetch (l1 ++ l2) s = written fetch l2 (written fetch l1 s).
Proof. apply foldl_app. Qed.

Lemma written_cons (fetch : string → option Blob) (field : string * string)
    (fields : list (string * string)) (s : gmap string StoreValue) :
  written fetch (field :: fields) s =
  written fetch fields
    match fetch field.2 with
    | Some b => <[field.1 := VBlob b]> s
    | None => s
    end.
Proof. done. Qed.

Lemma written_other (fetch : string → option Blob) (fields : list (string * string))
    (s : gmap string StoreValue) (key : string) :
  key ∉ map fst fields → written fetch fields s !! key = s !! key.
Proof.
  revert s. induction fields as [|[k url] fields IH]; intros s Hnot; [done|].
  cbn [map fst] in Hnot. apply not_elem_of_cons in Hnot as [Hne Hnot].
  rewrite written_cons, IH by done.
  cbn [fst snd]. destruct (fetch url); [|done]. by rewrite lookup_insert_ne.
Qed.

(** With keys that do not repeat, a field that was fetched holds its own
    bytes once every write is done. *)
Lemma written_field (fetch : string → option Blob) (fields : list (string * string))
    (s : gmap string StoreValue) (key url : string) (b : Blob) :
  NoDup (map fst fields) → (key, url) ∈ fields → fetch url = Some b →
  written fetch fields s !! key = Some (VBlob b).
Proof.
  revert s. induction fields as [|[k u] fields IH]; intros s Hnd Hin Hb.
  { by apply elem_of_nil in Hin. }
  cbn [map fst] in Hnd. apply NoDup_cons in Hnd as [Hk Hnd].
  rewrite written_cons. cbn [fst snd].
  apply elem_of_cons in Hin as [[= <- <-]|Hin].
  - rewrite written_other by done. rewrite Hb. apply lookup_insert_eq.
  - by apply IH.
Qed.

Section Run.

Context (w0 : World) (Hwrite : ∀ key, setItemFails w0 key = false).

(** Along a dehydration the environment is that of [w0]. *)
Definition storeOnly (w : World) : Prop :=
  fetchBlob w = fetchBlob w0 ∧ setItemFails w = setItemFails w0.

Lemma persistImage_written (gen : Generation) (index : nat) (img : string) (w : World) :
  storeOnly w →
  storeOnly (persistImage gen index img w).2 ∧
  store (persistImage gen index img w).2 =
    written (fetchBlob w0)
      (if needsFetch img then [(getImageKey (id gen) index Output None, img)] else [])
      (store w).
Proof.
  intros Hw. unfold persistImage, needsFetch.
  destruct (Js.truthy img); cbn [negb andb]; [|done].
  destruct (isRef img); cbn [negb andb]; [done|].
  destruct (Js.startsWith img "blob:"); cbn [negb]; [done|].
  unfold bind, urlToBlob, setItem. cbn [written foldl fst snd].
  destruct Hw as [HF HS]. rewrite HF.
  destruct (fetchBlob w0 img) as [b|]; [|done].
  cbn [fst]. rewrite HS, Hwrite. by cbn [ret fst snd setStore store].
Qed.

Lemma persistInput_written (gen : Generation) (inp : InputImage) (w : World) :
  storeOnly w →
  storeOnly (persistInput gen inp w).2 ∧
  store (persistInput gen inp w).2 =
    written (fetchBlob w0)
      (if needsFetch (ii_url inp)
       then [(getImageKey (id gen) 0 Input (Some (ii_id inp)), ii_url inp)] else [])
      (store w).
Proof.
  intros Hw. unfold persistInput, needsFetch.
  destruct (Js.truthy (ii_url inp)); cbn [negb andb]; [|done].
  destruct (isRef (ii_url inp)); cbn [negb andb]; [done|].
  destruct (Js.startsWith (ii_url inp) "blob:"); cbn [negb]; [done|].
  unfold bind, urlToBlob, setItem. cbn [written foldl fst snd].
  destruct Hw as [HF HS]. rewrite HF.
  destruct (fetchBlob w0 (ii_url inp)) as [b|]; [|done].
  cbn [fst]. rewrite HS, Hwrite. by cbn [ret fst snd setStore store].
Qed.

Lemma persistImages_written (gen : Generation) (imgs : list string) (index : nat) (w : World) :
  storeOnly w →
  storeOnly (mapIndexed (persistImage gen) index imgs w).2 ∧
  store (mapIndexed (persistImage gen) index imgs w).2 =
    written (fetchBlob w0) (rawOutputs (id gen) index imgs) (store w).
Proof.
  revert index w. induction imgs as [|img imgs IH]; intros index w Hw; [done|].
  rewrite mapIndexed_cons.
  destruct (persistImage_written gen index img w Hw) as [Hw1 Hs1].
  destruct (persistImage gen index img w) as [y w1]. cbn [snd] in *.
  destruct (IH (S index) w1 Hw1) as [Hw2 Hs2].
  destruct (mapIndexed _ (S index) imgs w1) as [ys w2]. cbn [snd] in *.
  split; [done|]. cbn [rawOutputs]. by rewrite written_app, <- Hs1.
Qed.

Lemma persistInputs_written (gen : Generation) (inps : list InputImage) (n : nat) (w : World) :
  storeOnly w →
  storeOnly (mapIndexed (fun _ => persistInput gen) n inps w).2 ∧
  store (mapIndexed (fun _ => persistInput gen) n inps w).2 =
    written (fetchBlob w0) (rawInputs (id gen) inps) (store w).
Proof.
  revert n w. induction inps as [|inp inps IH]; intros n w Hw; [done|].
  rewrite mapIndexed_cons.
  destruct (persistInput_written gen inp w Hw) as [Hw1 Hs1].
  destruct (persistInput gen inp w) as [y w1]. cbn [snd] in *.
  destruct (IH (S n) w1 Hw1) as [Hw2 Hs2].
  destruct (mapIndexed _ (S n) inps w1) as [ys w2]. cbn [snd] in *.
  split; [done|]. cbn [rawInputs]. by rewrite written_app, <- Hs1.
Qed.

Lemma persistGeneration_written (gen : Generation) (w : World) :
  storeOnly w →
  storeOnly (persistGeneration gen w).2 ∧
  store (persistGeneration gen w).2 =
    written (fetchBlob w0) (rawFieldsOf gen) (store w).
Proof.
  intros Hw. unfold persistGeneration, bind, mapAll.
  destruct (persistImages_written gen (images gen) 0 w Hw) as [Hw1 Hs1].
  destruct (mapIndexed (persistImage gen) 0 (images gen) w) as [imgs w1]. cbn [snd] in *.
  destruct (persistInputs_written gen (inputImages gen) 0 w1 Hw1) as [Hw2 Hs2].
  destruct (mapIndexed _ 0 (inputImages gen) w1) as [inps w2]. cbn [ret snd] in *.
  split; [done|]. unfold rawFieldsOf. by rewrite written_app, <- Hs1.
Qed.

Lemma persistAll_written (gens : list Generation) (n : nat) (w : World) :
  storeOnly w →
  storeOnly (mapIndexed (fun _ => persistGeneration) n gens w).2 ∧
  store (mapIndexed (fun _ => persistGeneration) n gens w).2 =
    written (fetchBlob w0) (rawFields gens) (store w).
Proof.
  revert n w. induction gens as [|gen gens IH]; intros n w Hw; [done|].
  rewrite mapIndexed_cons.
  destruct (persistGeneration_written gen w Hw) as [Hw1 Hs1].
  destruct (persistGeneration gen w) as [y w1]. cbn [snd] in *.
  destruct (IH (S n) w1 Hw1) as [Hw2 Hs2].
  destruct (mapIndexed _ (S n) gens w1) as [ys w2]. cbn [snd] in *.
  split; [done|]. cbn [rawFields]. by rewrite written_app, <- Hs1.
Qed.

End Run.

(** The payloads after a dehydration in which every write goes through:
    every key but the document is as the writes of the raw fields leave
    it. *)
Lemma persistGenerations_written (gens : list Generation) (w : World) (key : string) :
  (∀ key, setItemFails w key = false) →
  key ≠ GENERATIONS_KEY →
  store (persistGenerations gens w).2 !! key =
  written (fetchBlob w) (rawFields gens) (store w) !! key.
Proof.
  intros Hwrite Hkey. unfold persistGenerations, bind, mapAll.
  destruct (persistAll_written w Hwrite gens 0 w) as [[_ HS] Hs1]; [done|].
  destruct (mapIndexed _ 0 gens w) as [ps w1]. cbn [snd] in *.
  unfold setItem. rewrite HS, Hwrite.
  cbn [snd setStore store]. rewrite lookup_insert_ne by done. by rewrite <- Hs1.
Qed.

(** A load that only reads: the store stays as it is. *)
Definition reads (w w' : World) : Prop := extends w w' ∧ store w' = store w.

#[local] Instance reads_refl : Reflexive reads.
Proof. intros w. split; [reflexivity|done]. Qed.

#[local] Instance reads_trans : Transitive reads.
Proof.
  intros w1 w2 w3 [E1 S1] [E2 S2]. split; [by transitivity w2|congruence].
Qed.

(** What hydrate makes of a reference, by its bytes: the handle it gives
    is registered for the bytes the store held under the key. *)
Definition hydratedBytes (w0 : World) (url url' : string) (w : World) : Prop :=
  isRef url = true →
  ∀ b, store w0 !! getRefKey url = Some (VBlob b) → (url', b) ∈ objectURLs w.

Lemma hydratedBytes_stable (w0 : World) (url url' : string) (w w' : World) :
  hydratedBytes w0 url url' w → reads w w' → hydratedBytes w0 url url' w'.
Proof.
  intros H [(_ & _ & _ & _ & HU) _] Hr b Hb. apply HU. by apply H.
Qed.

Lemma hydrateImage_bytes (w0 : World) (gen : Generation) (index : nat) (img : string)
    (w : World) :
  img = "" ∨ isRef img = true →
  reads w0 w →
  reads w (hydrateImage gen index img w).2 ∧
  hydratedBytes w0 img (hydrateImage gen index img w).1 (hydrateImage gen index img w).2.
Proof.
  intros Hfree [_ Hs].
  split.
  { split; [by apply hydrateImage_step with (w0 := w)|].
    by apply hydrateImage_sameStore. }
  intros Hr b Hb. unfold hydrateImage.
  rewrite (isRef_truthy _ Hr), Hr. cbn [negb]. unfold bind, getItem.
  rewrite Hs, Hb. apply createObjectURL_extends.
Qed.

Lemma hydrateInput_bytes (w0 : World) (gen : Generation) (inp : InputImage) (w : World) :
  ii_url inp = "" ∨ isRef (ii_url inp) = true →
  reads w0 w →
  reads w (hydrateInput gen inp w).2 ∧
  hydratedBytes w0 (ii_url inp) (ii_url (hydrateInput gen inp w).1)
                (hydrateInput gen inp w).2.
Proof.
  intros Hfree [_ Hs].
  split.
  { split; [by apply hydrateInput_step with (w0 := w)|].
    by apply hydrateInput_sameStore. }
  intros Hr b Hb. unfold hydrateInput.
  rewrite (isRef_truthy _ Hr), Hr. cbn [negb]. unfold bind, getItem.
  rewrite Hs, Hb.
  pose proof (createObjectURL_extends b w) as (_ & Hin & _).
  by destruct (createObjectURL b w) as [url w1].
Qed.

(** The hydrated record [h] holds, behind the handle of every reference of
    [g], the bytes the store held for it when the load started. *)
Definition bytesAs (w0 w : World) (g h : Generation) : Prop :=
  (∀ index img, images g !! index = Some img →
     ∃ img', images h !! index = Some img' ∧ hydratedBytes w0 img img' w) ∧
  (∀ k inp, inputImages g !! k = Some inp →
     ∃ inp', inputImages h !! k = Some inp' ∧
             hydratedBytes w0 (ii_url inp) (ii_url inp') w).

Lemma bytesAs_stable (w0 : World) (g h : Generation) (w w' : World) :
  bytesAs w0 w g h → reads w w' → bytesAs w0 w' g h.
Proof.
  intros [H1 H2] Hr. split.
  - intros index img Hi. destruct (H1 index img Hi) as (img' & ? & ?).
    exists img'. split; [done|]. by eapply hydratedBytes_stable.
  - intros k inp Hk. destruct (H2 k inp Hk) as (inp' & ? & ?).
    exists inp'. split; [done|]. by eapply hydratedBytes_stable.
Qed.

Lemma hydrateGeneration_bytes (w0 : World) (g : Generation) (w : World) :
  legacyFree g →
  reads w0 w →
  reads w (hydrateGeneration g w).2 ∧
  bytesAs w0 (hydrateGeneration g w).2 g (hydrateGeneration g w).1.
Proof.
  intros [Hfree1 Hfree2] Hw. unfold hydrateGeneration, bind.
  pose proof (mapIndexed_inv reads
    (fun (_ : nat) img img' w => hydratedBytes w0 img img' w)
    (hydrateImage g) w0 (images g)) as H1.
  destruct H1 with (n := 0) (w := w) as (He1 & Hl1 & Hq1); [| |done|].
  { intros _ a b wa wb. apply hydratedBytes_stable. }
  { apply Forall_forall. intros img Hin n w1 Hw1. apply hydrateImage_bytes; auto. }
  clear H1. destruct (mapIndexed (hydrateImage g) 0 (images g) w) as [imgs w1].
  cbn [fst snd] in *. unfold mapAll.
  pose proof (mapIndexed_inv reads
    (fun (_ : nat) inp inp' w => hydratedBytes w0 (ii_url inp) (ii_url inp') w)
    (fun _ => hydrateInput g) w0 (inputImages g)) as H2.
  destruct H2 with (n := 0) (w := w1) as (He2 & Hl2 & Hq2).
  { intros _ a b wa wb. apply hydratedBytes_stable. }
  { apply Forall_forall. intros inp Hin n w2 Hw2. apply hydrateInput_bytes; auto. }
  { by transitivity w. }
  clear H2. destruct (mapIndexed _ 0 (inputImages g) w1) as [inps w2].
  cbn [ret fst snd] in *. split; [by transitivity w1|].
  split; cbn [withImages images inputImages].
  - intros index img Hi. destruct (Hq1 index img Hi) as (img' & ? & ?).
    exists img'. split; [done|]. by eapply hydratedBytes_stable.
  - done.
Qed.

(** The run of [restoreGenerations] on a document without legacy data, by
    the bytes behind the handles. *)
Lemma restoreGenerations_bytes (gs : list Generation) (w : World) :
  store w !! GENERATIONS_KEY = Some (VGenerations gs) →
  Forall legacyFree gs →
  ∃ hs w',
    restoreGenerations w = (Some (Some hs), w') ∧
    ∀ j g, gs !! j = Some g → ∃ h, hs !! j = Some h ∧ bytesAs w w' g h.
Proof.
  intros Hdoc Hfree. unfold restoreGenerations, bind at 1.
  unfold readGenerationsDocument, bind at 1, getItem. rewrite Hdoc.
  cbn [ret]. unfold bind, mapAll.
  pose proof (mapIndexed_inv reads
    (fun (_ : nat) g h w' => bytesAs w w' g h)
    (fun _ => hydrateGeneration) w gs) as H.
  destruct H with (n := 0) (w := w) as (He & Hlen & Hq); [| |reflexivity|].
  { intros _ g h wa wb. apply bytesAs_stable. }
  { eapply Forall_impl; [exact Hfree|]. intros g Hg n w1 Hw1.
    by apply hydrateGeneration_bytes. }
  clear H. destruct (mapIndexed _ 0 gs w) as [hs w']. cbn [ret fst snd] in *.
  by exists hs, w'.
Qed.

Lemma rawOutputs_elem (g : string) (imgs : list string) (n index : nat) (img : string) :
  imgs !! index = Some img → needsFetch img = true →
  (getImageKey g (n + index) Output None, img) ∈ rawOutputs g n imgs.
Proof.
  revert n index. induction imgs as [|x imgs IH]; intros n index Hi Hraw; [done|].
  cbn [rawOutputs]. apply elem_of_app. destruct index as [|index]; cbn in Hi.
  - injection Hi as ->. left. rewrite Hraw, Nat.add_0_r. left.
  - right. rewrite Nat.add_succ_r. by apply (IH (S n)).
Qed.

Lemma rawInputs_elem (g : string) (inps : list InputImage) (inp : InputImage) :
  inp ∈ inps → needsFetch (ii_url inp) = true →
  (getImageKey g 0 Input (Some (ii_id inp)), ii_url inp) ∈ rawInputs g inps.
Proof.
  induction inps as [|x inps IH]; intros Hin Hraw; [by apply elem_of_nil in Hin|].
  cbn [rawInputs]. apply elem_of_app.
  apply elem_of_cons in Hin as [<-|Hin]; [left|right; by apply IH].
  rewrite Hraw. left.
Qed.

Lemma rawFields_elem (gens : list Generation) (gen : Generation) (field : string * string) :
  gen ∈ gens → field ∈ rawFieldsOf gen → field ∈ rawFields gens.
Proof.
  induction gens as [|x gens IH]; intros Hin Hf; [by apply elem_of_nil in Hin|].
  cbn [rawFields]. apply elem_of_app.
  apply elem_of_cons in Hin as [<-|Hin]; [by left|right; by apply IH].
Qed.

Lemma persisted_legacyFree (w : World) (gen p : Generation) :
  persistedAs w gen p → legacyFree p.
Proof.
  intros (_ & Hl & Hq & Hl' & Hq'). split.
  - intros img [index Hi]%list_elem_of_lookup.
    destruct (lookup_lt_is_Some_2 (images gen) index) as [img0 Hi0].
    { rewrite <- Hl. by eapply lookup_lt_Some. }
    destruct (Hq index img0 Hi0) as (img' & Hi' & Hd).
    assert (img' = img) as -> by congruence.
    by eapply dehydrated_reference.
  - intros inp [k Hk]%list_elem_of_lookup.
    destruct (lookup_lt_is_Some_2 (inputImages gen) k) as [inp0 Hk0].
    { rewrite <- Hl'. by eapply lookup_lt_Some. }
    destruct (Hq' k inp0 Hk0) as (inp' & Hk' & _ & Hd).
    assert (inp' = inp) as -> by congruence.
    by eapply dehydrated_reference.
Qed.

(** Save, then load, by the bytes. *)
Lemma persist_restore_bytes (gens : list Generation) (w w1 : World)
    (hs : list Generation) (w2 : World) :
  (∀ key, setItemFails w key = false) →
  fetchable w gens →
  persistGenerations gens w = (true, w1) →
  restoreGenerations w1 = (Some (Some hs), w2) →
  ∀ j gen, gens !! j = Some gen →
    ∃ h, hs !! j = Some h ∧
      (∀ index img, images gen !! index = Some img →
         let key := getImageKey (id gen) index Output None in
         ∃ img', images h !! index = Some img' ∧
           (needsFetch img = true → NoDup (map fst (rawFields gens)) →
            ∀ b, fetchBlob w img = Some b → (img', b) ∈ objectURLs w2) ∧
           (Js.startsWith img "blob:" = true → key ∉ map fst (rawFields gens) →
            ∀ b, store w !! key = Some (VBlob b) → (img', b) ∈ objectURLs w2)) ∧
      (∀ k inp, inputImages gen !! k = Some inp →
         let key := getImageKey (id gen) 0 Input (Some (ii_id inp)) in
         ∃ inp', inputImages h !! k = Some inp' ∧
           (needsFetch (ii_url inp) = true → NoDup (map fst (rawFields gens)) →
            ∀ b, fetchBlob w (ii_url inp) = Some b → (ii_url inp', b) ∈ objectURLs w2) ∧
           (Js.startsWith (ii_url inp) "blob:" = true → key ∉ map fst (rawFields gens) →
            ∀ b, store w !! key = Some (VBlob b) → (ii_url inp', b) ∈ objectURLs w2)).
Proof.
  intros Hwrite Hfetch Hrun1 Hrun2.
  destruct (persistGenerations_run gens w Hwrite Hfetch)
    as (ps & w1' & Hrun1' & He1 & Hdoc & Hlen1 & Hps).
  assert (w1' = w1) as -> by congruence.
  assert (Hfree : Forall legacyFree ps).
  { apply Forall_forall. intros p [j Hp]%list_elem_of_lookup.
    destruct (lookup_lt_is_Some_2 gens j) as [gen Hj].
    { rewrite <- Hlen1. by eapply lookup_lt_Some. }
    destruct (Hps j gen Hj) as (p' & Hp' & Hpa).
    assert (p' = p) as -> by congruence. by eapply persisted_legacyFree. }
  destruct (restoreGenerations_bytes ps w1 Hdoc Hfree) as (hs' & w2' & Hrun2' & Hhs).
  assert (hs' = hs ∧ w2' = w2) as [-> ->] by (split; congruence).
  assert (Hstore : ∀ key, Js.startsWith key "img:" = true →
            store w1 !! key = written (fetchBlob w) (rawFields gens) (store w) !! key).
  { intros key Hk. replace w1 with (persistGenerations gens w).2 by by rewrite Hrun1.
    apply persistGenerations_written; [done|]. by intros ->. }
  assert (Hraw : ∀ key url b, Js.startsWith key "img:" = true →
            (key, url) ∈ rawFields gens → NoDup (map fst (rawFields gens)) →
            fetchBlob w url = Some b → store w1 !! key = Some (VBlob b)).
  { intros key url b Hk Hin Hnd Hb. rewrite Hstore by done. by eapply written_field. }
  assert (Hkept : ∀ key b, Js.startsWith key "img:" = true →
            key ∉ map fst (rawFields gens) →
            store w !! key = Some (VBlob b) → store w1 !! key = Some (VBlob b)).
  { intros key b Hk Hnot Hb. rewrite Hstore by done. by rewrite written_other. }
  intros j gen Hj. destruct (Hps j gen Hj) as (p & Hp & _ & _ & Hq & _ & Hq').
  destruct (Hhs j p Hp) as (h & Hh & Hb1 & Hb2).
  assert (Hgen : gen ∈ gens) by by eapply list_elem_of_lookup_2.
  exists h. split; [done|]. split.
  - intros index img Hi key. destruct (Hq index img Hi) as (img' & Hi' & Hd).
    destruct (Hb1 index img' Hi') as (img'' & Hi'' & Hbytes).
    exists img''. split; [done|].
    assert (Href : isRef img = false → Js.truthy img = true →
              ∀ b, store w1 !! key = Some (VBlob b) → (img'', b) ∈ objectURLs w2).
    { intros Hr Ht b Hb. unfold dehydrated in Hd. rewrite Ht, Hr in Hd.
      destruct Hd as [-> _]. apply Hbytes; [apply isRef_makeRef_getImageKey|].
      by rewrite getRefKey_makeRef. }
    split.
    + intros Hn Hnd b Hb. pose proof Hn as (Ht & Hr & _)%needsFetch_inv.
      apply Href; [done..|]. apply (Hraw key img); [apply getImageKey_img| |done..].
      apply rawFields_elem with gen; [done|]. apply elem_of_app. left.
      by apply (rawOutputs_elem (id gen) (images gen) 0 index).
    + intros Hblob Hnot b Hb. destruct (blob_handle_not_ref _ Hblob).
      apply Href; [done..|]. apply Hkept; [apply getImageKey_img|done..].
  - intros k inp Hk key. destruct (Hq' k inp Hk) as (inp' & Hk' & _ & Hd).
    destruct (Hb2 k inp' Hk') as (inp'' & Hk'' & Hbytes).
    exists inp''. split; [done|].
    assert (Href : isRef (ii_url inp) = false → Js.truthy (ii_url inp) = true →
              ∀ b, store w1 !! key = Some (VBlob b) → (ii_url inp'', b) ∈ objectURLs w2).
    { intros Hr Ht b Hb. unfold dehydrated in Hd. rewrite Ht, Hr in Hd.
      destruct Hd as [Hurl _]. apply Hbytes; rewrite Hurl;
        [apply isRef_makeRef_getImageKey|]. by rewrite getRefKey_makeRef. }
    split.
    + intros Hn Hnd b Hb. pose proof Hn as (Ht & Hr & _)%needsFetch_inv.
      apply Href; [done..|].
      apply (Hraw key (ii_url inp)); [apply getImageKey_img| |done..].
      apply rawFields_elem with gen; [done|]. apply elem_of_app. right.
      apply rawInputs_elem; [by eapply list_elem_of_lookup_2|done].
    + intros Hblob Hnot b Hb. destruct (blob_handle_not_ref _ Hblob).
      apply Href; [done..|]. apply Hkept; [apply getImageKey_img|done..].
Qed.

(** Save, then load. When every write goes through and every raw field
    can be fetched, [persistGenerations] succeeds and [restoreGenerations]
    on the store it leaves returns one record per record, in order, with
    the same metadata and as many image fields. An empty field comes back
    empty. A raw field comes back as a registered [blob:] handle, and when
    no two raw fields of the batch have the same key, the handle is
    registered for the very bytes fetched from the field. A [blob:] handle
    whose deterministic key held a payload before the save comes back as a
    registered handle, and when no raw field of the batch has that key,
    the handle is registered for that very payload. *)
Theorem persist_restore_roundtrip (gens : list Generation) (w : World) :
  (∀ key, setItemFails w key = false) →
  fetchable w gens →
  ∃ w1 hs w2,
    persistGenerations gens w = (true, w1) ∧
    restoreGenerations w1 = (Some (Some hs), w2) ∧
    length hs = length gens ∧
    ∀ j gen, gens !! j = Some gen →
      ∃ h, hs !! j = Some h ∧ sameMetadata gen h ∧
        length (images h) = length (images gen) ∧
        length (inputImages h) = length (inputImages gen) ∧
        (∀ index img, images gen !! index = Some img →
           let key := getImageKey (id gen) index Output None in
           ∃ img', images h !! index = Some img' ∧
             (img = "" → img' = "") ∧
             (needsFetch img = true →
                (∃ b, (img', b) ∈ objectURLs w2) ∧
                (NoDup (map fst (rawFields gens)) →
                 ∀ b, fetchBlob w img = Some b → (img', b) ∈ objectURLs w2)) ∧
             (Js.startsWith img "blob:" = true →
              ∀ b, store w !! key = Some (VBlob b) →
                (∃ b', (img', b') ∈ objectURLs w2) ∧
                (key ∉ map fst (rawFields gens) → (img', b) ∈ objectURLs w2))) ∧
        (∀ k inp, inputImages gen !! k = Some inp →
           let key := getImageKey (id gen) 0 Input (Some (ii_id inp)) in
           ∃ url, inputImages h !! k = Some (withUrl inp url) ∧
             (ii_url inp = "" → url = "") ∧
             (needsFetch (ii_url inp) = true →
                (∃ b, (url, b) ∈ objectURLs w2) ∧
                (NoDup (map fst (rawFields gens)) →
                 ∀ b, fetchBlob w (ii_url inp) = Some b → (url, b) ∈ objectURLs w2)) ∧
             (Js.startsWith (ii_url inp) "blob:" = true →
              ∀ b, store w !! key = Some (VBlob b) →
                (∃ b', (url, b') ∈ objectURLs w2) ∧
                (key ∉ map fst (rawFields gens) → (url, b) ∈ objectURLs w2))).
Proof.
  intros Hwrite Hfetch.
  destruct (persistGenerations_run gens w Hwrite Hfetch)
    as (ps & w1 & Hrun1 & He1 & Hdoc & Hlen1 & Hps).
  destruct (restoreGenerations_run ps w1 Hdoc) as (hs & w2 & Hrun2 & He2 & Hlen2 & Hhs).
  pose proof (persist_restore_bytes gens w w1 hs w2 Hwrite Hfetch Hrun1 Hrun2) as Hbytes.
  exists w1, hs, w2. split; [done|]. split; [done|]. split; [congruence|].
  intros j gen Hj. destruct (Hps j gen Hj) as (p & Hp & Hm1 & Hl1 & Hq1 & Hl1' & Hq1').
  destruct (Hhs j p Hp) as (h & Hh & Hm2 & Hl2 & Hq2 & Hl2' & Hq2').
  destruct (Hbytes j gen Hj) as (h' & Hh' & Hby & Hby').
  assert (h' = h) as -> by congruence.
  exists h. split; [done|]. split.
  { destruct Hm1 as (?&?&?&?&?&?&?&?&?), Hm2 as (?&?&?&?&?&?&?&?&?).
    repeat split; congruence. }
  split; [congruence|]. split; [congruence|]. split.
  - intros index img Hi key. destruct (Hq1 index img Hi) as (img' & Hi' & Hd).
    destruct (Hq2 index img' Hi') as (img'' & Hi'' & Hf).
    destruct (Hby index img Hi) as (img3 & Hi3 & Hraw & Hblob).
    assert (img3 = img'') as -> by congruence.
    exists img''. split; [done|].
    destruct (dehydrated_hydrated _ _ _ _ _ _ _ _ _ Hd Hf) as (H1 & H2 & H3).
    split; [done|]. split.
    + intros Hn. split; [by apply H3|]. intros Hnd b Hb. by apply Hraw.
    + intros Hb b Hstore. split; [|intros Hnot; by apply Hblob].
      destruct (blob_handle_not_ref _ Hb). apply H2; [done..|].
      destruct He1 as (_ & _ & _ & HB & _).
      apply HB; [apply getImageKey_img|by exists b].
  - intros k inp Hk key. destruct (Hq1' k inp Hk) as (inp' & Hk' & Hshape & Hd).
    destruct (Hq2' k inp' Hk') as (inp'' & Hk'' & Hshape' & Hf).
    destruct (Hby' k inp Hk) as (inp3 & Hk3 & Hraw & Hblob).
    assert (inp3 = inp'') as -> by congruence.
    exists (ii_url inp''). split.
    { rewrite Hk'', Hshape' at 1. f_equal. rewrite Hshape. by destruct inp. }
    destruct (dehydrated_hydrated _ _ _ _ _ _ _ _ _ Hd Hf) as (H1 & H2 & H3).
    split; [done|]. split.
    + intros Hn. split; [by apply H3|]. intros Hnd b Hb. by apply Hraw.
    + intros Hb b Hstore. split; [|intros Hnot; by apply Hblob].
      destruct (blob_handle_not_ref _ Hb). apply H2; [done..|].
      destruct He1 as (_ & _ & _ & HB & _).
      apply HB; [apply getImageKey_img|by exists b].
Qed.

Lemma persist_restore_roundtrip_witness :
  NoDup (map fst (rawFields [rawRecord])) ∧
  ∃ w1 h w2 img' inp',
    persistGenerations [rawRecord] onlineWorld = (true, w1) ∧
    restoreGenerations w1 = (Some (Some [h]), w2) ∧
    images h !! 0%nat = Some img' ∧
    (img', mkBlob "image/png" "data:image/png;base64,AAAA") ∈ objectURLs w2 ∧
    inputImages h !! 0%nat = Some inp' ∧
    (ii_url inp', mkBlob "image/png" "https://example.org/cat.png") ∈ objectURLs w2.
Proof.
  assert (Hnd : NoDup (map fst (rawFields [rawRecord]))).
  { apply (bool_decide_unpack _). by vm_compute. }
  split; [exact Hnd|].
  destruct (persist_restore_roundtrip [rawRecord] onlineWorld
              (fun _ => eq_refl) (fetchable_onlineWorld _))
    as (w1 & hs & w2 & H1 & H2 & H3 & Hrec).
  destruct (Hrec 0%nat rawRecord eq_refl) as (h & Hh & _ & _ & _ & Hout & Hin).
  destruct hs as [|h0 [|? ?]]; [done| |done]. injection Hh as ->.
  destruct (Hout 0%nat "data:image/png;base64,AAAA" eq_refl)
    as (img' & Hi & _ & Hraw & _).
  destruct (Hin 0%nat _ eq_refl) as (url & Hk & _ & Hraw' & _).
  exists w1, h, w2, img', (withUrl (mkInputImage "att-1" "cat.png"
    "https://example.org/cat.png" None None) url).
  split; [done|]. split; [done|]. split; [done|].
  split; [exact (proj2 (Hraw eq_refl) Hnd _ eq_refl)|].
  split; [done|]. exact (proj2 (Hraw' eq_refl) Hnd _ eq_refl).
Defined.

(** Why the keys must differ. An input image whose id is empty has the key
    of the first output image: the save writes the output's bytes and then
    the input's under [img:g:0], and the load gives both fields a handle
    for the input's bytes. *)
Example persist_restore_same_key :
  let gen := withImages rawRecord ["data:image/png;base64,AAAA"]
               [mkInputImage "" "cat.png" "https://example.org/cat.png" None None] in
  let w1 := (persistGenerations [gen] onlineWorld).2 in
  let w2 := (restoreGenerations w1).2 in
  map fst (rawFields [gen]) = ["img:g:0"; "img:g:0"] ∧
  store w1 !! "img:g:0" =
    Some (VBlob (mkBlob "image/png" "https://example.org/cat.png")) ∧
  (restoreGenerations w1).1 =
    Some (Some [withImages gen ["blob:0"]
                  [mkInputImage "" "cat.png" "blob:1" None None]]) ∧
  objectURLs w2 =
    [("blob:0", mkBlob "image/png" "https://example.org/cat.png");
     ("blob:1", mkBlob "image/png" "https://example.org/cat.png")].
Proof. by vm_compute. Qed.

(** The documents are not image keys. *)
Lemma snapshot_after (generations pending : option (list Generation)) (w w' : World) :
  store w' !! GENERATIONS_KEY = store w !! GENERATIONS_KEY →
  store w' !! PENDING_KEY = store w !! PENDING_KEY →
  snapshot generations pending w' = snapshot generations pending w.
Proof.
  intros E1 E2.
  assert (Hread : ∀ arg key, store w' !! key = store w !! key →
            (snapshotOr arg key w').1 = (snapshotOr arg key w).1).
  { intros arg key E. unfold snapshotOr, bind, getItem. destruct arg; [done|].
    rewrite E. by destruct (store w !! key) as [[b|gs|[|s ss]|]|]. }
  unfold snapshot. by rewrite !Hread.
Qed.

(** A second pass of [cleanOrphanedImages] with the same arguments removes
    nothing: the store after two passes is the store after one. *)
Theorem cleanOrphanedImages_idempotent (generations pending : option (list Generation))
    (w : World) :
  let w1 := (cleanOrphanedImages generations pending w).2 in
  store (cleanOrphanedImages generations pending w1).2 = store w1.
Proof.
  intros w1. apply map_eq. intros key.
  assert (Hdoc : ∀ k, Js.startsWith k "img:" = false → store w1 !! k = store w !! k).
  { intros k Hk. unfold w1. rewrite cleanOrphanedImages_store.
    destruct (snapshot generations pending w); [|done].
    rewrite decide_False; [done|]. intros [H _]. congruence. }
  rewrite cleanOrphanedImages_store.
  rewrite (snapshot_after generations pending w w1) by (by apply Hdoc).
  pose proof (cleanOrphanedImages_store generations pending w key) as E. fold w1 in E.
  destruct (snapshot generations pending w) as [live|]; [|done].
  rewrite E. by destruct (decide _).
Qed.

(** The collector keeps what a save has just written. After a
    [persistGenerations] of [gens] in which every write went through, a pass
    of [cleanOrphanedImages], given [gens] themselves as its snapshot of the
    completed records or left to read the stored document, leaves a payload
    under the key of every raw field of [gens], whatever its pending
    snapshot is. *)
Theorem cleanOrphanedImages_keeps_persisted (gens : list Generation)
    (generations pending : option (list Generation)) (w : World) :
  (∀ key, setItemFails w key = false) →
  fetchable w gens →
  generations = Some gens ∨ generations = None →
  let w1 := (persistGenerations gens w).2 in
  let w2 := (cleanOrphanedImages generations pending w1).2 in
  ∀ gen, gen ∈ gens →
    (∀ index img, images gen !! index = Some img → needsFetch img = true →
       isBlob w2 (getImageKey (id gen) index Output None)) ∧
    (∀ inp, inp ∈ inputImages gen → needsFetch (ii_url inp) = true →
       isBlob w2 (getImageKey (id gen) 0 Input (Some (ii_id inp)))).
Proof.
  intros Hwrite Hfetch Harg w1 w2 gen Hgen.
  destruct (persistGenerations_run gens w Hwrite Hfetch)
    as (ps & w1' & Hrun & He & Hdoc & Hlen & Hps).
  assert (w1 = w1') as Hw1 by (unfold w1; by rewrite Hrun). clearbody w1. subst w1'.
  apply list_elem_of_lookup in Hgen as [j Hj].
  destruct (Hps j gen Hj) as (p & Hp & Hm & Hl & Hq & Hl' & Hq').
  assert (Hid : id p = id gen) by (symmetry; apply Hm).
  assert (Hkeep : ∀ key, (liveKey gen key ∧ liveKey p key) → isBlob w1 key → isBlob w2 key).
  { intros key [Hg Hpk] [b Hb]. exists b. unfold w2.
    rewrite cleanOrphanedImages_store.
    destruct (snapshot generations pending w1) as [[sg sp]|] eqn:Hsnap; [|done].
    rewrite decide_False; [done|].
    intros [_ Hnot]. apply Hnot. apply referencedKeys_spec. cbn [fst snd].
    unfold snapshot in Hsnap.
    destruct (snapshotOr generations GENERATIONS_KEY w1).1 as [sg'|] eqn:Hsg; [|done].
    destruct (snapshotOr pending PENDING_KEY w1).1 as [sp'|]; [|done].
    injection Hsnap as -> ->.
    destruct Harg as [-> | ->].
    - exists gen. split; [|done]. cbn [snapshotOr ret fst] in Hsg. injection Hsg as <-.
      apply elem_of_app. left. by eapply list_elem_of_lookup_2.
    - exists p. split; [|done].
      unfold snapshotOr, bind, getItem in Hsg. rewrite Hdoc in Hsg.
      cbn [ret fst] in Hsg. injection Hsg as <-.
      apply elem_of_app. left. by eapply list_elem_of_lookup_2. }
  split.
  - intros index img Hi (Ht & Hr & Hb)%needsFetch_inv.
    destruct (Hq index img Hi) as (img' & Hi' & Hd).
    unfold dehydrated in Hd. rewrite Ht, Hr in Hd. destruct Hd as [-> Hblob].
    apply Hkeep; [|by apply Hblob]. split; left.
    + exists index, img. split; [done|]. split; [done|]. unfold outputKey. by rewrite Hr.
    + exists index, (makeRef (getImageKey (id gen) index Output None)).
      split; [done|]. split; [by apply isRef_truthy, isRef_makeRef_getImageKey|].
      unfold outputKey. by rewrite isRef_makeRef_getImageKey, getRefKey_makeRef.
  - intros inp [k Hk]%list_elem_of_lookup (Ht & Hr & Hb)%needsFetch_inv.
    destruct (Hq' k inp Hk) as (inp' & Hk' & Hshape & Hd).
    unfold dehydrated in Hd. rewrite Ht, Hr in Hd. destruct Hd as [Hurl Hblob].
    apply Hkeep; [|by apply Hblob]. split; right.
    + exists inp. split; [by eapply list_elem_of_lookup_2|]. split; [done|].
      unfold inputKey. by rewrite Hr.
    + exists inp'. split; [by eapply list_elem_of_lookup_2|].
      rewrite Hurl. split; [by apply isRef_truthy, isRef_makeRef_getImageKey|].
      unfold inputKey. rewrite Hurl, isRef_makeRef_getImageKey, getRefKey_makeRef.
      done.
Qed.

Lemma cleanOrphanedImages_keeps_persisted_witness :
  isBlob (cleanOrphanedImages (Some [rawRecord]) (Some [])
            (persistGenerations [rawRecord] onlineWorld).2).2
         (getImageKey "g" 0 Output None).
Proof.
  refine (proj1 (cleanOrphanedImages_keeps_persisted [rawRecord] (Some [rawRecord])
            (Some []) onlineWorld (fun _ => eq_refl) (fetchable_onlineWorld _)
            (or_introl eq_refl) rawRecord _) 0%nat "data:image/png;base64,AAAA"
            eq_refl eq_refl).
  left.
Defined.

End RoundTripFacts.

(** ** Storage: deleting a record *)

Module DeleteFacts.

Import Storage StorageFacts StoreEvolution CreatePage Examples.

(** The keys [removeGenerationAssets] removes for a record are the keys
    [cleanOrphanedImages] counts as live for it. *)
Lemma assetKeys_liveKey (g : Generation) (key : string) :
  key ∈ assetKeys g ↔ liveKey g key.
Proof.
  unfold assetKeys, liveKey. rewrite elem_of_app, !list_elem_of_omap. split.
  - intros [([index img] & Hin & Hkey)|(img & Hin & Hkey)].
    + left. apply elem_of_lookup_imap in Hin as (i & x & [= -> ->] & Hi).
      exists i, x. destruct (Js.truthy x); [|done]. cbn [negb] in Hkey.
      injection Hkey as <-. done.
    + right. exists img. destruct (Js.truthy (ii_url img)); [|done].
      cbn [negb] in Hkey. injection Hkey as <-. done.
  - intros [(index & img & Hi & Ht & ->)|(img & Hin & Ht & ->)].
    + left. exists (index, img). split.
      * apply elem_of_lookup_imap. by exists index, img.
      * by rewrite Ht.
    + right. exists img. split; [done|]. by rewrite Ht.
Qed.

Lemma liveKey_img (g : Generation) (key : string) :
  liveKey g key → Js.startsWith key "img:" = true.
Proof.
  intros [(index & img & _ & _ & ->)|(img & _ & _ & ->)].
  - unfold outputKey. destruct (isRef img) eqn:Hr.
    + by apply getRefKey_isRef.
    + apply getImageKey_img.
  - unfold inputKey. destruct (isRef (ii_url img)) eqn:Hr.
    + by apply getRefKey_isRef.
    + apply getImageKey_img.
Qed.

Lemma removeAll_world (ks : list string) (n : nat) (w : World) :
  (mapIndexed (fun _ => removeItem) n ks w).2 =
  setStore w (store (mapIndexed (fun _ => removeItem) n ks w).2).
Proof.
  revert n w. induction ks as [|k ks IH]; intros n w; [by destruct w|].
  rewrite mapIndexed_cons. cbn [removeItem].
  specialize (IH (S n) (setStore w (delete k (store w)))).
  destruct (mapIndexed _ (S n) ks _) as [ys w']. cbn [snd] in *.
  rewrite IH. done.
Qed.

Lemma removeGenerationAssets_spec (g : Generation) (w : World) :
  (removeGenerationAssets g w).2 =
    setStore w (store (removeGenerationAssets g w).2) ∧
  ∀ key, store (removeGenerationAssets g w).2 !! key =
         if decide (key ∈ assetKeys g) then None else store w !! key.
Proof.
  unfold removeGenerationAssets, bind, mapAll.
  pose proof (removeAll_world (assetKeys g) 0 w) as Hw.
  pose proof (removeAll_store (assetKeys g) 0 w) as Hs.
  destruct (mapIndexed _ 0 (assetKeys g) w) as [us w']. cbn [ret snd] in *.
  by split.
Qed.

(** The document [getDocument] reads. *)
Definition storedDocument (w : World) (key : string) : option (list Generation) :=
  match store w !! key with
  | Some (VGenerations gs) => Some gs
  | _ => None
  end.

Lemma getDocument_spec (key : string) (w : World) :
  getDocument key w = (storedDocument w key, w).
Proof.
  unfold getDocument, storedDocument, bind, getItem.
  by destruct (store w !! key) as [[]|].
Qed.

(** The record whose assets [deleteGenerationData] removes. *)
Definition resolvedGeneration (generationId : string) (generation : option Generation)
    (w : World) : option Generation :=
  match generation with
  | Some g => Some g
  | None =>
      match storedDocument w GENERATIONS_KEY ≫= findById generationId with
      | Some g => Some g
      | None => storedDocument w PENDING_KEY ≫= findById generationId
      end
  end.

Lemma rewriteWithout_store (key generationId : string) (doc : option (list Generation))
    (w : World) (k : string) :
  setItemFails w key = false →
  store (rewriteWithout key generationId doc w).2 !! k =
  match doc with
  | Some gs =>
      if decide (k = key)
      then Some (VGenerations (filter (fun gen => id gen ≠ generationId) gs))
      else store w !! k
  | None => store w !! k
  end ∧
  setItemFails (rewriteWithout key generationId doc w).2 = setItemFails w.
Proof.
  intros Hw. unfold rewriteWithout. destruct doc as [gs|]; [|done].
  unfold bind, setItem. rewrite Hw. cbn [ret snd setStore store setItemFails].
  split; [|done]. destruct (decide (k = key)) as [->|Hne].
  - apply lookup_insert_eq.
  - by apply lookup_insert_ne.
Qed.

Lemma rewriteBoth_store (generationId : string) (docG docP : option (list Generation))
    (w : World) (key : string) :
  setItemFails w GENERATIONS_KEY = false →
  setItemFails w PENDING_KEY = false →
  store ((let* _ := rewriteWithout GENERATIONS_KEY generationId docG in
          rewriteWithout PENDING_KEY generationId docP) w).2 !! key =
  let rewritten (doc : option (list Generation)) :=
    match doc with
    | Some gs => Some (VGenerations (filter (fun gen => id gen ≠ generationId) gs))
    | None => store w !! key
    end in
  if decide (key = PENDING_KEY) then rewritten docP
  else if decide (key = GENERATIONS_KEY) then rewritten docG
  else store w !! key.
Proof.
  intros HG HP. cbn zeta. unfold bind.
  pose proof (rewriteWithout_store GENERATIONS_KEY generationId docG w) as H2.
  destruct (rewriteWithout GENERATIONS_KEY _ _ w) as [[] w2]. cbn [snd] in *.
  assert (HP2 : setItemFails w2 PENDING_KEY = false).
  { destruct (H2 key HG) as [_ ->]. done. }
  destruct (rewriteWithout_store PENDING_KEY generationId docP w2 key HP2) as [-> _].
  destruct (H2 key HG) as [-> _].
  destruct (decide (key = PENDING_KEY)) as [->|HneP].
  - destruct docP as [ps|]; [done|]. destruct docG as [gs|]; [|done].
    by rewrite decide_False.
  - assert (match docP with
            | Some _ | None =>
                match docG with
                | Some gs =>
                    if decide (key = GENERATIONS_KEY)
                    then Some (VGenerations (filter (fun gen => id gen ≠ generationId) gs))
                    else store w !! key
                | None => store w !! key
                end
            end =
            if decide (key = GENERATIONS_KEY)
            then match docG with
                 | Some gs => Some (VGenerations (filter (fun gen => id gen ≠ generationId) gs))
                 | None => store w !! key
                 end
            else store w !! key) as E.
    { destruct docP, docG, (decide (key = GENERATIONS_KEY)); done. }
    destruct docP; exact E.
Qed.

(** The store [deleteGenerationData] leaves, key by key. *)
Lemma deleteGenerationData_store (generationId : string) (generation : option Generation)
    (w : World) (key : string) :
  setItemFails w GENERATIONS_KEY = false →
  setItemFails w PENDING_KEY = false →
  store (deleteGenerationData generationId generation w).2 !! key =
  let removed :=
    match resolvedGeneration generationId generation w with
    | Some g => if decide (key ∈ assetKeys g) then None else store w !! key
    | None => store w !! key
    end in
  let rewritten (k : string) :=
    match storedDocument w k with
    | Some gs => Some (VGenerations (filter (fun gen => id gen ≠ generationId) gs))
    | None => removed
    end in
  if decide (key = PENDING_KEY) then rewritten PENDING_KEY
  else if decide (key = GENERATIONS_KEY) then rewritten GENERATIONS_KEY
  else removed.
Proof.
  intros HG HP. cbn zeta. unfold deleteGenerationData.
  unfold bind at 1. rewrite getDocument_spec.
  unfold bind at 1. rewrite getDocument_spec.
  fold (resolvedGeneration generationId generation w).
  unfold bind at 1.
  destruct (resolvedGeneration generationId generation w) as [g|].
  - destruct (removeGenerationAssets_spec g w) as [Hworld Hstore].
    destruct (removeGenerationAssets g w) as [[] w1]. cbn [snd] in *.
    rewrite rewriteBoth_store by (by rewrite Hworld). cbn zeta.
    by rewrite Hstore.
  - cbn [ret]. by rewrite rewriteBoth_store.
Qed.

Lemma storedDocument_Some (w : World) (key : string) (gs : list Generation) :
  storedDocument w key = Some gs ↔ store w !! key = Some (VGenerations gs).
Proof.
  unfold storedDocument. destruct (store w !! key) as [[]|]; split; congruence.
Qed.

Lemma document_not_live (g : Generation) (key : string) :
  key = GENERATIONS_KEY ∨ key = PENDING_KEY → key ∉ assetKeys g.
Proof.
  intros Hkey Hin%assetKeys_liveKey%liveKey_img. by destruct Hkey as [-> | ->].
Qed.

(** The assets of the record looked up are gone. *)
Lemma deleteGenerationData_assets (generationId : string) (generation : option Generation)
    (w : World) (g : Generation) (key : string) :
  setItemFails w GENERATIONS_KEY = false →
  setItemFails w PENDING_KEY = false →
  resolvedGeneration generationId generation w = Some g →
  liveKey g key →
  store (deleteGenerationData generationId generation w).2 !! key = None.
Proof.
  intros HG HP Hres Hl. rewrite deleteGenerationData_store by done. cbn zeta.
  rewrite Hres.
  assert (Hin : key ∈ assetKeys g) by (by apply assetKeys_liveKey).
  apply liveKey_img in Hl.
  rewrite !decide_False by (intros ->; by vm_compute in Hl).
  by rewrite decide_True.
Qed.

(** A document that is an array is rewritten without the records of the
    id. *)
Lemma deleteGenerationData_document (generationId : string) (generation : option Generation)
    (w : World) (key : string) (gs : list Generation) :
  setItemFails w GENERATIONS_KEY = false →
  setItemFails w PENDING_KEY = false →
  key = GENERATIONS_KEY ∨ key = PENDING_KEY →
  store w !! key = Some (VGenerations gs) →
  store (deleteGenerationData generationId generation w).2 !! key =
    Some (VGenerations (filter (fun gen => id gen ≠ generationId) gs)).
Proof.
  intros HG HP Hkey Hgs%storedDocument_Some.
  rewrite deleteGenerationData_store by done. cbn zeta.
  destruct Hkey as [-> | ->].
  - rewrite decide_False by done. rewrite decide_True by done. by rewrite Hgs.
  - rewrite decide_True by done. by rewrite Hgs.
Qed.

(** [deleteGenerationData], when both documents can be written: a stored
    document that is an array of records becomes the array without the
    records of the id, and an absent document stays absent; the key of
    every non-empty field of the record handed over is absent afterwards,
    and so is, when no record is handed over, that of the first record of
    the id in the completed document; any other key is as it was or absent,
    is as it was when it does not start with "img:", and is as it was when
    no field of the record looked up stands for it. *)
Theorem deleteGenerationData_forgets (generationId : string)
    (generation : option Generation) (w : World) :
  setItemFails w GENERATIONS_KEY = false →
  setItemFails w PENDING_KEY = false →
  let w' := (deleteGenerationData generationId generation w).2 in
  (∀ key, key = GENERATIONS_KEY ∨ key = PENDING_KEY →
     (∀ gs, store w !! key = Some (VGenerations gs) →
        store w' !! key =
          Some (VGenerations (filter (fun gen => id gen ≠ generationId) gs))) ∧
     (store w !! key = None → store w' !! key = None)) ∧
  (∀ g key, generation = Some g → liveKey g key → store w' !! key = None) ∧
  (generation = None →
   ∀ gs g key, store w !! GENERATIONS_KEY = Some (VGenerations gs) →
     findById generationId gs = Some g → liveKey g key → store w' !! key = None) ∧
  (∀ key, key ≠ GENERATIONS_KEY → key ≠ PENDING_KEY →
     (store w' !! key = None ∨ store w' !! key = store w !! key) ∧
     (Js.startsWith key "img:" = false → store w' !! key = store w !! key) ∧
     ((∀ g, resolvedGeneration generationId generation w = Some g → ¬ liveKey g key) →
      store w' !! key = store w !! key)).
Proof.
  intros HG HP w'.
  assert (Hstore := fun key => deleteGenerationData_store generationId generation w key HG HP).
  fold w' in Hstore. cbn zeta in Hstore.
  split; [|split; [|split]].
  - intros key Hkey. split.
    + intros gs Hgs. by apply deleteGenerationData_document.
    + intros Hnone. rewrite Hstore.
      assert (storedDocument w key = None) as Hdoc
        by (unfold storedDocument; by rewrite Hnone).
      assert (Hrem : match resolvedGeneration generationId generation w with
                     | Some g => if decide (key ∈ assetKeys g) then None else store w !! key
                     | None => store w !! key
                     end = None).
      { destruct (resolvedGeneration _ _ _); [|done]. by destruct (decide _). }
      destruct Hkey as [-> | ->].
      * rewrite decide_False by done. rewrite decide_True by done. by rewrite Hdoc.
      * rewrite decide_True by done. by rewrite Hdoc.
  - intros g key ->. by apply deleteGenerationData_assets.
  - intros -> gs g key Hgs%storedDocument_Some Hfind.
    apply deleteGenerationData_assets; [done..|].
    unfold resolvedGeneration. rewrite Hgs. cbn [mbind option_bind]. by rewrite Hfind.
  - intros key H1 H2. rewrite Hstore, !decide_False by done. split; [|split].
    + destruct (resolvedGeneration _ _ _); [|by right].
      destruct (decide _); [by left|by right].
    + intros Himg. destruct (resolvedGeneration _ _ _) as [g|]; [|done].
      rewrite decide_False; [done|].
      intros Hin%assetKeys_liveKey%liveKey_img. congruence.
    + intros Hnot. destruct (resolvedGeneration _ _ _) as [g|]; [|done].
      rewrite decide_False; [done|]. intros Hin%assetKeys_liveKey. by eapply Hnot.
Qed.

Lemma deleteGenerationData_forgets_witness :
  store (deleteGenerationData "g" None holedWorld).2 !! GENERATIONS_KEY =
    Some (VGenerations []) ∧
  store (deleteGenerationData "g" None holedWorld).2 !! "img:g:1" = None.
Proof.
  destruct (deleteGenerationData_forgets "g" None holedWorld eq_refl eq_refl)
    as (Hdocs & _ & Hassets & _).
  split.
  - exact (proj1 (Hdocs GENERATIONS_KEY (or_introl eq_refl)) [holedRecord] eq_refl).
  - apply (Hassets eq_refl [holedRecord] holedRecord "img:g:1" eq_refl eq_refl).
    left. by exists 1%nat, "ref:img:g:1".
Defined.




End DeleteFacts.

(** ** Sorting *)

Module SortFacts.

Section Sorted.

Context {A : Type} (compareFn : A → A → Z) (key : A → Z).

(** [l] is in descending order of [key]. *)
Definition descending (l : list A) : Prop :=
  StronglySorted (fun a b => (key b ≤ key a)%Z) l.

Lemma insertSorted_descending (x : A) (l : list A) :
  (∀ a b, a ∈ x :: l → b ∈ x :: l → compareFn a b = (key b - key a)%Z) →
  descending l → descending (insertSorted compareFn x l).
Proof.
  intros Hcmp Hl. induction Hl as [|y l Hl IH Hy]; cbn [insertSorted].
  - repeat constructor.
  - rewrite Hcmp by (rewrite !elem_of_cons; auto).
    destruct (Z.leb_spec (key y - key x) 0) as [Hle|Hgt].
    + constructor; [by constructor|]. constructor; [lia|].
      eapply Forall_impl; [exact Hy|]. cbn. intros b Hb. lia.
    + constructor.
      * apply IH. intros a b Ha Hb.
        apply Hcmp; rewrite !elem_of_cons in *; tauto.
      * rewrite MergeFacts.insertSorted_perm. constructor; [lia|done].
Qed.

Lemma arraySort_descending (l : list A) :
  (∀ a b, a ∈ l → b ∈ l → compareFn a b = (key b - key a)%Z) →
  descending (arraySort compareFn l).
Proof.
  induction l as [|x l IH]; intros Hcmp; [constructor|].
  unfold arraySort in *. cbn [foldr]. apply insertSorted_descending.
  - intros a b Ha Hb. apply Hcmp.
    + apply elem_of_cons in Ha as [->|Ha]; [left|right].
      by rewrite <- (MergeFacts.arraySort_perm compareFn l).
    + apply elem_of_cons in Hb as [->|Hb]; [left|right].
      by rewrite <- (MergeFacts.arraySort_perm compareFn l).
  - apply IH. intros a b Ha Hb. apply Hcmp; by right.
Qed.

End Sorted.

End SortFacts.

Module PageFacts.

Import Storage CreatePage MergeFacts SortFacts Examples.

Lemma reconcilePending_markReconciled (st : AppState) :
  reconcilePending (markReconciled st) = markReconciled st.
Proof.
  unfold reconcilePending. cbn [markReconciled pendingReconciledRef].
  by rewrite orb_true_r.
Qed.

Lemma reconcilePending_cases (st : AppState) :
  reconcilePending st = st ∨ ∃ st1, reconcilePending st = markReconciled st1.
Proof.
  unfold reconcilePending.
  destruct (negb (storageHydratedRef st) || pendingReconciledRef st
            || negb (pendingHydratedRef st)); [by left|].
  right. destruct (Nat.eqb _ 0); [by eexists|].
  destruct (noKeys st); [by eexists|].
  destruct (mapAll _ _ st) as [reconciled st1]. by eexists.
Qed.

Lemma reconcilePending_fixed (st : AppState) :
  reconcilePending (reconcilePending st) = reconcilePending st.
Proof.
  destruct (reconcilePending_cases st) as [E|[st1 E]].
  - by rewrite !E.
  - rewrite E. apply reconcilePending_markReconciled.
Qed.

(** The recovery pass runs once: applied to its own result it changes
    nothing, and it either leaves the state as it is or marks the pending
    records as reconciled. *)
Theorem reconcilePending_idempotent (st : AppState) :
  reconcilePending (reconcilePending st) = reconcilePending st ∧
  (reconcilePending st = st ∨ pendingReconciledRef (reconcilePending st) = true).
Proof.
  split; [apply reconcilePending_fixed|].
  destruct (reconcilePending_cases st) as [E|[st1 E]]; [by left|].
  right. by rewrite E.
Qed.

(** The time of a record, when its date parses. *)
Definition timeOf (getTime : string → option Z) (g : Generation) : Z :=
  default 0%Z (getTime (createdAt g)).

Lemma newestFirst_timeOf (getTime : string → option Z) (a b : Generation) :
  is_Some (getTime (createdAt a)) → is_Some (getTime (createdAt b)) →
  newestFirst getTime a b = (timeOf getTime b - timeOf getTime a)%Z.
Proof. unfold newestFirst, timeOf. by intros [ta ->] [tb ->]. Qed.

Lemma cloudOnly_ids (cloudGenerations local : list Generation) :
  filter (fun g => id g ∉ (list_to_set (map id local) : gset string)) cloudGenerations =
  filter (fun g => id g ∉ map id local) cloudGenerations.
Proof. apply list_filter_iff. intros g. by rewrite elem_of_list_to_set. Qed.

(** The merge of cloud records into the local list: the ids after it are
    the local ids and the cloud ids; when neither list repeats an id the
    merged list repeats none; merging the same cloud records once more
    changes nothing; and when every date parses, the merged list is newest
    first as soon as the local list was or a cloud record was added. *)
Theorem mergeCloudGenerations_merge (getTime : string → option Z)
    (cloudGenerations local : list Generation) :
  let merged := mergeCloudGenerations getTime cloudGenerations local in
  (∀ i, i ∈ map id merged ↔ i ∈ map id local ∨ i ∈ map id cloudGenerations) ∧
  (NoDup (map id local) → NoDup (map id cloudGenerations) → NoDup (map id merged)) ∧
  mergeCloudGenerations getTime cloudGenerations merged = merged ∧
  ((∀ g, g ∈ local ++ cloudGenerations → is_Some (getTime (createdAt g))) →
   descending (timeOf getTime) local ∨
   (∃ g, g ∈ cloudGenerations ∧ id g ∉ map id local) →
   descending (timeOf getTime) merged).
Proof.
  intros merged.
  assert (Hperm : merged ≡ₚ local ++ filter (fun g => id g ∉ map id local) cloudGenerations)
    by apply mergeCloudGenerations_perm.
  assert (Hids : ∀ i, i ∈ map id merged ↔ i ∈ map id local ∨ i ∈ map id cloudGenerations).
  { intros i. rewrite Hperm, map_app, elem_of_app. split.
    - intros [?|(g & -> & [_ Hg]%list_elem_of_filter)%list_elem_of_fmap]; [by left|].
      right. by apply list_elem_of_fmap_2.
    - intros [?|(g & -> & Hg)%list_elem_of_fmap]; [by left|].
      destruct (decide (id g ∈ map id local)) as [?|Hnot]; [by left|].
      right. apply list_elem_of_fmap_2. by apply list_elem_of_filter. }
  split; [done|]. split; [|split].
  - intros Hl Hc. rewrite Hperm, map_app. apply NoDup_app. split; [done|]. split.
    + intros i Hi (g & -> & [Hg _]%list_elem_of_filter)%list_elem_of_fmap. done.
    + apply (NoDup_fmap_2_strong id); [|by apply NoDup_filter, (NoDup_fmap_1 id)].
      intros a b [_ Ha]%list_elem_of_filter [_ Hb]%list_elem_of_filter Heq.
      apply list_elem_of_lookup in Ha as [i Hi], Hb as [j Hj].
      assert (i = j) as ->.
      { eapply NoDup_lookup; [exact Hc| |]; rewrite list_lookup_fmap.
        - by rewrite Hi.
        - rewrite Hj. cbn. by rewrite Heq. }
      congruence.
  - unfold mergeCloudGenerations at 1. rewrite cloudOnly_ids.
    rewrite (CloudStorageFacts.filter_none _ cloudGenerations); [done|].
    intros g Hg Hnot. apply Hnot, Hids. right. by apply list_elem_of_fmap_2.
  - intros Hparse Hcase. unfold merged, mergeCloudGenerations.
    rewrite cloudOnly_ids.
    destruct (Nat.eqb _ 0) eqn:Hlen.
    + destruct Hcase as [?|(g & Hg & Hnot)]; [done|].
      apply Nat.eqb_eq, nil_length_inv in Hlen.
      assert (g ∈ filter (fun g => id g ∉ map id local) cloudGenerations) as Hin
        by (by apply list_elem_of_filter).
      rewrite Hlen in Hin. by apply elem_of_nil in Hin.
    + apply arraySort_descending. intros a b Ha Hb.
      apply newestFirst_timeOf; apply Hparse.
      * apply elem_of_app.
        apply elem_of_app in Ha as [?|[_ ?]%list_elem_of_filter]; [by left|by right].
      * apply elem_of_app.
        apply elem_of_app in Hb as [?|[_ ?]%list_elem_of_filter]; [by left|by right].
Qed.

End PageFacts.

(** ** The cloud tables *)

Module CloudRoundTripFacts.

Import CloudStorage CloudStorageFacts MergeFacts SortFacts Examples.

Lemma upsertRow_self (table : list GenerationRow) (row : GenerationRow) :
  row ∈ upsertRow table row.
Proof.
  unfold upsertRow. destruct (decide _) as [Hin|Hnin].
  - apply list_elem_of_fmap in Hin as (r & Hid & Hr).
    apply list_elem_of_fmap. exists r. split; [|done].
    by rewrite decide_True.
  - apply elem_of_app. right. left.
Qed.

Lemma upsertRow_keep (table : list GenerationRow) (row row' : GenerationRow) :
  row' ∈ table → row_id row' ≠ row_id row → row' ∈ upsertRow table row.
Proof.
  intros Hin Hne. unfold upsertRow. destruct (decide _) as [_|_].
  - apply list_elem_of_fmap. exists row'. split; [|done]. by rewrite decide_False.
  - apply elem_of_app. by left.
Qed.

Lemma upsertRows_keep (rows table : list GenerationRow) (row' : GenerationRow) :
  row' ∈ table → row_id row' ∉ map row_id rows → row' ∈ upsertRows rows table.
Proof.
  unfold upsertRows. revert table.
  induction rows as [|row rows IH]; intros table Hin Hnot; [done|].
  cbn [foldl]. cbn [map] in Hnot. apply not_elem_of_cons in Hnot as [Hne Hnot].
  apply IH; [|done]. by apply upsertRow_keep.
Qed.

(** A batch whose ids do not repeat is in the table after its upsert. *)
Lemma upsertRows_in (rows table : list GenerationRow) (row : GenerationRow) :
  NoDup (map row_id rows) → row ∈ rows → row ∈ upsertRows rows table.
Proof.
  unfold upsertRows. revert table.
  induction rows as [|r rows IH]; intros table Hnd Hin; [by apply elem_of_nil in Hin|].
  cbn [foldl]. cbn [map] in Hnd. apply NoDup_cons in Hnd as [Hr Hnd].
  apply elem_of_cons in Hin as [->|Hin]; [|by apply IH].
  apply (upsertRows_keep rows); [apply upsertRow_self|done].
Qed.

Lemma withImages_same (gen : Generation) :
  withImages gen (images gen) (inputImages gen) = gen.
Proof. by destruct gen. Qed.

Lemma fromDbFormat_toDbFormat (gen : Generation) (user : string) :
  fromDbFormat (toDbFormat gen user) = gen.
Proof. by destruct gen. Qed.

Lemma processGenerations_plain (gens : list Generation) (r : Remote) :
  mapAll (processGeneration false) gens r = (gens, r).
Proof.
  unfold mapAll. generalize 0. induction gens as [|gen gens IH]; intros n; [done|].
  rewrite mapIndexed_cons. unfold processGeneration at 1. cbn [andb ret].
  by rewrite IH, withImages_same.
Qed.

(** Without the image upload, [saveGenerationsWithImages] is
    [saveGenerationsToCloud]. *)
Lemma saveGenerationsWithImages_plain (gens : list Generation) (r : Remote) :
  saveGenerationsWithImages gens false r = saveGenerationsToCloud gens r.
Proof.
  unfold saveGenerationsWithImages, saveGenerationsToCloud.
  destruct (sessionUser r); [|done]. unfold bind at 1.
  by rewrite processGenerations_plain.
Qed.

Lemma loadGenerationsFromCloud_ok (r : Remote) (user : string) :
  sessionUser r = Some user → requestFails r (requests r) = false →
  (loadGenerationsFromCloud r).1 =
  Some (map fromDbFormat
          (map (selectRow r)
             (arraySort (createdAtDescending (timestamptz r))
                (filter (fun row => row_user_id row = user) (generationsTable r))))).
Proof.
  intros Hu Hok. unfold loadGenerationsFromCloud, bind, request. by rewrite Hu, Hok.
Qed.

Lemma descending_fromDbFormat (ts : string → Z) (rows : list GenerationRow) :
  descending (fun row => ts (row_created_at row)) rows →
  descending (fun g => ts (createdAt g)) (map fromDbFormat rows).
Proof.
  unfold descending. induction 1 as [|row rows _ IH Hall]; [constructor|].
  cbn [map]. constructor; [done|]. by apply Forall_fmap.
Qed.

(** Printing keeps the order when the instant of a printed text is the
    instant it was printed from. *)
Lemma descending_selectRow (r : Remote) (rows : list GenerationRow) :
  (∀ z, timestamptz r (timestamptzOut r z) = z) →
  descending (fun row => timestamptz r (row_created_at row)) rows →
  descending (fun row => timestamptz r (row_created_at row)) (map (selectRow r) rows).
Proof.
  intros Hprint. unfold descending. induction 1 as [|row rows _ IH Hall]; [constructor|].
  cbn [map]. constructor; [done|]. apply Forall_fmap.
  eapply Forall_impl; [exact Hall|]. intros row' Hle.
  cbn [selectRow row_created_at compose]. by rewrite !Hprint.
Qed.

(** The record with its date as the cloud prints it. *)
Definition reprinted (r : Remote) (g : Generation) : Generation :=
  {| id := id g; prompt := prompt g; aspect := aspect g;
     quality := quality g; outputFormat := outputFormat g;
     provider := provider g;
     createdAt := timestamptzOut r (timestamptz r (createdAt g));
     size_width := size_width g; size_height := size_height g;
     images := images g; inputImages := inputImages g |}.

Lemma fromDbFormat_selectRow (r : Remote) (gen : Generation) (user : string) :
  fromDbFormat (selectRow r (toDbFormat gen user)) = reprinted r gen.
Proof. done. Qed.

Lemma reprinted_same (r : Remote) (g : Generation) :
  timestamptzOut r (timestamptz r (createdAt g)) = createdAt g → reprinted r g = g.
Proof. intros E. unfold reprinted. rewrite E. by destruct g. Qed.

(** The records survive the cloud, up to the text of their date. When the
    user is signed in, no request fails and the batch repeats no id,
    [saveGenerationsWithImages] succeeds and [loadGenerationsFromCloud]
    then returns, in the descending order of the instants of [created_at],
    every record of the batch, with at most other images and with its date
    as the [TIMESTAMPTZ] column prints it; with the image upload off the
    record comes back with every other field as it was, and as it was
    altogether when the column prints the text that was sent. Any other
    record returned was a cloud record before. [fromDbFormat] inverts
    [toDbFormat], and without the image upload
    [saveGenerationsWithImages] is [saveGenerationsToCloud]. *)
Theorem generations_cloud_roundtrip (gens : list Generation) (uploadImages : bool)
    (r : Remote) (user : string) :
  sessionUser r = Some user →
  (∀ n, requestFails r n = false) →
  NoDup (map id gens) →
  let saved := saveGenerationsWithImages gens uploadImages r in
  saved.1 = Some tt ∧
  saveGenerationsWithImages gens false r = saveGenerationsToCloud gens r ∧
  (∀ g, fromDbFormat (toDbFormat g user) = g) ∧
  ∃ loaded,
    (loadGenerationsFromCloud saved.2).1 = Some loaded ∧
    (∃ rows, loaded = map (fun row => fromDbFormat (selectRow r row)) rows ∧
             descending (fun row => timestamptz r (row_created_at row)) rows) ∧
    ((∀ z, timestamptz r (timestamptzOut r z) = z) →
       descending (fun g => timestamptz r (createdAt g)) loaded) ∧
    (∀ g, g ∈ gens →
       ∃ imgs, reprinted r (withImages g imgs (inputImages g)) ∈ loaded) ∧
    (uploadImages = false → ∀ g, g ∈ gens →
       reprinted r g ∈ loaded ∧
       (timestamptzOut r (timestamptz r (createdAt g)) = createdAt g → g ∈ loaded)) ∧
    (∀ g, g ∈ loaded → id g ∈ map id gens ∨ g ∈ cloudRecords r).
Proof.
  intros Hu Hok Hnd saved.
  set (ps := (mapAll (processGeneration uploadImages) gens r).1).
  set (rows := map (fun gen => toDbFormat gen user) ps).
  assert (Hsaved : saved.1 = Some tt ∧ sessionUser saved.2 = Some user ∧
                   requestFails saved.2 = requestFails r ∧
                   timestamptz saved.2 = timestamptz r ∧
                   selectRow saved.2 = selectRow r ∧
                   generationsTable saved.2 = upsertRows rows (generationsTable r)).
  { unfold saved. rewrite saveGenerationsWithImages_eq, Hu. cbn zeta. by rewrite Hok. }
  destruct Hsaved as (Hres & Hus & Hrq & Hts & Hsel & Ht).
  split; [done|]. split; [apply saveGenerationsWithImages_plain|].
  split; [intros g; apply fromDbFormat_toDbFormat|].
  assert (HF : Forall2 (fun gen p => ∃ imgs, p = withImages gen imgs (inputImages gen))
                       gens ps) by apply processGenerations_spec.
  set (sorted := arraySort (createdAtDescending (timestamptz r))
                   (filter (fun row => row_user_id row = user)
                      (upsertRows rows (generationsTable r)))).
  exists (map fromDbFormat (map (selectRow r) sorted)). split.
  { rewrite (loadGenerationsFromCloud_ok _ user); [|done|by rewrite Hrq].
    by rewrite Hts, Hsel, Ht. }
  assert (Hsorted : descending (fun row => timestamptz r (row_created_at row)) sorted).
  { apply arraySort_descending. done. }
  assert (Hrows : NoDup (map row_id rows)).
  { unfold rows. by rewrite (processed_ids user gens ps HF). }
  assert (Hloaded : ∀ p, p ∈ ps →
            reprinted r p ∈ map fromDbFormat (map (selectRow r) sorted)).
  { intros p Hp. rewrite <- (fromDbFormat_selectRow r p user).
    apply list_elem_of_fmap_2, list_elem_of_fmap_2. unfold sorted.
    rewrite arraySort_perm.
    apply list_elem_of_filter. split; [done|].
    apply upsertRows_in; [done|].
    by apply (list_elem_of_fmap_2 (fun gen => toDbFormat gen user)). }
  split; [|split; [|split; [|split]]].
  - exists sorted. split; [by rewrite <- list_fmap_compose|done].
  - intros Hprint. by apply descending_fromDbFormat, descending_selectRow.
  - intros g [j Hj]%list_elem_of_lookup.
    destruct (Forall2_lookup_l _ _ _ _ _ HF Hj) as (p & Hp & imgs & ->).
    exists imgs. apply Hloaded. by eapply list_elem_of_lookup_2.
  - intros -> g Hg.
    assert (Hin : reprinted r g ∈ map fromDbFormat (map (selectRow r) sorted)).
    { apply Hloaded. unfold ps. by rewrite processGenerations_plain. }
    split; [done|]. intros E. by rewrite <- (reprinted_same r g E).
  - intros g (row & -> & (sent & -> & Hsent)%list_elem_of_fmap)%list_elem_of_fmap.
    unfold sorted in Hsent. rewrite arraySort_perm in Hsent.
    apply list_elem_of_filter in Hsent as [Huser Hsent].
    apply upsertRows_row in Hsent as [[Hid _]|[_ Hin]].
    + left. by rewrite <- (processed_ids user gens ps HF).
    + right. unfold cloudRecords. apply list_elem_of_fmap_2, list_elem_of_fmap_2.
      apply list_elem_of_filter. split; [|done]. by rewrite Hu, Huser.
Qed.

Lemma generations_cloud_roundtrip_witness :
  reprinted freshRemote (sampleRecord "generation-a1" "a cat" []) ∈
  default [] (loadGenerationsFromCloud
                (saveGenerationsWithImages
                   [sampleRecord "generation-a1" "a cat" []] false freshRemote).2).1 ∧
  createdAt (sampleRecord "generation-a1" "a cat" []) = "2025-01-01T00:00:00.000Z" ∧
  createdAt (reprinted freshRemote (sampleRecord "generation-a1" "a cat" [])) =
    "2025-01-01T00:00:00+00:00".
Proof.
  destruct (generations_cloud_roundtrip [sampleRecord "generation-a1" "a cat" []] false
              freshRemote "user-1" eq_refl (fun _ => eq_refl))
    as (_ & _ & _ & loaded & -> & _ & _ & _ & Hin & _).
  - apply NoDup_singleton.
  - split; [|done]. apply (Hin eq_refl (sampleRecord "generation-a1" "a cat" [])). left.
Defined.

(** [deleteGenerationFromCloud]: when it throws, the tables are as they
    were, and without a session nothing is sent; when it succeeds, the
    rows of the table are the rows that were there but those of the id and
    the user, a favourite left is a favourite that was there, the
    favourites of other records stay, those of the record go with a row
    that was deleted, and [loadGenerationsFromCloud] returns no record of
    the id. *)
Theorem deleteGenerationFromCloud_removes (generationId : string) (r : Remote) :
  let deleted := deleteGenerationFromCloud generationId r in
  (deleted.1 = None →
     generationsTable deleted.2 = generationsTable r ∧
     favoritesTable deleted.2 = favoritesTable r) ∧
  (sessionUser r = None → deleted = (None, r)) ∧
  (deleted.1 = Some tt →
     ∃ user, sessionUser r = Some user ∧
       (∀ row, row ∈ generationsTable deleted.2 ↔
               row ∈ generationsTable r ∧
               ¬ (row_id row = generationId ∧ row_user_id row = user)) ∧
       (∀ fav, fav ∈ favoritesTable deleted.2 →
               fav ∈ favoritesTable r) ∧
       (∀ fav, fav ∈ favoritesTable r → fav_generation_id fav ≠ generationId →
               fav ∈ favoritesTable deleted.2) ∧
       ((∃ row, row ∈ generationsTable r ∧ row_id row = generationId ∧
                row_user_id row = user) →
        ∀ fav, fav ∈ favoritesTable deleted.2 → fav_generation_id fav ≠ generationId) ∧
       (∀ loaded, (loadGenerationsFromCloud deleted.2).1 = Some loaded →
          generationId ∉ map id loaded)).
Proof.
  intros deleted. unfold deleted, deleteGenerationFromCloud.
  destruct (sessionUser r) as [user|] eqn:Hu; [|by split; [|split]].
  unfold bind, request. destruct (requestFails r (requests r)) eqn:Hfail; cbn [negb ret fst snd].
  { split; [done|]. split; done. }
  split; [done|]. split; [done|]. intros _. exists user. split; [done|].
  cbn [generationsTable setRequests setGenerationsTable favoritesTable].
  set (matches := fun row : GenerationRow =>
                    row_id row = generationId ∧ row_user_id row = user).
  set (kept := filter (fun row => ¬ matches row) (generationsTable r)).
  destruct (Nat.ltb 0 (length (filter matches (generationsTable r)))) eqn:Hlen;
    cbn [generationsTable favoritesTable setFavoritesTable setGenerationsTable setRequests
         sessionUser].
  - split; [|split; [|split; [|split]]].
    + intros row. unfold kept. rewrite list_elem_of_filter. tauto.
    + by intros fav [_ ?]%list_elem_of_filter.
    + intros fav Hin Hne. by apply list_elem_of_filter.
    + by intros _ fav [? _]%list_elem_of_filter.
    + intros loaded. unfold loadGenerationsFromCloud, bind, request.
      cbn [sessionUser setFavoritesTable setGenerationsTable setRequests requestFails
           requests generationsTable timestamptz fst snd]. rewrite Hu.
      destruct (requestFails r (S (requests r))); cbn [negb ret fst]; [done|].
      intros [= <-] (g & Hid & (row & -> & (sent & -> & Hsent)%list_elem_of_fmap)
                                  %list_elem_of_fmap)%list_elem_of_fmap.
      rewrite arraySort_perm in Hsent.
      apply list_elem_of_filter in Hsent as [Huser [Hnot _]%list_elem_of_filter].
      apply Hnot. by split.
  - split; [|split; [|split; [|split]]].
    + intros row. unfold kept. rewrite list_elem_of_filter. tauto.
    + done.
    + done.
    + intros (row & Hrow & Hid & Huser) fav _. exfalso.
      apply Nat.ltb_ge in Hlen.
      assert (row ∈ filter matches (generationsTable r)) as Hin
        by (by apply list_elem_of_filter).
      destruct (filter matches (generationsTable r)); [by apply elem_of_nil in Hin|].
      cbn in Hlen. lia.
    + intros loaded. unfold loadGenerationsFromCloud, bind, request.
      cbn [sessionUser setFavoritesTable setGenerationsTable setRequests requestFails
           requests generationsTable timestamptz fst snd]. rewrite Hu.
      destruct (requestFails r (S (requests r))); cbn [negb ret fst]; [done|].
      intros [= <-] (g & Hid & (row & -> & (sent & -> & Hsent)%list_elem_of_fmap)
                                  %list_elem_of_fmap)%list_elem_of_fmap.
      rewrite arraySort_perm in Hsent.
      apply list_elem_of_filter in Hsent as [Huser [Hnot _]%list_elem_of_filter].
      apply Hnot. by split.
Qed.

(** [uploadGenerationImages] keeps the slots: it leaves the remote as it
    is and returns as many images, each the image it was given or the URL
    [uploadImage] returned for it under the path [id/index]; an image that
    is empty or white space, that is neither a data URL nor a [blob:] URL,
    that is in the storage already, or whose upload fails, is returned as
    it was given. *)
Theorem uploadGenerationImages_slots (generationId : string) (imgs : list string)
    (r : Remote) :
  let uploaded := uploadGenerationImages generationId imgs r in
  uploaded.2 = r ∧
  length uploaded.1 = length imgs ∧
  ∀ i img, imgs !! i = Some img →
    ∃ out, uploaded.1 !! i = Some out ∧
      (out = img ∨
       needsUpload img (supabaseUrl r) = true ∧
       storageUpload r img GENERATIONS_BUCKET (generationId +:+ "/" +:+ Js.ofIndex i)
         = Some out) ∧
      (Js.trim img = "" → out = img) ∧
      (isBase64DataUrl img = false → isBlobUrl img = false → out = img) ∧
      (Js.includes img (supabaseUrl r) = true → Js.includes img "/storage/" = true →
       out = img) ∧
      (storageUpload r img GENERATIONS_BUCKET (generationId +:+ "/" +:+ Js.ofIndex i)
         = None → out = img).
Proof.
  intros uploaded. unfold uploaded, uploadGenerationImages.
  split; [apply uploadGenerationImages_remote|].
  pose proof (mapIndexed_inv (@eq Remote)
    (fun i img out (r' : Remote) =>
       (out = img ∨
        needsUpload img (supabaseUrl r) = true ∧
        storageUpload r img GENERATIONS_BUCKET (generationId +:+ "/" +:+ Js.ofIndex i)
          = Some out) ∧
       (Js.trim img = "" → out = img) ∧
       (isBase64DataUrl img = false → isBlobUrl img = false → out = img) ∧
       (Js.includes img (supabaseUrl r) = true → Js.includes img "/storage/" = true →
        out = img) ∧
       (storageUpload r img GENERATIONS_BUCKET (generationId +:+ "/" +:+ Js.ofIndex i)
          = None → out = img))
    (uploadOne generationId) r imgs) as H.
  destruct H with (n := 0) (w := r) as (_ & Hlen & Hq); [done| |done|].
  { apply Forall_forall. intros img _ n r' <-. unfold uploadOne.
    destruct (Js.truthy img) eqn:Ht; cbn [negb orb fst snd].
    2: { split; [done|]. repeat split; auto. }
    destruct (Js.truthy (Js.trim img)) eqn:Htt; cbn [negb fst snd].
    2: { split; [done|]. repeat split; auto. }
    assert (Htrim : Js.trim img ≠ "") by (by apply JsFacts.truthy_true).
    unfold needsUpload.
    destruct (Js.includes img (supabaseUrl r) && Js.includes img "/storage/") eqn:Hup.
    { cbn [fst snd]. split; [done|]. repeat split; auto. }
    assert (Hnot : Js.includes img (supabaseUrl r) = true →
                   Js.includes img "/storage/" = true → False).
    { intros H1 H2. by rewrite H1, H2 in Hup. }
    destruct (isBase64DataUrl img) eqn:Hd; [|destruct (isBlobUrl img) eqn:Hb].
    - destruct (storageUpload r img _ _) as [newUrl|] eqn:Hs; cbn [fst snd].
      + split; [done|]. split; [by right|]. split; [done|]. split; [done|].
        split; [intros; exfalso; auto|done].
      + split; [done|]. repeat split; auto.
    - destruct (storageUpload r img _ _) as [newUrl|] eqn:Hs; cbn [fst snd].
      + split; [done|]. split; [by right|]. split; [done|]. split; [done|].
        split; [intros; exfalso; auto|done].
      + split; [done|]. repeat split; auto.
    - cbn [fst snd]. split; [done|]. repeat split; auto. }
  split; [done|]. intros i img Hi. destruct (Hq i img Hi) as (out & Hout & HQ).
  exists out. split; [done|]. exact HQ.
Qed.

End CloudRoundTripFacts.

(** ** The sign-in effect and the debounced effects *)

Module SignInFacts.

Import CreatePage CloudStorage CloudSync CloudStorageFacts MergeFacts SyncFacts Examples.

Lemma dedupe_elem (xs : list string) (x : string) : x ∈ dedupe xs ↔ x ∈ xs.
Proof.
  unfold dedupe.
  assert (∀ acc, x ∈ foldl (fun (acc : list string) y =>
                              if decide (y ∈ acc) then acc else acc ++ [y]) acc xs ↔
                 x ∈ acc ∨ x ∈ xs) as H.
  { induction xs as [|y xs IH]; intros acc; cbn [foldl].
    - split; [by left|]. by intros [?|?%elem_of_nil].
    - rewrite IH. destruct (decide (y ∈ acc)) as [Hy|Hy].
      + rewrite elem_of_cons. split; [intros [?|?]; auto|].
        intros [?|[->|?]]; auto.
      + rewrite elem_of_app, list_elem_of_singleton, elem_of_cons. tauto. }
  rewrite H. split; [by intros [?%elem_of_nil|?]|by right].
Qed.

Lemma saveGenerationsWithImages_session (gens : list Generation) (up : bool) (r : Remote) :
  sessionUser (saveGenerationsWithImages gens up r).2 = sessionUser r.
Proof.
  rewrite saveGenerationsWithImages_eq. destruct (sessionUser r) eqn:Hu; [|done].
  cbn zeta. by destruct (requestFails r (requests r)).
Qed.

Lemma saveFavoritesToCloud_session (favs : gset string) (r : Remote) :
  sessionUser (saveFavoritesToCloud favs r).2 = sessionUser r.
Proof.
  rewrite saveFavoritesToCloud_eq. destruct (sessionUser r) eqn:Hu; [|done].
  cbn zeta. destruct (Nat.ltb 0 _).
  - destruct (requestFails r (S (requests r)));
      by destruct (requestFails r (requests r)).
  - by destruct (requestFails r (requests r)).
Qed.

(** [loadCloud] leaves the component's records and favourites and the
    hook's refs, but for the image setting. *)
Lemma loadCloud_frame (h : Hook) :
  favorites (app (loadCloud h).2) = favorites (app h) ∧
  prevUserIdRef (refs (loadCloud h).2) = prevUserIdRef (refs h) ∧
  syncInProgressRef (refs (loadCloud h).2) = syncInProgressRef (refs h) ∧
  initialSyncDoneRef (refs (loadCloud h).2) = initialSyncDoneRef (refs h) ∧
  lastSyncedGenerationsRef (refs (loadCloud h).2) = lastSyncedGenerationsRef (refs h) ∧
  lastSyncedFavoritesRef (refs (loadCloud h).2) = lastSyncedFavoritesRef (refs h).
Proof.
  unfold loadCloud, bindE, bind, liftRemote.
  destruct (loadSettingsFromCloud (remote h)) as [[cs|] r1]; [|done].
  set (h1 := (match cs with
              | Some value => modify (handleSetSyncImages value)
              | None => ret (Some ())
              end {| app := app h; refs := refs h; remote := r1 |})).
  assert (h1.1 = Some tt ∧ favorites (app h1.2) = favorites (app h) ∧
          prevUserIdRef (refs h1.2) = prevUserIdRef (refs h) ∧
          syncInProgressRef (refs h1.2) = syncInProgressRef (refs h) ∧
          initialSyncDoneRef (refs h1.2) = initialSyncDoneRef (refs h) ∧
          lastSyncedGenerationsRef (refs h1.2) = lastSyncedGenerationsRef (refs h) ∧
          lastSyncedFavoritesRef (refs h1.2) = lastSyncedFavoritesRef (refs h))
    as (Hres & Hrest).
  { subst h1. by destruct cs. }
  destruct h1 as [o h1']. cbn [fst snd] in *. subst o.
  destruct (loadGenerationsFromCloud (remote h1')) as [lg r2]. cbn [remote].
  destruct (loadFavoritesFromCloud r2) as [lf r3].
  destruct lg, lf; cbn [ret fst snd app refs]; exact Hrest.
Qed.

Lemma uploadLocalOnly_frame (gens : list Generation) (favs : gset string) (up : bool)
    (cg : list Generation) (cf : gset string) (h : Hook) :
  refs (uploadLocalOnly gens favs up cg cf h).2 = refs h ∧
  sessionUser (remote (uploadLocalOnly gens favs up cg cf h).2) = sessionUser (remote h).
Proof.
  unfold uploadLocalOnly, bindE, when.
  destruct (Nat.ltb 0 (length _)).
  - pose proof (liftRemote_app (saveGenerationsWithImages
        (filter (fun g => id g ∉ (list_to_set (map id cg) : gset string)) gens) up) h)
      as (_ & Hr & Hm & _).
    pose proof (saveGenerationsWithImages_session
        (filter (fun g => id g ∉ (list_to_set (map id cg) : gset string)) gens) up
        (remote h)) as Hs.
    destruct (liftRemote _ h) as [[[]|] h1]; cbn [snd] in *;
      [|split; [done|by rewrite Hm]].
    destruct (Nat.ltb 0 (size _)); [|cbn [ret snd]; split; [done|by rewrite Hm]].
    pose proof (liftRemote_app (saveFavoritesToCloud (cf ∪ favs)) h1) as (_ & Hr' & Hm' & _).
    pose proof (saveFavoritesToCloud_session (cf ∪ favs) (remote h1)) as Hs'.
    destruct (liftRemote _ h1) as [o h2]. cbn [snd] in *. split; congruence.
  - cbn [ret]. destruct (Nat.ltb 0 (size _)); [|done].
    pose proof (liftRemote_app (saveFavoritesToCloud (cf ∪ favs)) h) as (_ & Hr' & Hm' & _).
    pose proof (saveFavoritesToCloud_session (cf ∪ favs) (remote h)) as Hs'.
    destruct (liftRemote _ h) as [o h2]. cbn [snd] in *. split; congruence.
Qed.

(** The merge has been made: the state [h'] holds the records and the
    favourites of [h] merged with the cloud's, and the snapshots cover
    them. *)
Definition mergedFrom (h h' : Hook) : Prop :=
  ∃ (cloudGenerations : list Generation) (cloudFavorites : gset string),
    generations (app h') =
      mergeCloudGenerations (dateGetTime (app h))
        (filter (fun g => id g ∉ (list_to_set (map id (generations (app h))) : gset string))
                cloudGenerations)
        (generations (app h)) ∧
    favorites (app h') = favorites (app h) ∪ cloudFavorites ∧
    lastSyncedGenerationsRef (refs h') =
      KeyJson (arraySort compareStrings
                 (dedupe (map id cloudGenerations ++ map id (generations (app h))))) ∧
    lastSyncedFavoritesRef (refs h') =
      KeyJson (arraySort compareStrings (elements (cloudFavorites ∪ favorites (app h)))) ∧
    initialSyncDoneRef (refs h') = true.

Lemma mergeCloudIntoLocal_favorites (gens : list Generation) (favs : gset string)
    (cg : list Generation) (cf : gset string) (h : Hook) :
  favorites (app (mergeCloudIntoLocal gens favs cg cf h)) = favorites (app h) ∪ cf.
Proof.
  unfold mergeCloudIntoLocal. cbn zeta.
  destruct (Nat.ltb 0 (size cf)) eqn:E.
  - by destruct (Nat.ltb 0 (length _)).
  - apply Nat.ltb_ge in E. assert (cf = ∅) as ->.
    { apply leibniz_equiv, size_empty_iff. lia. }
    rewrite (right_id_L ∅ (∪)). by destruct (Nat.ltb 0 (length _)).
Qed.

(** [syncWithCloud] either gives up, leaving the done flag and the
    snapshots as they were, or makes the merge. *)
Lemma syncWithCloud_cases (h : Hook) :
  sessionUser (remote (syncWithCloud h)) = sessionUser (remote h) ∧
  prevUserIdRef (refs (syncWithCloud h)) = prevUserIdRef (refs h) ∧
  syncInProgressRef (refs (syncWithCloud h)) = false ∧
  ((initialSyncDoneRef (refs (syncWithCloud h)) = initialSyncDoneRef (refs h) ∧
    lastSyncedGenerationsRef (refs (syncWithCloud h)) = lastSyncedGenerationsRef (refs h) ∧
    lastSyncedFavoritesRef (refs (syncWithCloud h)) = lastSyncedFavoritesRef (refs h)) ∨
   mergedFrom h (syncWithCloud h)).
Proof.
  unfold syncWithCloud, syncWithCloudBody, bindE, modify.
  pose proof (loadCloud_spec (setSyncInProgress true h)) as (Hg & Hd & (Hs & _) & _).
  pose proof (loadCloud_frame (setSyncInProgress true h)) as (Hf & Hp & _ & Hi & Hlg & Hlf).
  destruct (loadCloud (setSyncInProgress true h)) as [[[cg cf]|] h1];
    cbn [fst snd] in *;
    cbn [setSyncInProgress setRefs refs remote app syncInProgressRef initialSyncDoneRef
         lastSyncedGenerationsRef lastSyncedFavoritesRef prevUserIdRef] in *.
  2: { split; [done|]. split; [done|]. split; [done|]. by left. }
  pose proof (uploadLocalOnly_app (generations (app h)) (favorites (app h))
                (syncImages (refs h)) cg cf h1) as Ha.
  pose proof (uploadLocalOnly_frame (generations (app h)) (favorites (app h))
                (syncImages (refs h)) cg cf h1) as [Hr Hs'].
  destruct (uploadLocalOnly _ _ _ cg cf h1) as [[[]|] h2]; cbn [fst snd] in *.
  - cbn [setSyncInProgress setRefs remote refs app syncInProgressRef prevUserIdRef
         initialSyncDoneRef lastSyncedGenerationsRef lastSyncedFavoritesRef].
    split; [|split; [|split; [done|]]].
    + assert (remote (mergeCloudIntoLocal (generations (app h)) (favorites (app h)) cg cf h2)
              = remote h2) as ->.
      { unfold mergeCloudIntoLocal. cbn zeta.
        by destruct (Nat.ltb 0 (length _)), (Nat.ltb 0 (size cf)). }
      congruence.
    + assert (prevUserIdRef (refs (mergeCloudIntoLocal (generations (app h))
                (favorites (app h)) cg cf h2)) = prevUserIdRef (refs h2)) as ->.
      { unfold mergeCloudIntoLocal. cbn zeta.
        by destruct (Nat.ltb 0 (length _)), (Nat.ltb 0 (size cf)). }
      rewrite Hr. exact Hp.
    + right. exists cg, cf.
      cbn [setSyncInProgress setRefs remote refs app syncInProgressRef prevUserIdRef
           initialSyncDoneRef lastSyncedGenerationsRef lastSyncedFavoritesRef].
      split; [|split; [|split; [|split]]].
      * rewrite mergeCloudIntoLocal_generations. by rewrite Ha, Hd, Hg.
      * rewrite mergeCloudIntoLocal_favorites. by rewrite Ha, Hf.
      * unfold mergeCloudIntoLocal. cbn zeta.
        by destruct (Nat.ltb 0 (length _)), (Nat.ltb 0 (size cf)).
      * unfold mergeCloudIntoLocal. cbn zeta.
        by destruct (Nat.ltb 0 (length _)), (Nat.ltb 0 (size cf)).
      * unfold mergeCloudIntoLocal. cbn zeta.
        by destruct (Nat.ltb 0 (length _)), (Nat.ltb 0 (size cf)).
  - cbn [setSyncInProgress setRefs remote refs app syncInProgressRef prevUserIdRef
         initialSyncDoneRef lastSyncedGenerationsRef lastSyncedFavoritesRef].
    rewrite Hr. split; [congruence|]. split; [done|]. split; [done|]. by left.
Qed.

Lemma signInEffect_refs (h : Hook) :
  sessionUser (remote (signInEffect h)) = sessionUser (remote h) ∧
  prevUserIdRef (refs (signInEffect h)) = sessionUser (remote h).
Proof.
  unfold signInEffect.
  destruct (sessionUser (remote h)) as [u|] eqn:Hu, (prevUserIdRef (refs h)) as [p|];
    cbn [setPrevUserId setRefs remote refs prevUserIdRef setLastSyncedFavorites
         setLastSyncedGenerations setInitialSyncDone]; try done.
  destruct (initialSyncDoneRef (refs h)); [done|].
  split; [|done]. rewrite <- Hu. apply syncWithCloud_cases.
Qed.

(** The sign-in effect runs the merge once per session: applied to its own
    result it changes nothing; on a sign-out it leaves the component state
    and the remote and resets the done flag and both snapshots, so that
    the next sign-in merges again; and once the merge is done it leaves the
    component state and the remote while the user stays signed in. *)
Theorem signInEffect_once (h : Hook) :
  signInEffect (signInEffect h) = signInEffect h ∧
  (sessionUser (remote h) = None → prevUserIdRef (refs h) ≠ None →
   app (signInEffect h) = app h ∧ remote (signInEffect h) = remote h ∧
   prevUserIdRef (refs (signInEffect h)) = None ∧
   initialSyncDoneRef (refs (signInEffect h)) = false ∧
   lastSyncedGenerationsRef (refs (signInEffect h)) = KeyEmpty ∧
   lastSyncedFavoritesRef (refs (signInEffect h)) = KeyEmpty) ∧
  (initialSyncDoneRef (refs h) = true → sessionUser (remote h) ≠ None →
   app (signInEffect h) = app h ∧ remote (signInEffect h) = remote h).
Proof.
  split; [|split].
  - destruct (signInEffect_refs h) as [Hs Hp].
    unfold signInEffect at 1. rewrite Hs, Hp.
    assert (Hsame : (match sessionUser (remote h), sessionUser (remote h) with
                     | None, Some _ =>
                         setLastSyncedFavorites KeyEmpty
                           (setLastSyncedGenerations KeyEmpty
                              (setInitialSyncDone false (signInEffect h)))
                     | _, _ => signInEffect h
                     end) = signInEffect h)
      by (by destruct (sessionUser (remote h))).
    assert (Hfirst : (match sessionUser (remote h), sessionUser (remote h) with
                      | Some _, None =>
                          if initialSyncDoneRef (refs (signInEffect h))
                          then signInEffect h else syncWithCloud (signInEffect h)
                      | _, _ => signInEffect h
                      end) = signInEffect h)
      by (by destruct (sessionUser (remote h))).
    rewrite Hfirst, Hsame. unfold setPrevUserId, setRefs. rewrite <- Hp.
    by destruct (signInEffect h) as [a [] r].
  - intros Hu Hp. unfold signInEffect. rewrite Hu.
    by destruct (prevUserIdRef (refs h)).
  - intros Hi Hu. unfold signInEffect. rewrite Hi.
    by destruct (sessionUser (remote h)), (prevUserIdRef (refs h)).
Qed.

Lemma merged_ids (getTime : string → option Z) (cloud local : list Generation) (g : Generation) :
  g ∈ mergeCloudGenerations getTime
        (filter (fun g => id g ∉ (list_to_set (map id local) : gset string)) cloud) local →
  id g ∈ map id cloud ++ map id local.
Proof.
  rewrite mergeCloudGenerations_perm.
  intros [Hl|[_ [_ Hc]%list_elem_of_filter]%list_elem_of_filter]%elem_of_app;
    apply elem_of_app; [right|left]; by apply list_elem_of_fmap_2.
Qed.

Lemma syncGenerations_app (gens : list Generation) (key : SyncKey) (up : bool) (h : Hook) :
  app (syncGenerations gens key up h) = app h.
Proof.
  rewrite syncGenerations_eq. cbn zeta. destruct (Nat.ltb 0 _); [|done].
  by destruct (saveGenerationsWithImages _ _ _).1.
Qed.

Lemma syncGenerations_nothing_new (gens : list Generation) (key : SyncKey) (up : bool)
    (h : Hook) :
  newGenerations (lastSyncedGenerationsRef (refs h)) gens = [] →
  remote (syncGenerations gens key up h) = remote h.
Proof. intros E. rewrite syncGenerations_eq. cbn zeta. by rewrite E. Qed.

(** What the merge brought is not uploaded again. After the sign-in effect
    of a session that was signed out, either the merge was given up and
    the done flag is off, or the merge was made; in both cases a firing of
    the generations effect leaves the component state and sends nothing to
    the remote, and a firing of the favourites effect changes nothing. *)
Theorem signIn_then_debounced_effects (h : Hook) :
  prevUserIdRef (refs h) = None →
  initialSyncDoneRef (refs h) = false →
  let h' := signInEffect h in
  (initialSyncDoneRef (refs h') = false ∨ mergedFrom h h') ∧
  app (generationsEffect h') = app h' ∧
  remote (generationsEffect h') = remote h' ∧
  favoritesEffect h' = h'.
Proof.
  intros Hp Hi h'. unfold h', signInEffect. rewrite Hp, Hi.
  destruct (sessionUser (remote h)) as [u|] eqn:Hu.
  2: { unfold generationsEffect, favoritesEffect.
       cbn [setPrevUserId setRefs remote refs app initialSyncDoneRef].
       rewrite Hu, Hi. by split; [left|]. }
  destruct (syncWithCloud_cases h) as (Hs & _ & Hprog & Hcases).
  rewrite Hu in Hs.
  unfold generationsEffect, favoritesEffect.
  cbn [setPrevUserId setRefs remote refs app initialSyncDoneRef syncInProgressRef
       lastSyncedGenerationsRef lastSyncedFavoritesRef].
  rewrite Hs, Hprog.
  destruct Hcases as [(Hinit & _ & _)|Hmerged].
  { rewrite Hinit, Hi. cbn [negb orb]. by split; [left|]. }
  split; [by right|].
  destruct Hmerged as (cg & cf & Hgens & Hfavs & Hlg & Hlf & Hinit).
  rewrite Hinit. cbn [negb orb].
  split; [|split].
  - destruct (decide _); [done|]. by rewrite syncGenerations_app.
  - destruct (decide _); [done|]. rewrite syncGenerations_nothing_new; [done|].
    cbn [setPrevUserId setRefs remote refs app lastSyncedGenerationsRef].
    apply filter_none. intros g Hg Hnot. apply Hnot. rewrite Hlg. cbn [parseKey].
    apply elem_of_list_to_set. rewrite arraySort_perm. apply dedupe_elem.
    rewrite Hgens in Hg. by eapply merged_ids.
  - rewrite Hlf, Hfavs.
    rewrite decide_True; [done|].
    unfold favoritesKey. by rewrite (comm_L (∪) (favorites (app h)) cf).
Qed.

Lemma signIn_then_debounced_effects_witness :
  remote (generationsEffect (signInEffect signingInHook)) =
    remote (signInEffect signingInHook) ∧
  favoritesEffect (signInEffect signingInHook) = signInEffect signingInHook.
Proof.
  destruct (signIn_then_debounced_effects signingInHook eq_refl eq_refl)
    as (_ & _ & Hr & Hf).
  by split.
Defined.

End SignInFacts.

(** ** Storage: the pending records *)

Module PendingFacts.

Import Storage StorageFacts StoreEvolution PersistFacts HydrateFacts RoundTripFacts Examples.

(** Every "img:" key of the store holds a payload. *)
Definition blobsOnly (w : World) : Prop :=
  ∀ key v, Js.startsWith key "img:" = true → store w !! key = Some v → ∃ b, v = VBlob b.

(** [w'] extends [w] and holds payloads only under its "img:" keys when
    [w] does. *)
Definition grows (w w' : World) : Prop :=
  extends w w' ∧ (blobsOnly w → blobsOnly w').

#[global] Instance grows_refl : Reflexive grows.
Proof. intros w. by split. Qed.

#[global] Instance grows_trans : Transitive grows.
Proof. intros w1 w2 w3 [E1 B1] [E2 B2]. split; [by transitivity w2|auto]. Qed.

Lemma setItem_blob_blobsOnly (key : string) (b : Blob) (w : World) :
  blobsOnly w → blobsOnly (setItem key (VBlob b) w).2.
Proof.
  intros Hw. unfold setItem. destruct (setItemFails w key); [done|].
  intros k v Hk. cbn [snd setStore store].
  destruct (decide (key = k)) as [->|Hne].
  - rewrite lookup_insert_eq. intros [= <-]. by exists b.
  - rewrite lookup_insert_ne by done. by apply Hw.
Qed.

Lemma setItem_document_blobsOnly (key : string) (v : StoreValue) (w : World) :
  Js.startsWith key "img:" = false → blobsOnly w → blobsOnly (setItem key v w).2.
Proof.
  intros Hkey Hw. unfold setItem. destruct (setItemFails w key); [done|].
  intros k v' Hk. cbn [snd setStore store].
  rewrite lookup_insert_ne by congruence. by apply Hw.
Qed.

Lemma persistInput_blobsOnly (gen : Generation) (inp : InputImage) (w : World) :
  blobsOnly w → blobsOnly (persistInput gen inp w).2.
Proof.
  intros Hw. unfold persistInput.
  destruct (negb (Js.truthy (ii_url inp))); [done|].
  destruct (isRef (ii_url inp)); [done|].
  destruct (Js.startsWith (ii_url inp) "blob:"); [done|].
  unfold bind, urlToBlob. destruct (fetchBlob w (ii_url inp)) as [b|]; [|done].
  pose proof (setItem_blob_blobsOnly
                (getImageKey (id gen) 0 Input (Some (ii_id inp))) b w Hw) as H.
  by destruct (setItem _ (VBlob b) w) as [[] w1].
Qed.

(** Every raw input image of the records can be fetched. *)
Definition inputsFetchable (w : World) (gens : list Generation) : Prop :=
  ∀ gen inp, gen ∈ gens → inp ∈ inputImages gen → needsFetch (ii_url inp) = true →
    is_Some (fetchBlob w (ii_url inp)).

(** The saved pending record [p] is the record [gen] with its input
    images dehydrated and its output slots as they were. *)
Definition pendingSavedAs (w : World) (gen p : Generation) : Prop :=
  sameMetadata gen p ∧
  images p = images gen ∧
  length (inputImages p) = length (inputImages gen) ∧
  (∀ k inp, inputImages gen !! k = Some inp →
     ∃ inp', inputImages p !! k = Some inp' ∧
             inp' = withUrl inp (ii_url inp') ∧
             dehydrated (getImageKey (id gen) 0 Input (Some (ii_id inp)))
                        (ii_url inp) (ii_url inp') w).

Lemma pendingSavedAs_stable (gen p : Generation) (w w' : World) :
  pendingSavedAs w gen p → grows w w' → pendingSavedAs w' gen p.
Proof.
  intros (Hm & Hi & Hl & Hq) [He _]. split; [done|]. split; [done|]. split; [done|].
  intros k inp Hk. destruct (Hq k inp Hk) as (inp' & ? & ? & ?).
  exists inp'. split; [done|]. split; [done|]. by eapply dehydrated_stable.
Qed.

Lemma savePendingOne_step (w0 : World) (gen : Generation) (w : World) :
  (∀ key, setItemFails w0 key = false) →
  (∀ inp, inp ∈ inputImages gen → needsFetch (ii_url inp) = true →
     is_Some (fetchBlob w0 (ii_url inp))) →
  grows w0 w →
  grows w (savePendingOne gen w).2 ∧
  pendingSavedAs (savePendingOne gen w).2 gen (savePendingOne gen w).1.
Proof.
  intros Hwrite Hfetch Hgrows. unfold savePendingOne, bind, mapAll.
  pose proof (mapIndexed_inv grows
    (fun (_ : nat) inp inp' w =>
       inp' = withUrl inp (ii_url inp') ∧
       dehydrated (getImageKey (id gen) 0 Input (Some (ii_id inp)))
                  (ii_url inp) (ii_url inp') w)
    (fun _ => persistInput gen) w0 (inputImages gen)) as H.
  destruct H with (n := 0) (w := w) as (Hg & Hl & Hq); [| |done|].
  { intros n a b wa wb [? ?] [? _]. split; [done|]. by eapply dehydrated_stable. }
  { apply Forall_forall. intros inp Hin n w1 [Hw1 Hb1].
    destruct (persistInput_step w0 Hwrite gen inp w1) as (?&?&?); [auto|done|].
    split; [|done]. split; [done|]. intros Hb. by apply persistInput_blobsOnly. }
  clear H. destruct (mapIndexed _ 0 (inputImages gen) w) as [inps w1].
  cbn [ret fst snd] in *. split; [done|].
  unfold pendingSavedAs. cbn [withImages images inputImages id].
  split; [by repeat split|]. split; [done|]. split; [done|].
  intros k inp Hk. destruct (Hq k inp Hk) as (inp' & ? & ? & ?). by exists inp'.
Qed.

(** The run of [savePending] when every write goes through and every raw
    input image can be fetched. *)
Lemma savePending_run (pending : list Generation) (w : World) :
  (∀ key, setItemFails w key = false) →
  inputsFetchable w pending →
  ∃ ps w',
    savePending pending w = (true, w') ∧ grows w w' ∧
    store w' !! PENDING_KEY = Some (VGenerations ps) ∧
    length ps = length pending ∧
    ∀ j gen, pending !! j = Some gen → ∃ p, ps !! j = Some p ∧ pendingSavedAs w' gen p.
Proof.
  intros Hwrite Hfetch. unfold savePending, bind, mapAll.
  pose proof (mapIndexed_inv grows
    (fun (_ : nat) gen p w => pendingSavedAs w gen p)
    (fun _ => savePendingOne) w pending) as H.
  destruct H with (n := 0) (w := w) as (Hg & Hlen & Hq); [| |reflexivity|].
  { intros _ gen p wa wb. apply pendingSavedAs_stable. }
  { apply Forall_forall. intros gen Hin n w1 Hw1.
    apply (savePendingOne_step w); [done| |done]. intros inp. by apply Hfetch. }
  clear H. destruct (mapIndexed _ 0 pending w) as [ps w1]. cbn [fst snd] in *.
  pose proof (setItem_document_extends PENDING_KEY (VGenerations ps) w1 eq_refl) as He'.
  pose proof (setItem_document_blobsOnly PENDING_KEY (VGenerations ps) w1 eq_refl) as Hb'.
  unfold setItem in *.
  assert (HS : setItemFails w1 = setItemFails w) by apply Hg.
  rewrite HS, Hwrite in *. cbn [snd] in He', Hb'.
  assert (Hg' : grows w1 (setStore w1 (<[PENDING_KEY:=VGenerations ps]> (store w1))))
    by done.
  eexists ps, _. split; [done|]. split; [by transitivity w1|].
  split; [apply lookup_insert_eq|]. split; [done|].
  intros j gen Hj. destruct (Hq j gen Hj) as (p & Hp & Hpa).
  exists p. split; [done|]. by eapply pendingSavedAs_stable.
Qed.

(** The store is the same and the registered handles are registered
    still. *)
Definition registers (w w' : World) : Prop :=
  store w' = store w ∧ ∀ p, p ∈ objectURLs w → p ∈ objectURLs w'.

#[global] Instance registers_refl : Reflexive registers.
Proof. intros w. by split. Qed.

#[global] Instance registers_trans : Transitive registers.
Proof. intros w1 w2 w3 [S1 U1] [S2 U2]. split; [congruence|auto]. Qed.

(** What [loadPending] makes of the url of an input image, read from the
    store of [w0], as seen from the later world [w]. *)
Definition loadedField (w0 : World) (url url' : string) (w : World) : Prop :=
  if isRef url then
    (isBlob w0 (getRefKey url) → ∃ b, (url', b) ∈ objectURLs w) ∧
    (store w0 !! getRefKey url = None → url' = url)
  else url' = url.

Lemma loadedField_stable (w0 : World) (url url' : string) (w w' : World) :
  loadedField w0 url url' w → registers w w' → loadedField w0 url url' w'.
Proof.
  unfold loadedField. intros H [_ HU]. destruct (isRef url); [|done].
  destruct H as [H1 H2]. split; [|done]. intros Hb. destruct (H1 Hb) as [b ?].
  exists b. auto.
Qed.

Lemma loadPendingInput_step (w0 : World) (inp : InputImage) (w : World) :
  blobsOnly w0 → registers w0 w →
  registers w (loadPendingInput inp w).2 ∧
  ∃ inp', (loadPendingInput inp w).1 = Some inp' ∧
          inp' = withUrl inp (ii_url inp') ∧
          loadedField w0 (ii_url inp) (ii_url inp') (loadPendingInput inp w).2.
Proof.
  intros Hblobs [Hstore Hurls]. unfold loadPendingInput, loadedField.
  destruct (isRef (ii_url inp)) eqn:Hr.
  2: { cbn [ret fst snd]. split; [reflexivity|]. exists inp. by destruct inp. }
  assert (Hkey : Js.startsWith (getRefKey (ii_url inp)) "img:" = true)
    by (by apply getRefKey_isRef).
  unfold bind, getItem. rewrite Hstore.
  destruct (store w0 !! getRefKey (ii_url inp)) as [v|] eqn:Hv.
  - destruct (Hblobs _ _ Hkey Hv) as [b ->].
    unfold createObjectURL. cbn [ret fst snd setObjectURLs store objectURLs].
    split; [split; [done|]|].
    + intros p Hp. apply elem_of_app. by left.
    + eexists. split; [done|]. cbn [withUrl ii_url]. split; [done|]. split; [|done].
      intros _. exists b. apply elem_of_app. right. left.
  - cbn [ret fst snd]. split; [reflexivity|]. exists inp. split; [done|].
    split; [by destruct inp|]. split; [|done]. intros [b Hb]. congruence.
Qed.

Lemma allSome_all {A} (ys : list (option A)) :
  (∀ y, y ∈ ys → is_Some y) → ∃ zs, allSome ys = Some zs ∧ ys = map Some zs.
Proof.
  unfold allSome. induction ys as [|y ys IH]; intros Hall.
  - by exists [].
  - destruct (Hall y) as [z ->]; [left|].
    destruct IH as (zs & Hzs & ->); [intros y' Hy'; apply Hall; by right|].
    exists (z :: zs). cbn. rewrite Hzs. done.
Qed.

(** The loaded pending record [h] is the stored record [p] with its input
    images hydrated. *)
Definition pendingLoadedAs (w0 w : World) (p : Generation) (res : option Generation) : Prop :=
  ∃ h, res = Some h ∧ sameMetadata p h ∧ images h = images p ∧
    length (inputImages h) = length (inputImages p) ∧
    ∀ k inp, inputImages p !! k = Some inp →
      ∃ inp', inputImages h !! k = Some inp' ∧
              inp' = withUrl inp (ii_url inp') ∧
              loadedField w0 (ii_url inp) (ii_url inp') w.

Lemma pendingLoadedAs_stable (w0 : World) (p : Generation) (res : option Generation)
    (w w' : World) :
  pendingLoadedAs w0 w p res → registers w w' → pendingLoadedAs w0 w' p res.
Proof.
  intros (h & Hres & Hm & Hi & Hl & Hq) Hreg. exists h. do 4 (split; [done|]).
  intros k inp Hk. destruct (Hq k inp Hk) as (inp' & ? & ? & ?).
  exists inp'. split; [done|]. split; [done|]. by eapply loadedField_stable.
Qed.

Lemma loadPendingOne_step (w0 : World) (p : Generation) (w : World) :
  blobsOnly w0 → registers w0 w →
  registers w (loadPendingOne p w).2 ∧
  pendingLoadedAs w0 (loadPendingOne p w).2 p (loadPendingOne p w).1.
Proof.
  intros Hblobs Hreg. unfold loadPendingOne, bind, mapAll.
  pose proof (mapIndexed_inv registers
    (fun (_ : nat) inp res w =>
       ∃ inp', res = Some inp' ∧ inp' = withUrl inp (ii_url inp') ∧
               loadedField w0 (ii_url inp) (ii_url inp') w)
    (fun _ => loadPendingInput) w0 (inputImages p)) as H.
  destruct H with (n := 0) (w := w) as (Hg & Hl & Hq); [| |done|].
  { intros n a b wa wb (inp' & ? & ? & ?) ?. exists inp'.
    split; [done|]. split; [done|]. by eapply loadedField_stable. }
  { apply Forall_forall. intros inp _ n w1 Hw1. by apply loadPendingInput_step. }
  clear H. destruct (mapIndexed _ 0 (inputImages p) w) as [results w1].
  cbn [ret fst snd] in *. split; [done|].
  destruct (allSome_all results) as (inps & Hall & ->).
  { intros y [k Hk]%list_elem_of_lookup.
    destruct (lookup_lt_is_Some_2 (inputImages p) k) as [inp Hinp].
    { rewrite <- Hl. by eapply lookup_lt_Some. }
    destruct (Hq k inp Hinp) as (res & Hres & inp' & -> & _). 
    assert (y = Some inp') as -> by congruence. by eexists. }
  rewrite Hall. cbn [fmap option_fmap option_map].
  eexists. split; [done|]. cbn [withImages images inputImages id].
  split; [by repeat split|]. split; [done|].
  rewrite length_map in Hl. split; [done|].
  intros k inp Hk. destruct (Hq k inp Hk) as (res & Hres & inp' & -> & Hshape & Hf).
  rewrite list_lookup_fmap in Hres. exists inp'.
  destruct (inps !! k) as [x|]; [|done]. cbn in Hres. injection Hres as ->. done.
Qed.

(** The run of [loadPending] on a stored pending document. *)
Lemma loadPending_run (ps : list Generation) (w : World) :
  blobsOnly w →
  store w !! PENDING_KEY = Some (VGenerations ps) →
  ∃ hs w',
    loadPending w = (Some hs, w') ∧ registers w w' ∧
    length hs = length ps ∧
    ∀ j p, ps !! j = Some p → pendingLoadedAs w w' p (hs !! j).
Proof.
  intros Hblobs Hdoc. unfold loadPending, bind at 1, getItem. rewrite Hdoc.
  unfold bind, mapAll.
  pose proof (mapIndexed_inv registers
    (fun (_ : nat) p res w' => pendingLoadedAs w w' p res)
    (fun _ => loadPendingOne) w ps) as H.
  destruct H with (n := 0) (w := w) as (Hg & Hlen & Hq); [| |reflexivity|].
  { intros _ p res wa wb. apply pendingLoadedAs_stable. }
  { apply Forall_forall. intros p _ n w1 Hw1. by apply loadPendingOne_step. }
  clear H. destruct (mapIndexed _ 0 ps w) as [results w']. cbn [ret fst snd] in *.
  destruct (allSome_all results) as (hs & Hall & ->).
  { intros y [k Hk]%list_elem_of_lookup.
    destruct (lookup_lt_is_Some_2 ps k) as [p Hp].
    { rewrite <- Hlen. by eapply lookup_lt_Some. }
    destruct (Hq k p Hp) as (res & Hres & h & -> & _).
    assert (y = Some h) as -> by congruence. by eexists. }
  rewrite Hall. exists hs, w'. split; [done|]. split; [done|].
  rewrite length_map in Hlen. split; [done|].
  intros j p Hj. destruct (Hq j p Hj) as (res & Hres & Hloaded).
  rewrite list_lookup_fmap in Hres.
  destruct (hs !! j) as [h|]; [|done]. cbn in Hres. by injection Hres as <-.
Qed.

(** The pending records survive a save and a load. When every write goes
    through, every raw input image can be fetched and the "img:" keys of the
    store hold payloads, [savePending] succeeds and [loadPending] on the
    store it leaves returns, without changing the store, one record per
    record, in order, with the same metadata and with the output slots as
    they were given to [savePending]; an input image comes back with its
    other fields, with the empty url when its url was empty and with a
    registered [blob:] handle when its url was raw. *)
Theorem pending_save_load (pending : list Generation) (w : World) :
  (∀ key, setItemFails w key = false) →
  inputsFetchable w pending →
  blobsOnly w →
  ∃ w1 hs w2,
    savePending pending w = (true, w1) ∧
    loadPending w1 = (Some hs, w2) ∧
    store w2 = store w1 ∧
    length hs = length pending ∧
    ∀ j gen, pending !! j = Some gen →
      ∃ h, hs !! j = Some h ∧ sameMetadata gen h ∧
        images h = images gen ∧
        length (inputImages h) = length (inputImages gen) ∧
        ∀ k inp, inputImages gen !! k = Some inp →
          ∃ url, inputImages h !! k = Some (withUrl inp url) ∧
            (ii_url inp = "" → url = "") ∧
            (needsFetch (ii_url inp) = true → ∃ b, (url, b) ∈ objectURLs w2).
Proof.
  intros Hwrite Hfetch Hblobs.
  destruct (savePending_run pending w Hwrite Hfetch)
    as (ps & w1 & Hrun1 & [He1 Hb1] & Hdoc & Hlen1 & Hps).
  destruct (loadPending_run ps w1 (Hb1 Hblobs) Hdoc)
    as (hs & w2 & Hrun2 & [Hstore _] & Hlen2 & Hhs).
  exists w1, hs, w2. split; [done|]. split; [done|]. split; [done|].
  split; [congruence|].
  intros j gen Hj. destruct (Hps j gen Hj) as (p & Hp & Hm1 & Hi1 & Hl1 & Hq1).
  destruct (Hhs j p Hp) as (h & Hh & Hm2 & Hi2 & Hl2 & Hq2).
  exists h. split; [done|]. split.
  { destruct Hm1 as (?&?&?&?&?&?&?&?&?), Hm2 as (?&?&?&?&?&?&?&?&?).
    repeat split; congruence. }
  split; [congruence|]. split; [congruence|].
  intros k inp Hk. destruct (Hq1 k inp Hk) as (inp' & Hk' & Hshape & Hd).
  destruct (Hq2 k inp' Hk') as (inp'' & Hk'' & Hshape' & Hf).
  exists (ii_url inp''). split.
  { rewrite Hk'', Hshape' at 1. f_equal. rewrite Hshape. by destruct inp. }
  unfold dehydrated in Hd. unfold loadedField in Hf. split.
  - intros Hempty. rewrite Hempty in Hd. cbn in Hd. rewrite Hd in Hf. by cbn in Hf.
  - intros (Ht & Hr & Hb)%needsFetch_inv. rewrite Ht, Hr in Hd.
    destruct Hd as [Hurl Hblob]. rewrite Hurl in Hf.
    rewrite isRef_makeRef_getImageKey, getRefKey_makeRef in Hf. apply Hf. by apply Hblob.
Qed.

Lemma pending_save_load_witness :
  ∃ w1 hs w2,
    savePending [rawRecord] onlineWorld = (true, w1) ∧
    loadPending w1 = (Some hs, w2) ∧
    map images hs = [["data:image/png;base64,AAAA"; ""]].
Proof.
  destruct (pending_save_load [rawRecord] onlineWorld (fun _ => eq_refl))
    as (w1 & hs & w2 & H1 & H2 & _ & Hlen & Hrec).
  - intros gen inp _ _ _. by eexists.
  - intros key v _ Hv. unfold onlineWorld in Hv. cbn [store] in Hv.
    by rewrite lookup_empty in Hv.
  - exists w1, hs, w2. split; [done|]. split; [done|].
    destruct (Hrec 0%nat rawRecord eq_refl) as (h & Hh & _ & Hi & _).
    destruct hs as [|h' [|]]; [done| |done]. injection Hh as ->. cbn [map].
    by rewrite Hi.
Defined.

End PendingFacts.

(** ** Restart *)

Module RestartFacts.

Import Storage StorageFacts StoreEvolution PersistFacts HydrateFacts RoundTripFacts.
Import PendingFacts CreatePage RecoveryFacts Examples.

(** A traversal keeps a preorder every step keeps. *)
Lemma mapIndexed_keeps {Σ A B} (R : Σ → Σ → Prop) `{!Reflexive R, !Transitive R}
    (f : nat → A → St Σ B) (xs : list A) (n : nat) (w : Σ) :
  Forall (fun a => ∀ n w, R w (f n a w).2) xs → R w (mapIndexed f n xs w).2.
Proof.
  intros H.
  apply (mapIndexed_inv R (fun _ _ _ _ => True) f w xs); [done| |reflexivity].
  eapply Forall_impl; [exact H|]. intros a Ha n' w' _. by split.
Qed.

(** What a load changes of the store: "img:" keys only, and those to
    payloads; [localStorage] is as it was. *)
Definition keeps (w w' : World) : Prop :=
  (∀ k, Js.startsWith k "img:" = false → store w' !! k = store w !! k) ∧
  (blobsOnly w → blobsOnly w') ∧
  localStorage w' = localStorage w.

#[global] Instance keeps_refl : Reflexive keeps.
Proof. intros w. by repeat split. Qed.

#[global] Instance keeps_trans : Transitive keeps.
Proof.
  intros w1 w2 w3 (S1 & B1 & L1) (S2 & B2 & L2). split; [|split].
  - intros k Hk. by rewrite S2, S1.
  - auto.
  - congruence.
Qed.

Lemma setItem_blob_keeps (key : string) (b : Blob) (w : World) :
  Js.startsWith key "img:" = true → keeps w (setItem key (VBlob b) w).2.
Proof.
  intros Hkey. split; [|split].
  - unfold setItem. destruct (setItemFails w key); [done|].
    intros k Hk. cbn [snd setStore store]. rewrite lookup_insert_ne; [done|].
    intros ->. congruence.
  - apply setItem_blob_blobsOnly.
  - unfold setItem. by destruct (setItemFails w key).
Qed.

Lemma createObjectURL_keeps (b : Blob) (w : World) : keeps w (createObjectURL b w).2.
Proof. by repeat split. Qed.

Lemma migrate_keeps {A} (key url : string) (kept : A) (made : string → A) (w : World) :
  Js.startsWith key "img:" = true →
  keeps w ((let* blob := urlToBlob url in
            match blob with
            | Some b =>
                let* ok := setItem key (VBlob b) in
                if ok then let* handle := createObjectURL b in ret (made handle)
                else ret kept
            | None => ret kept
            end) w).2.
Proof.
  intros Hkey. unfold bind, urlToBlob.
  destruct (fetchBlob w url) as [b|]; [|reflexivity].
  pose proof (setItem_blob_keeps key b w Hkey) as H1.
  destruct (setItem key (VBlob b) w) as [[] w1]; cbn [snd] in *; [|done].
  pose proof (createObjectURL_keeps b w1) as H2.
  destruct (createObjectURL b w1) as [handle w2]. cbn [ret snd] in *.
  by transitivity w1.
Qed.

Lemma hydrateImage_keeps (gen : Generation) (index : nat) (img : string) (w : World) :
  keeps w (hydrateImage gen index img w).2.
Proof.
  unfold hydrateImage. destruct (negb (Js.truthy img)); [reflexivity|].
  destruct (isRef img).
  - unfold bind, getItem. destruct (store w !! getRefKey img) as [[]|]; try reflexivity.
    apply createObjectURL_keeps.
  - pose proof (migrate_keeps (getImageKey (id gen) index Output None) img img
                  (fun handle => handle) w (getImageKey_img _ _ _ _)) as H.
    unfold bind, urlToBlob in *. destruct (fetchBlob w img) as [b|]; [|done].
    destruct (setItem _ (VBlob b) w) as [[] w1]; [|done].
    by destruct (createObjectURL b w1).
Qed.

Lemma hydrateInput_keeps (gen : Generation) (inp : InputImage) (w : World) :
  keeps w (hydrateInput gen inp w).2.
Proof.
  unfold hydrateInput. destruct (negb (Js.truthy (ii_url inp))); [reflexivity|].
  destruct (isRef (ii_url inp)).
  - unfold bind, getItem.
    destruct (store w !! getRefKey (ii_url inp)) as [[]|]; try reflexivity.
    pose proof (createObjectURL_keeps b w). by destruct (createObjectURL b w).
  - apply (migrate_keeps (getImageKey (id gen) 0 Input (Some (ii_id inp))) (ii_url inp) inp
             (fun handle => withUrl inp handle) w (getImageKey_img _ _ _ _)).
Qed.

Lemma hydrateGeneration_keeps (gen : Generation) (w : World) :
  keeps w (hydrateGeneration gen w).2.
Proof.
  unfold hydrateGeneration, bind, mapAll.
  pose proof (mapIndexed_keeps keeps (hydrateImage gen) (images gen) 0 w) as E1.
  destruct (mapIndexed (hydrateImage gen) 0 (images gen) w) as [imgs w1].
  pose proof (mapIndexed_keeps keeps (fun _ => hydrateInput gen) (inputImages gen) 0 w1) as E2.
  destruct (mapIndexed _ 0 (inputImages gen) w1) as [inps w2].
  cbn [ret fst snd] in *. transitivity w1.
  - apply E1, Forall_forall. intros img _ n w'. apply hydrateImage_keeps.
  - apply E2, Forall_forall. intros inp _ n w'. apply hydrateInput_keeps.
Qed.

(** [restoreGenerations] is the hydration of the document it reads. *)
Definition hydrateDocument (doc : option StoreValue)
    : M (option (option (list Generation))) :=
  match doc with
  | Some (VGenerations gs) =>
      let* hydratedGenerations := mapAll hydrateGeneration gs in
      ret (Some (Some hydratedGenerations))
  | Some (VStrings []) => ret (Some (Some []))
  | Some (VStrings (_ :: _)) => ret None
  | _ => ret (Some None)
  end.

Lemma restoreGenerations_eq (w : World) :
  restoreGenerations w =
  hydrateDocument (readGenerationsDocument w).1 (readGenerationsDocument w).2.
Proof.
  unfold restoreGenerations, hydrateDocument, bind at 1.
  by destruct (readGenerationsDocument w).
Qed.

Lemma hydrateDocument_keeps (doc : option StoreValue) (w : World) :
  keeps w (hydrateDocument doc w).2.
Proof.
  destruct doc as [[b|gs|[|s ss]|]|]; try reflexivity.
  unfold hydrateDocument, bind, mapAll.
  pose proof (mapIndexed_keeps keeps (fun _ => hydrateGeneration) gs 0 w) as E.
  destruct (mapIndexed _ 0 gs w) as [hs w1]. cbn [ret snd] in *.
  apply E, Forall_forall. intros g _ n w'. apply hydrateGeneration_keeps.
Qed.

(** What [restoreGenerations] leaves: the keys of the store that are not
    "img:" keys, payloads under the "img:" keys, and every key of
    [localStorage] but the legacy document. *)
Lemma restoreGenerations_frame (w : World) :
  (∀ k, Js.startsWith k "img:" = false →
     store (restoreGenerations w).2 !! k = store w !! k) ∧
  (blobsOnly w → blobsOnly (restoreGenerations w).2) ∧
  (∀ k, k ≠ GENERATIONS_KEY →
     localStorage (restoreGenerations w).2 !! k = localStorage w !! k).
Proof.
  rewrite restoreGenerations_eq.
  assert (Hread : store (readGenerationsDocument w).2 = store w ∧
                  ∀ k, k ≠ GENERATIONS_KEY →
                    localStorage (readGenerationsDocument w).2 !! k = localStorage w !! k).
  { unfold readGenerationsDocument, bind, getItem.
    destruct (store w !! GENERATIONS_KEY); [done|].
    destruct (localStorage w !! GENERATIONS_KEY) as [legacy|]; [|done].
    destruct (Js.truthy legacy); [|done].
    destruct (jsonParse w legacy); [|done].
    split; [done|]. intros k Hk. cbn [snd setLocalStorage localStorage].
    by rewrite lookup_delete_ne. }
  destruct Hread as [Hs Hl].
  destruct (readGenerationsDocument w) as [doc w0]. cbn [fst snd] in *.
  destruct (hydrateDocument_keeps doc w0) as (K1 & K2 & K3). split; [|split].
  - intros k Hk. by rewrite K1, Hs.
  - intros Hb. apply K2. intros k v Hk Hv. rewrite Hs in Hv. by eapply Hb.
  - intros k Hk. rewrite K3. by apply Hl.
Qed.

(** When the store holds a document of completed records, or no document
    and [localStorage] no legacy one, [restoreGenerations] resolves. *)
Lemma restoreGenerations_resolves (w : World) :
  (∃ gs, store w !! GENERATIONS_KEY = Some (VGenerations gs)) ∨
  (store w !! GENERATIONS_KEY = None ∧ localStorage w !! GENERATIONS_KEY = None) →
  is_Some (restoreGenerations w).1.
Proof.
  intros [[gs Hdoc]|[Hdoc Hlegacy]]; rewrite restoreGenerations_eq;
    unfold readGenerationsDocument, bind, getItem; rewrite Hdoc.
  - cbn [ret fst snd hydrateDocument]. unfold bind.
    by destruct (mapAll hydrateGeneration gs w).
  - by rewrite Hlegacy.
Qed.

Lemma loadPendingInput_store (inp : InputImage) (w : World) :
  sameStore w (loadPendingInput inp w).2.
Proof.
  unfold loadPendingInput, sameStore. destruct (isRef (ii_url inp)); [|done].
  unfold bind, getItem. by destruct (store w !! getRefKey (ii_url inp)) as [[]|].
Qed.

Lemma loadPending_store (w : World) : store (loadPending w).2 = store w.
Proof.
  unfold loadPending, bind at 1, getItem.
  destruct (store w !! PENDING_KEY) as [[]|]; try done.
  unfold bind, mapAll.
  pose proof (mapIndexed_keeps sameStore (fun _ => loadPendingOne) gs 0 w) as E.
  destruct (mapIndexed _ 0 gs w) as [hs w1]. cbn [ret snd] in *.
  apply E, Forall_forall. intros g _ n w'. unfold loadPendingOne, bind, mapAll.
  pose proof (mapIndexed_keeps sameStore (fun _ => loadPendingInput) (inputImages g) 0 w') as E'.
  destruct (mapIndexed _ 0 (inputImages g) w') as [inps w2]. cbn [ret snd] in *.
  apply E', Forall_forall. intros inp _ n' w''. apply loadPendingInput_store.
Qed.

Lemma restoreFavorites_store (w : World) : store (restoreFavorites w).2 = store w.
Proof.
  unfold restoreFavorites, bind, getItem.
  destruct (store w !! FAVORITES_KEY); [done|].
  destruct (localStorage w !! FAVORITES_KEY) as [legacy|]; [|done].
  destruct (Js.truthy legacy); [|done].
  destruct (jsonParse w legacy) as [[]|]; done.
Qed.

(** The run of the hydration of a document. *)
Lemma hydrateGenerations_run (gs : list Generation) (w : World) :
  ∃ hs w',
    mapAll hydrateGeneration gs w = (hs, w') ∧ extends w w' ∧
    length hs = length gs ∧
    ∀ j g, gs !! j = Some g → ∃ h, hs !! j = Some h ∧ hydratedAs w w' g h.
Proof.
  unfold mapAll.
  pose proof (mapIndexed_inv extends
    (fun (_ : nat) g h w' => hydratedAs w w' g h)
    (fun _ => hydrateGeneration) w gs) as H.
  destruct H with (n := 0) (w := w) as (He & Hlen & Hq); [| |reflexivity|].
  { intros _ g h wa wb. apply hydratedAs_stable. }
  { apply Forall_forall. intros g _ n w1 Hw1. by apply hydrateGeneration_step. }
  clear H. destruct (mapIndexed _ 0 gs w) as [hs w']. cbn [fst snd] in *.
  by exists hs, w'.
Qed.

(** The legacy document. When the store has no document of completed
    records and [localStorage] holds a non-empty one: if it does not parse,
    [restoreGenerations] returns null and leaves the world; if it parses,
    it is removed from [localStorage], whose other keys stay, and the store
    gets no document. Then the result is null when the parsed value is no
    array; it is the empty list for the empty array; the promise is
    rejected, the store and the handles left as they were, for an array
    whose entries are no records; and for an array of records the result
    has one record per record, in order, with the same metadata, as many
    image fields, and the empty slots empty. *)
Theorem restoreGenerations_legacy (w : World) (legacy : string) :
  store w !! GENERATIONS_KEY = None →
  localStorage w !! GENERATIONS_KEY = Some legacy →
  legacy ≠ "" →
  (jsonParse w legacy = None → restoreGenerations w = (Some None, w)) ∧
  (∀ v, jsonParse w legacy = Some v →
     localStorage (restoreGenerations w).2 !! GENERATIONS_KEY = None ∧
     (∀ k, k ≠ GENERATIONS_KEY →
        localStorage (restoreGenerations w).2 !! k = localStorage w !! k) ∧
     store (restoreGenerations w).2 !! GENERATIONS_KEY = None) ∧
  (∀ v, jsonParse w legacy = Some v → v = VOther ∨ (∃ b, v = VBlob b) →
     (restoreGenerations w).1 = Some None) ∧
  (jsonParse w legacy = Some (VStrings []) →
     (restoreGenerations w).1 = Some (Some [])) ∧
  (∀ s ss, jsonParse w legacy = Some (VStrings (s :: ss)) →
     (restoreGenerations w).1 = None ∧
     store (restoreGenerations w).2 = store w ∧
     objectURLs (restoreGenerations w).2 = objectURLs w) ∧
  (∀ gs, jsonParse w legacy = Some (VGenerations gs) →
     ∃ hs, (restoreGenerations w).1 = Some (Some hs) ∧ length hs = length gs ∧
       ∀ j g, gs !! j = Some g →
         ∃ h, hs !! j = Some h ∧ sameMetadata g h ∧
              length (images h) = length (images g) ∧
              length (inputImages h) = length (inputImages g) ∧
              (∀ index, images g !! index = Some "" → images h !! index = Some "")).
Proof.
  intros Hstore Hlegacy Hne.
  assert (Ht : Js.truthy legacy = true) by (by apply JsFacts.truthy_true).
  assert (Hread : readGenerationsDocument w =
            match jsonParse w legacy with
            | Some v => (Some v, setLocalStorage w (delete GENERATIONS_KEY (localStorage w)))
            | None => (None, w)
            end).
  { unfold readGenerationsDocument, bind, getItem. by rewrite Hstore, Hlegacy, Ht. }
  pose proof (restoreGenerations_frame w) as (Fs & _ & Fl).
  split; [|split; [|split; [|split; [|split]]]].
  - intros Hparse. by rewrite restoreGenerations_eq, Hread, Hparse.
  - intros v Hparse. split; [|split].
    + assert (Hl : localStorage (restoreGenerations w).2 =
                   delete GENERATIONS_KEY (localStorage w)).
      { rewrite restoreGenerations_eq, Hread, Hparse. cbn [fst snd].
        by destruct (hydrateDocument_keeps (Some v)
                       (setLocalStorage w (delete GENERATIONS_KEY (localStorage w))))
          as (_ & _ & ->). }
      rewrite Hl. apply lookup_delete_eq.
    + done.
    + by rewrite Fs.
  - intros v Hparse Hv. rewrite restoreGenerations_eq, Hread, Hparse.
    by destruct Hv as [->|[b ->]].
  - intros Hparse. by rewrite restoreGenerations_eq, Hread, Hparse.
  - intros s ss Hparse. by rewrite restoreGenerations_eq, Hread, Hparse.
  - intros gs Hparse. rewrite restoreGenerations_eq, Hread, Hparse.
    cbn [fst snd hydrateDocument].
    set (w0 := setLocalStorage w (delete GENERATIONS_KEY (localStorage w))).
    unfold bind.
    destruct (hydrateGenerations_run gs w0) as (hs & w1 & -> & _ & Hlen & Hq).
    cbn [ret fst]. exists hs. split; [done|]. split; [done|].
    intros j g Hj. destruct (Hq j g Hj) as (h & Hh & Hm & Hl1 & Hq1 & Hl2 & _).
    exists h. do 4 (split; [done|]).
    intros index Hi. destruct (Hq1 index "" Hi) as (img' & Hi' & Hf).
    unfold hydratedField in Hf. cbn in Hf. by subst img'.
Qed.

(** A world with a legacy document in [localStorage]. *)
Definition legacyWorld : World :=
  {| store := ∅;
     localStorage := {[ GENERATIONS_KEY := "[{...}]" ]};
     objectURLs := [];
     fetchBlob := fun _ => None;
     jsonParse := fun _ => Some (VGenerations [interruptedRecord]);
     setItemFails := fun _ => false |}.

Lemma restoreGenerations_legacy_witness :
  localStorage (restoreGenerations legacyWorld).2 !! GENERATIONS_KEY = None ∧
  ∃ hs, (restoreGenerations legacyWorld).1 = Some (Some hs) ∧ length hs = 1.
Proof.
  destruct (restoreGenerations_legacy legacyWorld "[{...}]" eq_refl eq_refl ltac:(done))
    as (_ & Hparsed & _ & _ & _ & Hrecords).
  split.
  - exact (proj1 (Hparsed _ eq_refl)).
  - destruct (Hrecords [interruptedRecord] eq_refl) as (hs & ? & ? & _). by exists hs.
Defined.

(** The recovery pass with a key, on pending records. *)
Lemma reconcilePending_promotes_run (st : AppState) :
  recoveryDue st → noKeys st = false →
  pendingGenerations (reconcilePending st) = [] ∧
  pendingReconciledRef (reconcilePending st) = true ∧
  ∃ reconciled,
    generations (reconcilePending st) = reconciled ++ generations st ∧
    length reconciled = length (pendingGenerations st) ∧
    ∀ j p, pendingGenerations st !! j = Some p →
      ∃ r, reconciled !! j = Some r ∧ sameData p r.
Proof.
  intros Hdue Hkeys. rewrite reconcilePending_due by done. rewrite Hkeys.
  destruct (Nat.eqb (length (pendingGenerations st)) 0) eqn:E.
  { apply Nat.eqb_eq, nil_length_inv in E.
    cbn [markReconciled pendingGenerations generations pendingReconciledRef].
    split; [done|]. split; [done|].
    exists []. split; [done|]. split; [by rewrite E|]. intros j p Hj.
    by rewrite E, lookup_nil in Hj. }
  clear E. unfold mapAll.
  set (existingIds := list_to_set (map id (generations st)) : gset string).
  pose proof (mapIndexed_inv drawsOnly
    (fun (_ : nat) p r s' =>
       reconciledAs (mathRandom st) existingIds (randomDraws st) p r s')
    (fun _ => reconcileOne existingIds) st (pendingGenerations st)) as H.
  destruct H with (n := 0) (w := st) as (Hd & Hlen & Hq); [| |reflexivity|].
  { intros _ p r sa sb (Hs & Hk & Hc) [_ Hle]. split; [done|]. split; [done|].
    intros Hin. destruct (Hc Hin) as (n & Hn & Hid). exists n. split; [lia|done]. }
  { apply Forall_forall. intros p _ n s Hs. by apply reconcileOne_step. }
  clear H. destruct (mapIndexed _ 0 (pendingGenerations st) st) as [reconciled st1].
  cbn [fst snd] in *.
  cbn [markReconciled setPendingGenerations setGenerations pendingGenerations
       generations pendingReconciledRef].
  split; [done|]. split; [done|]. exists reconciled.
  split; [done|]. split; [done|].
  intros j p Hj. destruct (Hq j p Hj) as (r & Hr & Hs & _). by exists r.
Qed.

(** [loadState] when both loads return. *)
Lemma loadState_loaded (st : AppState) (rg : option (list Generation)) (w1 : World)
    (hs : list Generation) (w2 : World) :
  restoreGenerations (browser st) = (Some rg, w1) →
  loadPending w1 = (Some hs, w2) →
  generations (loadState st) = default (generations st) rg ∧
  pendingGenerations (loadState st) = hs ∧
  favorites (loadState st) = (restoreFavorites w2).1 ∧
  browser (loadState st) = (restoreFavorites w2).2 ∧
  storageHydratedRef (loadState st) = true ∧
  pendingHydratedRef (loadState st) = Nat.ltb 0 (length hs) ∧
  pendingReconciledRef (loadState st) =
    (if Nat.ltb 0 (length hs) then pendingReconciledRef st else true) ∧
  apiKey (loadState st) =
    default (apiKey st) (localStorage (browser st) !! STORAGE_KEYS_apiKey) ∧
  geminiApiKey (loadState st) =
    default (geminiApiKey st) (localStorage (browser st) !! STORAGE_KEYS_geminiApiKey).
Proof.
  intros E1 E2. unfold loadState. rewrite E1, E2.
  destruct (restoreFavorites w2) as [rf w3].
  destruct (localStorage (browser st) !! STORAGE_KEYS_apiKey),
           (localStorage (browser st) !! STORAGE_KEYS_geminiApiKey), rg;
    by destruct (Nat.ltb 0 (length hs)).
Qed.

(** [loadState] when one of the two loads rejects. *)
Lemma loadState_rejected (st : AppState) (rg : option (option (list Generation)))
    (w1 : World) (rp : option (list Generation)) (w2 : World) :
  restoreGenerations (browser st) = (rg, w1) →
  loadPending w1 = (rp, w2) →
  rg = None ∨ rp = None →
  generations (loadState st) = generations st ∧
  pendingGenerations (loadState st) = pendingGenerations st ∧
  favorites (loadState st) = ∅ ∧
  storageHydratedRef (loadState st) = true ∧
  pendingHydratedRef (loadState st) = pendingHydratedRef st ∧
  pendingReconciledRef (loadState st) =
    (if pendingHydratedRef st then pendingReconciledRef st else true).
Proof.
  intros E1 E2 Hrej. unfold loadState. rewrite E1, E2.
  destruct (restoreFavorites w2) as [rf w3].
  destruct (localStorage (browser st) !! STORAGE_KEYS_apiKey),
           (localStorage (browser st) !! STORAGE_KEYS_geminiApiKey);
    by destruct Hrej as [-> | ->]; [|destruct rg].
Qed.

(** [loadState]: storage counts as hydrated afterwards; when no pending
    record was restored the pending records count as reconciled and the
    recovery pass is a no-op; when [loadPending] rejects, neither list is
    set and the favourites are the empty set; and on a store and a
    [localStorage] without any document the browser state and the
    completed list are left, and the pending list and the favourites are
    empty. *)
Theorem loadState_edges (st : AppState) :
  let st1 := loadState st in
  storageHydratedRef st1 = true ∧
  (pendingHydratedRef st1 = false →
     pendingReconciledRef st1 = true ∧ reconcilePending st1 = st1) ∧
  ((loadPending (restoreGenerations (browser st)).2).1 = None →
     generations st1 = generations st ∧
     pendingGenerations st1 = pendingGenerations st ∧
     favorites st1 = ∅) ∧
  (store (browser st) !! GENERATIONS_KEY = None →
   store (browser st) !! PENDING_KEY = None →
   store (browser st) !! FAVORITES_KEY = None →
   localStorage (browser st) !! GENERATIONS_KEY = None →
   localStorage (browser st) !! FAVORITES_KEY = None →
     browser st1 = browser st ∧
     generations st1 = generations st ∧
     pendingGenerations st1 = [] ∧
     favorites st1 = ∅ ∧
     pendingHydratedRef st1 = false).
Proof.
  intros st1.
  assert (Hempty : store (browser st) !! GENERATIONS_KEY = None →
                   localStorage (browser st) !! GENERATIONS_KEY = None →
                   restoreGenerations (browser st) = (Some None, browser st)).
  { intros HG HLG.
    unfold restoreGenerations, readGenerationsDocument, bind, getItem.
    by rewrite HG, HLG. }
  destruct (restoreGenerations (browser st)) as [rg w1] eqn:E1. cbn [snd].
  destruct (loadPending w1) as [rp w2] eqn:E2; cbn [fst snd].
  destruct rg as [rg|], rp as [hs|].
  - destruct (loadState_loaded st rg w1 hs w2 E1 E2)
      as (Hg & Hp & Hf & Hb & Hsh & Hph & Hpr & _).
    fold st1 in Hg, Hp, Hf, Hb, Hsh, Hph, Hpr.
    split; [done|]. split; [|split; [done|]].
    + intros Hfalse. rewrite Hfalse in Hph. rewrite <- Hph in Hpr. cbn in Hpr.
      split; [done|]. unfold reconcilePending. by rewrite Hpr, orb_true_r.
    + intros HG HP HF HLG HLF.
      specialize (Hempty HG HLG). injection Hempty as -> ->.
      assert (loadPending (browser st) = (Some [], browser st)) as E2'.
      { unfold loadPending, bind, getItem. by rewrite HP. }
      rewrite E2' in E2. injection E2 as <- <-.
      assert (restoreFavorites (browser st) = (∅, browser st)) as E3.
      { unfold restoreFavorites, bind, getItem. by rewrite HF, HLF. }
      rewrite E3 in Hf, Hb. done.
  - destruct (loadState_rejected st _ w1 _ w2 E1 E2 (or_intror eq_refl))
      as (Hg & Hp & Hf & Hsh & Hph & Hpr).
    fold st1 in Hg, Hp, Hf, Hsh, Hph, Hpr.
    split; [done|]. split; [|split; [done|]].
    + intros Hfalse. rewrite Hfalse in Hph. rewrite <- Hph in Hpr. cbn in Hpr.
      split; [done|]. unfold reconcilePending. by rewrite Hpr, orb_true_r.
    + intros HG HP HF HLG HLF. exfalso.
      specialize (Hempty HG HLG). injection Hempty as -> ->.
      unfold loadPending, bind, getItem in E2. by rewrite HP in E2.
  - destruct (loadState_rejected st _ w1 _ w2 E1 E2 (or_introl eq_refl))
      as (Hg & Hp & Hf & Hsh & Hph & Hpr).
    fold st1 in Hg, Hp, Hf, Hsh, Hph, Hpr.
    split; [done|]. split; [|split; [done|]].
    + intros Hfalse. rewrite Hfalse in Hph. rewrite <- Hph in Hpr. cbn in Hpr.
      split; [done|]. unfold reconcilePending. by rewrite Hpr, orb_true_r.
    + intros HG HP HF HLG HLF. exfalso. by specialize (Hempty HG HLG).
  - destruct (loadState_rejected st _ w1 _ w2 E1 E2 (or_introl eq_refl))
      as (Hg & Hp & Hf & Hsh & Hph & Hpr).
    fold st1 in Hg, Hp, Hf, Hsh, Hph, Hpr.
    split; [done|]. split; [|split; [done|]].
    + intros Hfalse. rewrite Hfalse in Hph. rewrite <- Hph in Hpr. cbn in Hpr.
      split; [done|]. unfold reconcilePending. by rewrite Hpr, orb_true_r.
    + intros HG HP HF HLG HLF. exfalso. by specialize (Hempty HG HLG).
Qed.

(** A restart recovers the pending records. When the store holds a
    non-empty pending document (and payloads under its "img:" keys), and a
    document of completed records or none at all, [loadState] restores the
    pending records, in order, with their metadata and output slots, and
    makes the recovery pass due; the pass then empties the pending list,
    marks it reconciled and is a no-op from then on; without a key the
    completed list is as restored; with a key the completed list is the
    restored pending records, each with its prompt, date and output slots,
    before the restored completed records. *)
Theorem loadState_then_reconcile (st : AppState) (ps : list Generation) :
  pendingReconciledRef st = false →
  blobsOnly (browser st) →
  store (browser st) !! PENDING_KEY = Some (VGenerations ps) →
  ps ≠ [] →
  (∃ gs, store (browser st) !! GENERATIONS_KEY = Some (VGenerations gs)) ∨
  (store (browser st) !! GENERATIONS_KEY = None ∧
   localStorage (browser st) !! GENERATIONS_KEY = None) →
  let st1 := loadState st in
  let st2 := reconcilePending st1 in
  recoveryDue st1 ∧
  length (pendingGenerations st1) = length ps ∧
  (∀ j p, ps !! j = Some p →
     ∃ h, pendingGenerations st1 !! j = Some h ∧ sameMetadata p h ∧
          images h = images p) ∧
  pendingGenerations st2 = [] ∧
  pendingReconciledRef st2 = true ∧
  reconcilePending st2 = st2 ∧
  (noKeys st1 = true → generations st2 = generations st1) ∧
  (noKeys st1 = false →
     ∃ promoted,
       generations st2 = promoted ++ generations st1 ∧
       length promoted = length ps ∧
       ∀ j p, ps !! j = Some p →
         ∃ r, promoted !! j = Some r ∧ prompt r = prompt p ∧
              createdAt r = createdAt p ∧ images r = images p).
Proof.
  intros Hrec Hblobs Hdoc Hne Hcompleted st1 st2.
  pose proof (restoreGenerations_resolves (browser st) Hcompleted) as [rg Hrg].
  destruct (restoreGenerations (browser st)) as [rg' w1] eqn:E1.
  cbn [fst] in Hrg. subst rg'.
  pose proof (restoreGenerations_frame (browser st)) as (Fs & Fb & _).
  rewrite E1 in Fs, Fb. cbn [snd] in Fs, Fb.
  assert (Hdoc1 : store w1 !! PENDING_KEY = Some (VGenerations ps))
    by (by rewrite Fs).
  destruct (loadPending_run ps w1 (Fb Hblobs) Hdoc1)
    as (hs & w2 & E2 & _ & Hlen & Hhs).
  destruct (loadState_loaded st rg w1 hs w2 E1 E2)
    as (Hg & Hp & _ & _ & Hsh & Hph & Hpr & _).
  fold st1 in Hg, Hp, Hsh, Hph, Hpr.
  assert (Hpos : Nat.ltb 0 (length hs) = true).
  { apply Nat.ltb_lt. rewrite Hlen. destruct ps; [done|cbn; lia]. }
  rewrite Hpos in Hph, Hpr.
  assert (Hdue : recoveryDue st1) by (repeat split; congruence).
  assert (Hnonempty : pendingGenerations st1 ≠ []).
  { rewrite Hp. intros ->. by cbn in Hpos. }
  split; [done|]. split; [congruence|]. split.
  { intros j p Hj. destruct (Hhs j p Hj) as (h & Hh & Hm & Hi & _).
    exists h. rewrite Hp. done. }
  assert (Hafter : pendingGenerations st2 = [] ∧ pendingReconciledRef st2 = true ∧
            (noKeys st1 = true → generations st2 = generations st1) ∧
            (noKeys st1 = false →
               ∃ promoted,
                 generations st2 = promoted ++ generations st1 ∧
                 length promoted = length (pendingGenerations st1) ∧
                 ∀ j p, pendingGenerations st1 !! j = Some p →
                   ∃ r, promoted !! j = Some r ∧ sameData p r)).
  { unfold st2. destruct (noKeys st1) eqn:Hkeys.
    - destruct (reconcilePending_no_keys_run st1 Hdue Hnonempty Hkeys)
        as (H1 & H2 & _ & H3 & _).
      split; [done|]. split; [done|]. split; [done|]. by intros ?.
    - destruct (reconcilePending_promotes_run st1 Hdue Hkeys) as (H1 & H2 & H3).
      split; [done|]. split; [done|]. split; [done|]. by intros _. }
  destruct Hafter as (H1 & H2 & H3 & H4).
  split; [done|]. split; [done|]. split.
  { apply PageFacts.reconcilePending_fixed. }
  split; [done|]. intros Hkeys. destruct (H4 Hkeys) as (promoted & Hgen & Hlp & Hq).
  exists promoted. split; [done|]. split; [congruence|].
  intros j p Hj. destruct (Hhs j p Hj) as (h & Hh & Hm & Hi & _).
  rewrite <- Hp in Hh. destruct (Hq j h Hh) as (r & Hr & Hs).
  exists r. split; [done|].
  destruct Hs as (Hpr' & _ & _ & _ & _ & Hc & _ & _ & Him & _).
  destruct Hm as (_ & Hmp & _ & _ & _ & _ & Hmc & _).
  repeat split; congruence.
Qed.

Lemma loadState_then_reconcile_witness :
  pendingGenerations (loadState (restartedState "" [])) = [interruptedRecord] ∧
  pendingGenerations (reconcilePending (loadState (restartedState "" []))) = [] ∧
  generations (reconcilePending (loadState (restartedState "" []))) = [].
Proof.
  destruct (loadState_then_reconcile (restartedState "" []) [interruptedRecord] eq_refl)
    as (_ & _ & _ & Hp & _ & _ & Hnone & _).
  - intros key v Hkey. unfold restartedState. cbn [browser store].
    intros [<- _]%lookup_singleton_Some. by vm_compute in Hkey.
  - done.
  - done.
  - right. by split.
  - split; [by vm_compute|]. split; [done|]. by rewrite Hnone.
Defined.

End RestartFacts.

(** ** The migration of local data *)

Module MigrationFacts.

Import CloudStorage CloudStorageFacts MergeFacts SyncFacts CloudRoundTripFacts Examples.

(** The user is signed in and no request fails. *)
Definition online (user : string) (r : Remote) : Prop :=
  sessionUser r = Some user ∧ ∀ n, requestFails r n = false.

(** The rows of the user. *)
Definition rowsOf (user : string) (r : Remote) : list GenerationRow :=
  filter (fun row => row_user_id row = user) (generationsTable r).

Definition favoritesOf (user : string) (r : Remote) : list FavoriteRow :=
  filter (fun row => fav_user_id row = user) (favoritesTable r).

Lemma loadGenerationsFromCloud_online (user : string) (r : Remote) :
  online user r →
  ∃ r', loadGenerationsFromCloud r =
          (Some (map fromDbFormat
                   (map (selectRow r)
                      (arraySort (createdAtDescending (timestamptz r)) (rowsOf user r)))),
           r') ∧
        online user r' ∧ generationsTable r' = generationsTable r ∧
        favoritesTable r' = favoritesTable r.
Proof.
  intros [Hu Hok]. unfold loadGenerationsFromCloud, bind, request. rewrite Hu, Hok.
  cbn [negb]. eexists. split; [done|]. by repeat split.
Qed.

Lemma saveGenerationsToCloud_online (user : string) (gens : list Generation) (r : Remote) :
  online user r →
  ∃ r', saveGenerationsToCloud gens r = (Some tt, r') ∧
        online user r' ∧
        generationsTable r' =
          upsertRows (map (fun gen => toDbFormat gen user) gens) (generationsTable r) ∧
        favoritesTable r' = favoritesTable r.
Proof.
  intros [Hu Hok]. rewrite <- saveGenerationsWithImages_plain.
  rewrite saveGenerationsWithImages_eq, Hu. cbn zeta. rewrite Hok.
  rewrite processGenerations_plain. cbn [fst].
  eexists. split; [done|]. by repeat split.
Qed.

Lemma loadFavoritesFromCloud_online (user : string) (r : Remote) :
  online user r →
  ∃ r', loadFavoritesFromCloud r =
          (Some (list_to_set (map favoriteKeyOfRow (favoritesOf user r))), r') ∧
        online user r' ∧ generationsTable r' = generationsTable r ∧
        favoritesTable r' = favoritesTable r.
Proof.
  intros [Hu Hok]. unfold loadFavoritesFromCloud, bind, request. rewrite Hu, Hok.
  cbn [negb]. eexists. split; [done|]. by repeat split.
Qed.

Lemma saveFavoritesToCloud_online (user : string) (favs : gset string) (r : Remote) :
  online user r →
  ∃ r', saveFavoritesToCloud favs r = (Some tt, r') ∧
        online user r' ∧ generationsTable r' = generationsTable r ∧
        favoritesTable r' =
          filter (fun row => fav_user_id row ≠ user) (favoritesTable r) ++
          map (favoriteRow user) (elements favs).
Proof.
  intros [Hu Hok]. rewrite saveFavoritesToCloud_eq, Hu. cbn zeta. rewrite !Hok.
  destruct (Nat.ltb 0 (length _)) eqn:Hlen.
  - eexists. split; [done|]. by repeat split.
  - eexists. split; [done|]. split; [by split|]. split; [done|].
    cbn [setFavoritesTable favoritesTable].
    rewrite length_map in Hlen. apply Nat.ltb_ge in Hlen.
    assert (elements favs = []) as -> by (apply nil_length_inv; lia).
    by rewrite app_nil_r.
Qed.

(** [syncLocalToCloud], when the user is signed in and no request fails:
    it succeeds; the rows the user had stay as they are; every local
    record has a row of its id among the rows of the user; a row of the
    table was there before or is the row of a local record whose id the
    user had no row of; the favourite rows of the user are those of the
    cloud favourites together with the local ones; and the favourite rows
    of other users are as they were. *)
Theorem syncLocalToCloud_uploads (gens : list Generation) (favs : gset string)
    (r : Remote) (user : string) :
  sessionUser r = Some user →
  (∀ n, requestFails r n = false) →
  let synced := syncLocalToCloud gens favs r in
  let cloudFavorites : gset string :=
    list_to_set (map favoriteKeyOfRow (favoritesOf user r)) in
  synced.1 = Some tt ∧
  (∀ row, row ∈ rowsOf user r → row ∈ rowsOf user synced.2) ∧
  (∀ g, g ∈ gens → id g ∈ map row_id (rowsOf user synced.2)) ∧
  (∀ row, row ∈ generationsTable synced.2 →
     row ∈ generationsTable r ∨
     ∃ g, g ∈ gens ∧ row = toDbFormat g user ∧ id g ∉ map row_id (rowsOf user r)) ∧
  favoritesOf user synced.2 =
    map (favoriteRow user) (elements (cloudFavorites ∪ favs)) ∧
  filter (fun row => fav_user_id row ≠ user) (favoritesTable synced.2) =
    filter (fun row => fav_user_id row ≠ user) (favoritesTable r).
Proof.
  intros Hu Hok synced cloudFavorites.
  assert (Hon : online user r) by done.
  set (cloudGenerations := map fromDbFormat
         (map (selectRow r)
            (arraySort (createdAtDescending (timestamptz r)) (rowsOf user r)))).
  set (fresh := filter (fun g => id g ∉ (list_to_set (map id cloudGenerations) : gset string))
                       gens).
  assert (Hcloud : ∀ i, i ∈ map id cloudGenerations ↔ i ∈ map row_id (rowsOf user r)).
  { intros i. unfold cloudGenerations. rewrite <- !list_fmap_compose.
    rewrite arraySort_perm. done. }
  destruct (loadGenerationsFromCloud_online user r Hon) as (r1 & E1 & Hon1 & Hg1 & Hf1).
  assert (Hsave : ∃ r2, (if Nat.ltb 0 (length fresh) then saveGenerationsToCloud fresh
                         else ret (Some tt)) r1 = (Some tt, r2) ∧
                        online user r2 ∧
                        generationsTable r2 =
                          upsertRows (map (fun gen => toDbFormat gen user) fresh)
                                     (generationsTable r) ∧
                        favoritesTable r2 = favoritesTable r).
  { destruct (Nat.ltb 0 (length fresh)) eqn:Hlen.
    - destruct (saveGenerationsToCloud_online user fresh r1 Hon1) as (r2 & E & ? & ? & ?).
      exists r2. split; [done|]. split; [done|]. split; congruence.
    - exists r1. apply Nat.ltb_ge in Hlen.
      assert (fresh = []) as -> by (apply nil_length_inv; lia).
      split; [done|]. by split. }
  destruct Hsave as (r2 & E2 & Hon2 & Hg2 & Hf2).
  destruct (loadFavoritesFromCloud_online user r2 Hon2) as (r3 & E3 & Hon3 & Hg3 & Hf3).
  assert (Hcf : list_to_set (map favoriteKeyOfRow (favoritesOf user r2)) = cloudFavorites)
    by (unfold cloudFavorites, favoritesOf; by rewrite Hf2).
  rewrite Hcf in E3.
  destruct (saveFavoritesToCloud_online user (cloudFavorites ∪ favs) r3 Hon3)
    as (r4 & E4 & Hon4 & Hg4 & Hf4).
  assert (Hrun : synced = (Some tt, r4)).
  { unfold synced, syncLocalToCloud. rewrite Hu. unfold bindE at 1. rewrite E1.
    fold cloudGenerations. cbn zeta. fold fresh.
    unfold bindE at 1. rewrite E2. unfold bindE. by rewrite E3. }
  rewrite Hrun. cbn [fst snd].
  assert (Htable : generationsTable r4 =
                   upsertRows (map (fun gen => toDbFormat gen user) fresh)
                              (generationsTable r)) by congruence.
  assert (Hfresh_ids : ∀ g, g ∈ fresh → id g ∉ map row_id (rowsOf user r)).
  { intros g [Hnot _]%list_elem_of_filter Hin. apply Hnot.
    apply elem_of_list_to_set. by apply Hcloud. }
  split; [done|]. split; [|split; [|split; [|split]]].
  - intros row [Huser Hrow]%list_elem_of_filter.
    apply list_elem_of_filter. split; [done|]. rewrite Htable.
    apply upsertRows_keep; [done|].
    rewrite <- list_fmap_compose.
    intros (g & Hid & Hg)%list_elem_of_fmap. cbn in Hid.
    apply (Hfresh_ids g Hg). rewrite <- Hid. apply list_elem_of_fmap_2.
    by apply list_elem_of_filter.
  - intros g Hg.
    destruct (decide (id g ∈ map row_id (rowsOf user r))) as [Hold|Hnew].
    + apply list_elem_of_fmap in Hold as (row & Hid & [Huser Hrow]%list_elem_of_filter).
      rewrite Hid. apply list_elem_of_fmap_2.
      apply list_elem_of_filter. split; [done|]. rewrite Htable.
      apply upsertRows_keep; [done|].
      rewrite <- list_fmap_compose.
      intros (g' & Hid' & Hg')%list_elem_of_fmap. cbn in Hid'.
      apply (Hfresh_ids g' Hg'). rewrite <- Hid'. apply list_elem_of_fmap_2.
      by apply list_elem_of_filter.
    + assert (Hin : g ∈ fresh).
      { apply list_elem_of_filter. split; [|done].
        rewrite elem_of_list_to_set. by rewrite Hcloud. }
      assert (Hid : id g ∈ map row_id (generationsTable r4)).
      { rewrite Htable. apply upsertRows_id_in. right.
        rewrite <- list_fmap_compose. by apply (list_elem_of_fmap_2 (fun gen => id gen)). }
      apply list_elem_of_fmap in Hid as (row & Hid & Hrow).
      rewrite Hid. apply list_elem_of_fmap_2. apply list_elem_of_filter.
      split; [|done]. rewrite Htable in Hrow.
      apply upsertRows_row in Hrow as [[_ Hbatch]|[Hnot _]].
      * by apply list_elem_of_fmap in Hbatch as (g' & -> & _).
      * exfalso. apply Hnot. rewrite <- Hid, <- list_fmap_compose.
        by apply (list_elem_of_fmap_2 (fun gen => id gen)).
  - intros row Hrow. rewrite Htable in Hrow.
    apply upsertRows_row in Hrow as [[_ Hbatch]|[_ Hold]]; [right|by left].
    apply list_elem_of_fmap in Hbatch as (g & -> & Hg). exists g.
    split; [by apply list_elem_of_filter in Hg as [_ ?]|]. split; [done|].
    by apply Hfresh_ids.
  - unfold favoritesOf. rewrite Hf4, Hf3, Hf2.
    apply CloudFavoritesFacts.filter_user_rows.
  - rewrite Hf4, Hf3, Hf2. rewrite filter_app, list_filter_filter.
    rewrite (filter_none _ (map _ _)), app_nil_r.
    + apply list_filter_iff. tauto.
    + intros row (fav & -> & _)%list_elem_of_fmap. by intros H.
Qed.

Lemma syncLocalToCloud_uploads_witness :
  (syncLocalToCloud [sampleRecord "generation-a1" "a cat" []] {["generation-a1:0"]}
     freshRemote).1 = Some tt ∧
  "generation-a1" ∈
    map row_id
      (rowsOf "user-1"
         (syncLocalToCloud [sampleRecord "generation-a1" "a cat" []] {["generation-a1:0"]}
            freshRemote).2).
Proof.
  destruct (syncLocalToCloud_uploads [sampleRecord "generation-a1" "a cat" []]
              {["generation-a1:0"]} freshRemote "user-1" eq_refl (fun _ => eq_refl))
    as (Hres & _ & Hids & _).
  split; [done|]. apply (Hids (sampleRecord "generation-a1" "a cat" [])). left.
Defined.

End MigrationFacts.

(** ** The image setting *)

Module SettingFacts.

Import CreatePage CloudStorage CloudSync MergeFacts SignInFacts Examples.

Lemma loadSettingsFromCloud_ok (r : Remote) (user : string) :
  sessionUser r = Some user → requestFails r (requests r) = false →
  loadSettingsFromCloud r =
    (Some (mjoin (settingsTable r !! user)), setRequests r (S (requests r))).
Proof.
  intros Hu Hok. unfold loadSettingsFromCloud, bind, request. by rewrite Hu, Hok.
Qed.

Lemma handleSetSyncImages_stored (value : bool) (h : Hook) :
  syncImages (refs (handleSetSyncImages value h)) = value ∧
  initialSyncImages (browser (app (handleSetSyncImages value h))) = value ∧
  generations (app (handleSetSyncImages value h)) = generations (app h) ∧
  favorites (app (handleSetSyncImages value h)) = favorites (app h) ∧
  remote (handleSetSyncImages value h) = remote h.
Proof.
  unfold handleSetSyncImages, initialSyncImages.
  cbn [setApp setRefs setBrowser setLocalStorage app refs remote browser localStorage
       syncImages generations favorites].
  rewrite lookup_insert_eq. by destruct value.
Qed.

(** The component state and the refs [loadCloud] leaves: those of the
    hook, with the cloud's image setting when there is one. *)
Lemma loadCloud_setting (h : Hook) (user : string) :
  sessionUser (remote h) = Some user →
  requestFails (remote h) (requests (remote h)) = false →
  let adopted := match mjoin (settingsTable (remote h) !! user) with
                 | Some value => handleSetSyncImages value h
                 | None => h
                 end in
  app (loadCloud h).2 = app adopted ∧ refs (loadCloud h).2 = refs adopted.
Proof.
  intros Hu Hok. cbn zeta. unfold loadCloud, bindE, bind, liftRemote, modify.
  rewrite (loadSettingsFromCloud_ok _ user) by done.
  destruct (mjoin (settingsTable (remote h) !! user)) as [value|]; cbn [ret remote].
  - destruct (loadGenerationsFromCloud _) as [lg r2]. cbn [remote].
    destruct (loadFavoritesFromCloud r2) as [lf r3]. by destruct lg, lf.
  - destruct (loadGenerationsFromCloud _) as [lg r2]. cbn [remote].
    destruct (loadFavoritesFromCloud r2) as [lf r3]. by destruct lg, lf.
Qed.

(** The image setting, for a signed-in user whose requests do not fail.
    [handleSetSyncImages] sets the state and stores the value so that the
    initial state read from [localStorage] is that value. The settings
    effect does nothing before the initial sync; after it, it saves the
    setting so that [loadSettingsFromCloud] returns it, and leaves the
    component state, the refs and the other tables. At sign-in [loadCloud]
    adopts the cloud's setting, in the state and in [localStorage], when
    the cloud has one, and leaves the local setting and the browser state
    when it has none. *)
Theorem syncImages_roundtrip (value : bool) (h : Hook) (user : string) :
  sessionUser (remote h) = Some user →
  (∀ n, requestFails (remote h) n = false) →
  (syncImages (refs (handleSetSyncImages value h)) = value ∧
   initialSyncImages (browser (app (handleSetSyncImages value h))) = value) ∧
  (initialSyncDoneRef (refs h) = false → settingsEffect h = h) ∧
  (initialSyncDoneRef (refs h) = true →
     (loadSettingsFromCloud (remote (settingsEffect h))).1 =
       Some (Some (syncImages (refs h))) ∧
     app (settingsEffect h) = app h ∧ refs (settingsEffect h) = refs h ∧
     generationsTable (remote (settingsEffect h)) = generationsTable (remote h) ∧
     favoritesTable (remote (settingsEffect h)) = favoritesTable (remote h)) ∧
  (settingsTable (remote h) !! user = Some (Some value) →
     syncImages (refs (loadCloud h).2) = value ∧
     initialSyncImages (browser (app (loadCloud h).2)) = value) ∧
  (mjoin (settingsTable (remote h) !! user) = None →
     syncImages (refs (loadCloud h).2) = syncImages (refs h) ∧
     browser (app (loadCloud h).2) = browser (app h)).
Proof.
  intros Hu Hok. split; [|split; [|split; [|split]]].
  - split; apply handleSetSyncImages_stored.
  - intros Hi. unfold settingsEffect. by rewrite Hu, Hi.
  - intros Hi. unfold settingsEffect. rewrite Hu, Hi. cbn [negb].
    unfold liftRemote, saveSettingsToCloud, bind, request. rewrite Hu, Hok.
    cbn [negb snd app refs remote setSettingsTable setRequests generationsTable
         favoritesTable].
    split; [|done].
    unfold loadSettingsFromCloud, bind, request.
    cbn [sessionUser setSettingsTable setRequests requestFails requests settingsTable].
    rewrite Hu, Hok.
    cbn [negb fst sessionUser setSettingsTable setRequests requestFails requests
         settingsTable].
    by rewrite lookup_insert_eq.
  - intros Hset. destruct (loadCloud_setting h user Hu (Hok _)) as [-> ->].
    rewrite Hset. cbn [mjoin option_join]. split; apply handleSetSyncImages_stored.
  - intros Hnone. destruct (loadCloud_setting h user Hu (Hok _)) as [Ha ->].
    rewrite Ha, Hnone. done.
Qed.

Lemma syncImages_roundtrip_witness :
  (loadSettingsFromCloud (remote (settingsEffect syncedHook))).1 = Some (Some true).
Proof.
  exact (proj1 (proj1 (proj2 (proj2 (syncImages_roundtrip true syncedHook "user-1"
                                        eq_refl (fun _ => eq_refl)))) eq_refl)).
Defined.

End SettingFacts.

(** ** Minted ids *)

Module IdFacts.

Import Storage CreatePage DecimalFacts KeyFacts Examples.

Lemma colonFree_app (a b : string) :
  colonFree (a +:+ b) = colonFree a && colonFree b.
Proof.
  induction a as [|c a IH]; [done|].
  change (String c a +:+ b) with (String c (a +:+ b)). cbn [colonFree].
  by rewrite IH, andb_assoc.
Qed.

Lemma colonFree_substring (n m : nat) (s : string) :
  colonFree s = true → colonFree (String.substring n m s) = true.
Proof.
  revert n m. induction s as [|c s IH]; intros n m Hs.
  - by destruct n, m.
  - cbn [colonFree] in Hs. apply andb_prop in Hs as [Hc Hs].
    destruct n as [|n]; [destruct m as [|m]|]; cbn [String.substring colonFree].
    + done.
    + by rewrite Hc, IH.
    + by apply IH.
Qed.

Lemma length_append (a b : string) :
  String.length (a +:+ b) = (String.length a + String.length b)%nat.
Proof.
  induction a as [|c a IH]; [done|].
  change (String c a +:+ b) with (String c (a +:+ b)). cbn [String.length].
  by rewrite IH.
Qed.

Lemma length_substring (n m : nat) (s : string) :
  (String.length (String.substring n m s) ≤ m)%nat.
Proof.
  revert n m. induction s as [|c s IH]; intros n m.
  - destruct n, m; cbn; lia.
  - destruct n as [|n]; [destruct m as [|m]|]; cbn [String.substring String.length].
    + lia.
    + specialize (IH 0%nat m). lia.
    + apply IH.
Qed.

(** The ids [createId] mints. When the prefix has no colon and the random
    string drawn has none, the id has none, starts with the prefix and a
    dash, is at most nine characters longer than the prefix, and one
    random value has been drawn; so the key [handleToggleFavorite] makes of
    it for any index is well formed, and toggling it leaves a set of well
    formed keys well formed. *)
Theorem createId_colon_free (prefix : string) (st : AppState) :
  colonFree prefix = true →
  colonFree (mathRandom st (randomDraws st)) = true →
  let minted := (createId prefix st).1 in
  colonFree minted = true ∧
  Js.startsWith minted (prefix +:+ "-") = true ∧
  (String.length minted ≤ String.length prefix + 9)%nat ∧
  randomDraws (createId prefix st).2 = S (randomDraws st) ∧
  (∀ imageIndex favs,
     wellFormedFavorite (minted +:+ ":" +:+ Js.ofIndex imageIndex) ∧
     ∀ fav, fav ∈ toggleFavorite minted imageIndex favs →
       fav ∈ favs ∨ wellFormedFavorite fav).
Proof.
  intros Hp Hr minted. unfold minted, createId. cbn [fst snd setRandomDraws randomDraws].
  split; [|split; [|split; [|split; [done|]]]].
  - rewrite !colonFree_app, Hp. cbn [colonFree andb negb Ascii.eqb]. 
    by apply colonFree_substring.
  - rewrite <- KeyFacts.append_assoc. apply JsFacts.prefix_app.
  - rewrite !length_append. cbn [String.length].
    pose proof (length_substring 2 (10 - 2) (mathRandom st (randomDraws st))) as Hlen.
    unfold Js.slice. lia.
  - intros imageIndex favs.
    assert (Hwf : wellFormedFavorite
              ((prefix +:+ "-" +:+ Js.slice 2 10 (mathRandom st (randomDraws st)))
               +:+ ":" +:+ Js.ofIndex imageIndex)).
    { eexists _, imageIndex. split; [|done].
      rewrite !colonFree_app, Hp. by apply colonFree_substring. }
    split; [done|]. intros fav. unfold toggleFavorite.
    destruct (decide _); [set_solver|].
    intros [?|Hfav%elem_of_singleton]%elem_of_union; [by left|right]. by subst fav.
Qed.

Lemma createId_colon_free_witness :
  colonFree (createId "generation" (restartedState "sk-live" [])).1 = true.
Proof.
  exact (proj1 (createId_colon_free "generation" (restartedState "sk-live" [])
                  eq_refl eq_refl)).
Defined.

End IdFacts.

(** ** Dehydrating when fetches and writes fail *)

Module PersistFailureFacts.

Import Storage StorageFacts StoreEvolution PersistFacts HydrateFacts Examples.

(** Dehydrating touches the image keys only: the store is extended, and a
    key outside the [img:] name space holds what it held. *)
Definition onlyImages (w w' : World) : Prop :=
  extends w w' ∧
  ∀ k, Js.startsWith k "img:" = false → store w' !! k = store w !! k.

#[local] Instance onlyImages_refl : Reflexive onlyImages.
Proof. intros w. split; [reflexivity|done]. Qed.

#[local] Instance onlyImages_trans : Transitive onlyImages.
Proof.
  intros w1 w2 w3 [E1 K1] [E2 K2]. split; [by transitivity w2|].
  intros k Hk. by rewrite K2, K1.
Qed.

Lemma setItem_blob_onlyImages (key : string) (b : Blob) (w : World) :
  Js.startsWith key "img:" = true →
  onlyImages w (setItem key (VBlob b) w).2.
Proof.
  intros Hkey. split; [apply setItem_blob_extends|].
  intros k Hk. unfold setItem. destruct (setItemFails w key); [done|].
  cbn [snd setStore store]. apply lookup_insert_ne. congruence.
Qed.

(** What dehydrate makes of a field in any world: the field as it was, or
    the reference to its key; the latter for a field that is neither empty
    nor a reference, and that is a [blob:] handle or has its payload under
    the key. *)
Definition keptOrStored (key url url' : string) (w : World) : Prop :=
  url' = url ∨
  (url' = makeRef key ∧ Js.truthy url = true ∧ isRef url = false ∧
   (Js.startsWith url "blob:" = true ∨ isBlob w key)).

Lemma keptOrStored_stable (g : string) (index : nat) (type : ImageType)
    (inputId : option string) (url url' : string) (w w' : World) :
  keptOrStored (getImageKey g index type inputId) url url' w → extends w w' →
  keptOrStored (getImageKey g index type inputId) url url' w'.
Proof.
  intros [?|(? & ? & ? & Hcase)] (_ & _ & _ & HB & _); [by left|right].
  do 3 (split; [done|]). destruct Hcase as [?|Hb]; [by left|right].
  apply HB; [apply getImageKey_img|done].
Qed.

Lemma persistField_any (key url : string) (w : World) :
  Js.startsWith key "img:" = true →
  Js.truthy url = true → isRef url = false → Js.startsWith url "blob:" = false →
  let step : M string :=
    let* blob := urlToBlob url in
    match blob with
    | Some b =>
        let* ok := setItem key (VBlob b) in
        if ok then ret (makeRef key) else ret url
    | None => ret url
    end in
  onlyImages w (step w).2 ∧ keptOrStored key url (step w).1 (step w).2.
Proof.
  intros Hkey Ht Hr Hb step. subst step. unfold bind, urlToBlob.
  destruct (fetchBlob w url) as [b|]; [|by split; [|left]].
  pose proof (setItem_blob_onlyImages key b w Hkey) as He.
  destruct (setItem_blob_extends key b w) as (_ & Hok & _).
  destruct (setItem key (VBlob b) w) as [[] w1]; cbn [ret fst snd] in *.
  - split; [done|]. right. do 3 (split; [done|]). right. by apply Hok.
  - split; [done|]. by left.
Qed.

Lemma persistImage_any (gen : Generation) (index : nat) (img : string) (w : World) :
  onlyImages w (persistImage gen index img w).2 ∧
  keptOrStored (getImageKey (id gen) index Output None) img
               (persistImage gen index img w).1 (persistImage gen index img w).2.
Proof.
  unfold persistImage. destruct (Js.truthy img) eqn:Ht; cbn [negb].
  2: { cbn [ret fst snd]. split; [reflexivity|]. left.
       symmetry. by apply JsFacts.truthy_false. }
  destruct (isRef img) eqn:Hr; [by split; [|left]|].
  destruct (Js.startsWith img "blob:") eqn:Hb.
  { cbn [ret fst snd]. split; [reflexivity|]. right. do 3 (split; [done|]). by left. }
  apply persistField_any; try done. apply getImageKey_img.
Qed.

Lemma persistInput_any (gen : Generation) (inp : InputImage) (w : World) :
  onlyImages w (persistInput gen inp w).2 ∧
  (persistInput gen inp w).1 = withUrl inp (ii_url (persistInput gen inp w).1) ∧
  keptOrStored (getImageKey (id gen) 0 Input (Some (ii_id inp))) (ii_url inp)
               (ii_url (persistInput gen inp w).1) (persistInput gen inp w).2.
Proof.
  unfold persistInput. destruct (Js.truthy (ii_url inp)) eqn:Ht; cbn [negb].
  2: { cbn [ret fst snd]. split; [reflexivity|]. split; [by destruct inp|by left]. }
  destruct (isRef (ii_url inp)) eqn:Hr.
  { cbn [ret fst snd]. split; [reflexivity|]. split; [by destruct inp|by left]. }
  destruct (Js.startsWith (ii_url inp) "blob:") eqn:Hb.
  { cbn [ret fst snd withUrl ii_url]. split; [reflexivity|]. split; [done|].
    right. do 3 (split; [done|]). by left. }
  pose proof (persistField_any (getImageKey (id gen) 0 Input (Some (ii_id inp)))
                (ii_url inp) w (getImageKey_img _ _ _ _) Ht Hr Hb) as [He Hk].
  cbn zeta in *. unfold bind, urlToBlob in *.
  destruct (fetchBlob w (ii_url inp)) as [b|]; cbn [ret fst snd] in *.
  2: { split; [done|]. split; [by destruct inp|done]. }
  destruct (setItem _ (VBlob b) w) as [[] w1]; cbn [ret fst snd withUrl ii_url] in *.
  - by split.
  - split; [done|]. split; [by destruct inp|done].
Qed.

(** The persisted record [p] holds every field of [gen], as it was or as a
    reference. *)
Definition keepsFields (w : World) (gen p : Generation) : Prop :=
  sameMetadata gen p ∧
  length (images p) = length (images gen) ∧
  (∀ index img, images gen !! index = Some img →
     ∃ img', images p !! index = Some img' ∧
             keptOrStored (getImageKey (id gen) index Output None) img img' w) ∧
  length (inputImages p) = length (inputImages gen) ∧
  (∀ k inp, inputImages gen !! k = Some inp →
     ∃ inp', inputImages p !! k = Some inp' ∧
             inp' = withUrl inp (ii_url inp') ∧
             keptOrStored (getImageKey (id gen) 0 Input (Some (ii_id inp)))
                          (ii_url inp) (ii_url inp') w).

Lemma keepsFields_stable (gen p : Generation) (w w' : World) :
  keepsFields w gen p → extends w w' → keepsFields w' gen p.
Proof.
  intros (Hm & Hl1 & Hq1 & Hl2 & Hq2) He. repeat split; try done; try apply Hm.
  - intros index img Hi. destruct (Hq1 index img Hi) as (img' & ? & ?).
    exists img'. split; [done|]. by eapply keptOrStored_stable.
  - intros k inp Hk. destruct (Hq2 k inp Hk) as (inp' & ? & ? & ?).
    exists inp'. repeat split; try done. by eapply keptOrStored_stable.
Qed.

Lemma persistGeneration_any (w0 : World) (gen : Generation) (w : World) :
  onlyImages w0 w →
  onlyImages w (persistGeneration gen w).2 ∧
  keepsFields (persistGeneration gen w).2 gen (persistGeneration gen w).1.
Proof.
  intros Hext. unfold persistGeneration, bind.
  pose proof (mapIndexed_inv onlyImages
    (fun n img img' w => keptOrStored (getImageKey (id gen) n Output None) img img' w)
    (persistImage gen) w0 (images gen)) as H1.
  destruct H1 with (n := 0) (w := w) as (He1 & Hl1 & Hq1); [| |done|].
  { intros n a b wa wb ? [? _]. by eapply keptOrStored_stable. }
  { apply Forall_forall. intros img Hin n w1 Hw1. apply persistImage_any. }
  clear H1. destruct (mapIndexed (persistImage gen) 0 (images gen) w) as [imgs w1].
  cbn [fst snd] in *. unfold mapAll.
  pose proof (mapIndexed_inv onlyImages
    (fun (_ : nat) inp inp' w =>
       inp' = withUrl inp (ii_url inp') ∧
       keptOrStored (getImageKey (id gen) 0 Input (Some (ii_id inp)))
                    (ii_url inp) (ii_url inp') w)
    (fun _ => persistInput gen) w0 (inputImages gen)) as H2.
  destruct H2 with (n := 0) (w := w1) as (He2 & Hl2 & Hq2).
  { intros n a b wa wb [? ?] [? _]. split; [done|]. by eapply keptOrStored_stable. }
  { apply Forall_forall. intros inp Hin n w2 Hw2.
    destruct (persistInput_any gen inp w2) as (?&?&?); auto. }
  { by transitivity w. }
  clear H2. destruct (mapIndexed _ 0 (inputImages gen) w1) as [inps w2].
  cbn [ret fst snd] in *. split; [by transitivity w1|].
  unfold keepsFields. cbn [withImages images inputImages id].
  split; [by repeat split|]. split; [done|]. split; [|split; [done|]].
  - intros index img Hi. destruct (Hq1 index img Hi) as (img' & ? & ?).
    exists img'. split; [done|]. eapply keptOrStored_stable; [done|apply He2].
  - intros k inp Hk. destruct (Hq2 k inp Hk) as (inp' & ? & ? & ?). by exists inp'.
Qed.

(** Whatever the fetches and the writes do, dehydrating loses nothing: no key
    of the store is removed and no payload under an image key is replaced by
    something else; when the final write is rejected the document is the one
    that was there; when it is accepted the document has one record per
    generation, in order, with the metadata and every field slot of the
    original, each field being the original value or the reference to its
    key, and a reference is written only for a handle or for a payload that
    is in the store. *)
Theorem persistGenerations_never_drops (gens : list Generation) (w : World) :
  (∀ key, store (persistGenerations gens w).2 !! key = None → store w !! key = None) ∧
  (∀ key, Js.startsWith key "img:" = true → isBlob w key →
          isBlob (persistGenerations gens w).2 key) ∧
  ((persistGenerations gens w).1 = false →
     store (persistGenerations gens w).2 !! GENERATIONS_KEY = store w !! GENERATIONS_KEY) ∧
  ((persistGenerations gens w).1 = true →
     ∃ ps, store (persistGenerations gens w).2 !! GENERATIONS_KEY = Some (VGenerations ps) ∧
       length ps = length gens ∧
       ∀ j gen, gens !! j = Some gen →
         ∃ p, ps !! j = Some p ∧ keepsFields (persistGenerations gens w).2 gen p).
Proof.
  unfold persistGenerations, bind, mapAll.
  pose proof (mapIndexed_inv onlyImages
    (fun (_ : nat) gen p w => keepsFields w gen p)
    (fun _ => persistGeneration) w gens) as H.
  destruct H with (n := 0) (w := w) as (He & Hlen & Hq); [| |reflexivity|].
  { intros _ gen p wa wb ? [? _]. by eapply keepsFields_stable. }
  { apply Forall_forall. intros gen Hin n w1 Hw1. by apply (persistGeneration_any w). }
  clear H.
  destruct (mapIndexed _ 0 gens w) as [ps w1]. cbn [fst snd] in *.
  pose proof (setItem_document_extends GENERATIONS_KEY (VGenerations ps) w1 eq_refl) as He'.
  assert (Hall : extends w (setItem GENERATIONS_KEY (VGenerations ps) w1).2)
    by (transitivity w1; [apply He|done]).
  split; [apply Hall|]. split; [apply Hall|].
  unfold setItem in *. destruct (setItemFails w1 GENERATIONS_KEY); cbn [fst snd] in *.
  - split; [|done]. intros _. by apply He.
  - split; [done|]. intros _. exists ps. cbn [setStore store].
    split; [by rewrite lookup_insert_eq|]. split; [done|].
    intros j gen Hj. destruct (Hq j gen Hj) as (p & Hp & Hk). exists p. split; [done|].
    by eapply keepsFields_stable.
Qed.

End PersistFailureFacts.
